(** * The C samples of esbmc-ai, embedded and verified

    Each sample under [samples/] is a standalone C program; several are
    seeded with memory-safety defects.  Every sample the properties below
    talk about is embedded as Rocq functions in a module named after its
    file.  The first part of the file holds the embeddings, the second part
    the theorems. *)

From stdpp Require Import base numbers list gmap strings fin_maps.
From Stdlib Require Import ZArith Lia.
From Stdlib.Strings Require Import Byte.

Local Open Scope Z_scope.

(* ===================================================================== *)
(** * Part 1: embeddings                                                  *)
(* ===================================================================== *)

(** ** C [int] arithmetic *)

Module CInt.

Definition INT_MAX : Z := 2147483647.
Definition INT_MIN : Z := -2147483648.

(** Two's-complement wrap-around of a mathematical integer to 32 bits.  C
    leaves signed overflow undefined; here an addition that overflows wraps
    around. *)
Definition wrap (z : Z) : Z := (z + 2147483648) mod 4294967296 - 2147483648.

Definition add (x y : Z) : Z := wrap (x + y).

Definition in_range (z : Z) : Prop := INT_MIN <= z <= INT_MAX.

End CInt.

(** ** Outcome of a [main] that runs [assert]s *)

Inductive outcome (A : Type) : Type :=
| Returned (a : A)
| AssertionFailed (line : nat).
Arguments Returned {A} a.
Arguments AssertionFailed {A} line.

Definition assert_then {A} (line : nat) (cond : bool) (k : outcome A) : outcome A :=
  if cond then k else AssertionFailed line.

(** ** samples/optimize-code/sign_check.c *)

Module SignCheck.

Definition is_negative (a : Z) : bool := negb (a =? 0) && (a <? 0).

Definition is_positive (a : Z) : bool := (a >=? 0) && negb (a =? 0).

Definition is_zero (a : Z) : bool := a =? 0.

(** [nondet] is the value [__VERIFIER_nondet_int()] returns. *)
Definition work (nondet : Z) : Z :=
  let a := nondet in
  if is_zero a then 0
  else if is_positive a then 1
  else -1.

Definition main (nondet : Z) : outcome Z :=
  assert_then 36 (is_negative (-1))
  (assert_then 37 (negb (is_zero (-1)))
  (assert_then 38 (is_zero 0)
  (assert_then 39 (is_positive 0)
  (assert_then 40 (is_positive 100)
  (assert_then 41 (negb (work nondet =? 0))
  (Returned 0)))))).

End SignCheck.

(** ** samples/ast/function_test.c *)

Module FunctionTest.

Record Point_t : Type := { x : Z; y : Z }.

(** The file-scope variables [a] and [b]. *)
Record globals : Type := { a : Z; b : Z }.

(** [int a, b = 0;] at file scope: both start at zero. *)
Definition initial : globals := {| a := 0; b := 0 |}.

Definition add_point (p : Point_t) : Z := CInt.add (x p) (y p).

Definition add (val1 val2 : Z) : Z := CInt.add val1 val2.

(** [main] returns the outcome together with the final globals; reaching
    the closing brace of [main] returns 0. *)
Definition main (g : globals) : outcome Z * globals :=
  let g := {| a := add 2 2; b := b g |} in
  let g := {| a := a g; b := add 6 0 |} in
  let p1 := {| x := a g; y := b g |} in
  let g := {| a := add_point p1; b := b g |} in
  (assert_then 30 (a g =? 9) (Returned 0), g).

End FunctionTest.

(** ** samples/timer/src: clock.c and timer.c *)

Module Timer.

(** A pointer is the identifier of a heap block; the abstract heap records
    for each block whether it is allocated, and with which size, or has
    been released. *)
Definition ptr : Type := nat.

Inductive status : Type :=
| Live (size : Z)
| Freed.

(** A source location: file and line. *)
Definition loc : Type := (string * nat)%type.

Inductive violation : Type :=
| DoubleFree (at_ : loc) (p : ptr)
| UseAfterFree (at_ : loc) (p : ptr)
| InvalidPointer (at_ : loc) (p : ptr).

Inductive action : Type :=
| AMalloc (size : Z) (p : ptr)
| AFree (at_ : loc) (p : ptr)
| AUse (at_ : loc) (p : ptr).

(** The step relation of the abstract heap.  A step goes through whatever
    the status of the pointer is; the last component lists the violations
    of "never free a freed pointer, never use a freed pointer" that the
    step commits. *)
Inductive step : gmap ptr status -> action -> gmap ptr status -> list violation -> Prop :=
| step_malloc h size p :
    step h (AMalloc size p) (<[p := Live size]> h) []
| step_free_live h l p size :
    h !! p = Some (Live size) ->
    step h (AFree l p) (<[p := Freed]> h) []
| step_free_freed h l p :
    h !! p = Some Freed ->
    step h (AFree l p) h [DoubleFree l p]
| step_free_invalid h l p :
    h !! p = None ->
    step h (AFree l p) h [InvalidPointer l p]
| step_use_live h l p size :
    h !! p = Some (Live size) ->
    step h (AUse l p) h []
| step_use_freed h l p :
    h !! p = Some Freed ->
    step h (AUse l p) h [UseAfterFree l p]
| step_use_invalid h l p :
    h !! p = None ->
    step h (AUse l p) h [InvalidPointer l p].

(** The same steps as a function. *)
Definition heap_step (h : gmap ptr status) (a : action) : gmap ptr status * list violation :=
  match a with
  | AMalloc size p => (<[p := Live size]> h, [])
  | AFree l p =>
      match h !! p with
      | Some (Live _) => (<[p := Freed]> h, [])
      | Some Freed => (h, [DoubleFree l p])
      | None => (h, [InvalidPointer l p])
      end
  | AUse l p =>
      match h !! p with
      | Some (Live _) => (h, [])
      | Some Freed => (h, [UseAfterFree l p])
      | None => (h, [InvalidPointer l p])
      end
  end.

(** The state the functions of the sample run in: the abstract heap, the
    [unix_time] field of each [Clock] block, the number of calls made to
    [time] so far, and the violations committed so far, oldest first.
    Terminal output and [sleep] touch none of these and are left out. *)
Record world : Type := {
  heap : gmap ptr status;
  unix_time : gmap ptr Z;
  time_calls : nat;
  violations : list violation
}.

Definition perform (a : action) (w : world) : world :=
  let '(h, vs) := heap_step (heap w) a in
  {| heap := h; unix_time := unix_time w; time_calls := time_calls w;
     violations := violations w ++ vs |}.

(** [malloc] returns a block that is not in the heap yet; as in the
    sample, which hands the result to [strftime] unchecked, the allocation
    is taken to succeed. *)
Definition malloc (size : Z) (w : world) : ptr * world :=
  let p := fresh (dom (heap w)) in
  (p, perform (AMalloc size p) w).

Definition free (l : loc) (p : ptr) (w : world) : world := perform (AFree l p) w.

Definition use (l : loc) (p : ptr) (w : world) : world := perform (AUse l p) w.

Section WithWallClock.

(** [wall k] is what the [k]-th call of [time(NULL)] returns. *)
Variable wall : nat -> Z.

Definition time (w : world) : Z * world :=
  (wall (time_calls w),
   {| heap := heap w; unix_time := unix_time w;
      time_calls := S (time_calls w); violations := violations w |}).

(** [clock->unix_time = v] at location [l]. *)
Definition set_unix_time (l : loc) (clock : ptr) (v : Z) (w : world) : world :=
  let w := use l clock w in
  {| heap := heap w; unix_time := <[clock := v]> (unix_time w);
     time_calls := time_calls w; violations := violations w |}.

(* clock.c *)

Definition clock_init (clock : ptr) (w : world) : world :=
  let '(t, w) := time w in
  set_unix_time ("clock.c", 6%nat) clock t w.

Definition clock_get_formatted_time (clock : ptr) (w : world) : ptr * world :=
  let '(buffer, w) := malloc (26 * 1) w in
  let w := use ("clock.c", 11%nat) clock w in    (* localtime(&(clock->unix_time)) *)
  let w := use ("clock.c", 12%nat) buffer w in   (* strftime(buffer, 26, ...) *)
  (buffer, w).

(* timer.c *)

(** The loop of lines 14 to 19; [fuel] bounds the number of iterations. *)
Fixpoint countdown (fuel : nat) (clock time_str : ptr) (remaining tick_rate : Z)
    (w : world) : world :=
  match fuel with
  | O => w
  | S fuel' =>
      if remaining >? 0 then
        let '(t, w) := time w in
        let w := set_unix_time ("timer.c", 15%nat) clock t w in
        let w := use ("timer.c", 16%nat) time_str w in   (* printf("%s ...", time_str, ...) *)
        countdown fuel' clock time_str (remaining - 1) tick_rate w
      else w
  end.

(** [remaining] goes from [seconds] down to 1, so [Z.to_nat seconds]
    iterations are all the loop can make. *)
Definition timer_tick (clock : ptr) (seconds tick_rate : Z) (w : world) : world :=
  let '(time_str, w) := clock_get_formatted_time clock w in
  let w := free ("timer.c", 11%nat) time_str w in
  let w := free ("timer.c", 12%nat) time_str w in
  countdown (Z.to_nat seconds) clock time_str seconds tick_rate w.

End WithWallClock.

End Timer.

(** ** Arrays with checked indexing

    The array samples run in a state monad over the list of out-of-bounds
    accesses made so far, oldest first.  Indexing returns an option; on
    [None] the access is recorded and the run goes on: a store outside the
    array changes none of the modelled arrays, a load outside it yields
    the value [junk k], where [k] is the number of out-of-bounds accesses
    recorded before it.  The properties quantify over every [junk]. *)

Module Mem.

Inductive access : Type := Load | Store.

Record oob : Type := OOB {
  oob_access : access;
  oob_array : string;
  oob_index : Z;
  oob_line : nat
}.

Definition M (A : Type) : Type := list oob -> A * list oob.

Definition ret {A} (a : A) : M A := fun log => (a, log).

Definition bind {A B} (m : M A) (k : A -> M B) : M B :=
  fun log => let '(a, log') := m log in k a log'.

(** [a[i]] as an option: [None] when [i] is negative or past the end. *)
Definition index {A} (a : list A) (i : Z) : option A :=
  if i <? 0 then None else a !! Z.to_nat i.

(** [a[i] = v] as an option. *)
Definition update {A} (a : list A) (i : Z) (v : A) : option (list A) :=
  if (0 <=? i) && (i <? Z.of_nat (length a)) then Some (<[Z.to_nat i := v]> a)
  else None.

Section WithJunk.

Variable junk : nat -> Z.

Definition load (line : nat) (name : string) (a : list Z) (i : Z) : M Z :=
  fun log =>
    match index a i with
    | Some v => (v, log)
    | None => (junk (length log), log ++ [OOB Load name i line])
    end.

Definition store (line : nat) (name : string) (a : list Z) (i : Z) (v : Z)
    : M (list Z) :=
  fun log =>
    match update a i v with
    | Some a' => (a', log)
    | None => (a, log ++ [OOB Store name i line])
    end.

(** [m[i][j]] on a matrix stored as a list of rows. *)
Definition load2 (line : nat) (name : string) (m : list (list Z)) (i j : Z) : M Z :=
  fun log =>
    match index m i with
    | Some row => load line name row j log
    | None => (junk (length log), log ++ [OOB Load name i line])
    end.

End WithJunk.

(** [for (i = lo; cond i; i++) s = body i s]: the loop runs while [cond]
    holds; [fuel] bounds the number of iterations. *)
Fixpoint for_loop {T} (fuel : nat) (cond : Z -> bool) (i : Z)
    (body : Z -> T -> M T) (s : T) : M T :=
  match fuel with
  | O => ret s
  | S fuel' =>
      if cond i then bind (body i s) (for_loop fuel' cond (i + 1) body)
      else ret s
  end.

(** [emits P m]: whatever the record is before, [m] only appends to it,
    and only accesses that satisfy [P]. *)
Definition emits {A} (P : oob -> Prop) (m : M A) : Prop :=
  forall log, exists evs, (m log).2 = log ++ evs /\ Forall P evs.

End Mem.

Notation "'let*' x := m 'in' k" := (Mem.bind m (fun x => k))
  (at level 10, x name, m at level 100, k at level 200).

(** ** samples/bubble_sort.c *)

Module BubbleSort.
Import Mem.

Section WithJunk.

Variable junk : nat -> Z.

(** Lines 7 to 11, the body of the inner loop. *)
Definition compare_and_swap (j : Z) (arr : list Z) : M (list Z) :=
  let* a_j := load junk 7 "arr" arr j in
  let* a_j1 := load junk 7 "arr" arr (j + 1) in
  if a_j >? a_j1 then
    let* temp := load junk 8 "arr" arr j in
    let* v := load junk 9 "arr" arr (j + 1) in
    let* arr := store 9 "arr" arr j v in
    store 10 "arr" arr (j + 1) temp
  else ret arr.

(** The inner loop, [for (int j = 0; j < n; j++)]: at most [n]
    iterations. *)
Definition inner_loop (n : Z) (arr : list Z) : M (list Z) :=
  for_loop (Z.to_nat n) (fun j => j <? n) 0 compare_and_swap arr.

Definition buggy_bubble_sort (arr : list Z) (n : Z) : M (list Z) :=
  for_loop (Z.to_nat n) (fun i => i <? n) 0 (fun _ arr => inner_loop n arr) arr.

(** [main] up to the call; the printing loop reads [arr[0..n-1]]. *)
Definition main : M (list Z) :=
  let arr := [5; 3; 2; 4; 1] in
  let n := Z.of_nat (length arr) in
  buggy_bubble_sort arr n.

End WithJunk.

(** The three uses of [arr[j + 1]] in the body of the inner loop, as
    out-of-bounds accesses at index [n]. *)
Definition read_at_7 (n : Z) : oob := OOB Load "arr" n 7.
Definition read_at_9 (n : Z) : oob := OOB Load "arr" n 9.
Definition write_at_10 (n : Z) : oob := OOB Store "arr" n 10.

(** What one run of the inner loop can add to the record: the read of
    line 7, followed by the accesses of lines 9 and 10 when the comparison
    held. *)
Definition inner_events (n : Z) (evs : list oob) : Prop :=
  evs = [read_at_7 n] \/ evs = [read_at_7 n; read_at_9 n; write_at_10 n].

End BubbleSort.

(** ** samples/dijkstra_unsafe.c

    The local arrays [dist] and [sptSet] start with indeterminate contents
    in C; here they start filled with zeros, and every element is stored by
    the initialisation loop before it is loaded. *)

Module DijkstraUnsafe.
Import Mem.

Definition V : Z := 5.

Section WithJunk.

Variable junk : nat -> Z.

(** The body of the loop of [minDistance]; the state is
    [(min, min_index)].  [&&] evaluates its right operand only when the
    left one holds. *)
Definition minDistance_step (dist sptSet : list Z) (v : Z) (st : Z * Z) : M (Z * Z) :=
  let* s := load junk 10 "sptSet" sptSet v in
  if s =? 0 then
    let* d := load junk 11 "dist" dist v in
    if d <=? st.1 then
      let* d' := load junk 12 "dist" dist v in
      ret (d', v)
    else ret st
  else ret st.

Definition minDistance (dist sptSet : list Z) : M Z :=
  let* st := for_loop (Z.to_nat (V + 1)) (fun v => v <=? V) 0
               (minDistance_step dist sptSet) (CInt.INT_MAX, -1) in
  ret st.2.

Definition printSolution (dist : list Z) : M unit :=
  for_loop (Z.to_nat V) (fun i => i <? V) 0
    (fun i _ => let* _ := load junk 23 "dist" dist i in ret tt) tt.

(** The body of the initialisation loop; the state is [(dist, sptSet)]. *)
Definition init_step (i : Z) (st : list Z * list Z) : M (list Z * list Z) :=
  let* dist := store 33 "dist" st.1 i CInt.INT_MAX in
  let* sptSet := store 34 "sptSet" st.2 i 0 in
  ret (dist, sptSet).

(** The body of the inner loop: relax the edge from [u] to [v]. *)
Definition relax (graph : list (list Z)) (sptSet : list Z) (u v : Z)
    (dist : list Z) : M (list Z) :=
  let* s := load junk 45 "sptSet" sptSet v in
  if s =? 0 then
    let* g := load2 junk 45 "graph" graph u v in
    if negb (g =? 0) then
      let* du := load junk 45 "dist" dist u in
      if negb (du =? CInt.INT_MAX) then
        let* du := load junk 46 "dist" dist u in
        let* g := load2 junk 46 "graph" graph u v in
        let* dv := load junk 46 "dist" dist v in
        if CInt.add du g <? dv then
          let* du := load junk 47 "dist" dist u in
          let* g := load2 junk 47 "graph" graph u v in
          store 47 "dist" dist v (CInt.add du g)
        else ret dist
      else ret dist
    else ret dist
  else ret dist.

(** The body of the outer loop; the state is [(dist, sptSet)]. *)
Definition visit (graph : list (list Z)) (count : Z) (st : list Z * list Z)
    : M (list Z * list Z) :=
  let* u := minDistance st.1 st.2 in
  let* sptSet := store 41 "sptSet" st.2 u 1 in
  let* dist := for_loop (Z.to_nat V) (fun v => v <? V) 0
                 (relax graph sptSet u) st.1 in
  ret (dist, sptSet).

(** [dijkstra] returns nothing in C; here it returns the final [dist]. *)
Definition dijkstra (graph : list (list Z)) (src : Z) : M (list Z) :=
  let dist := replicate (Z.to_nat V) 0 in
  let sptSet := replicate (Z.to_nat V) 0 in
  let* st := for_loop (Z.to_nat (V + 1)) (fun i => i <=? V) 0
               init_step (dist, sptSet) in
  let* dist := store 37 "dist" st.1 src 0 in
  let* st := for_loop (Z.to_nat (V - 1)) (fun count => count <? V - 1) 0
               (visit graph) (dist, st.2) in
  let* _ := printSolution st.1 in
  ret st.1.

(** The adjacency matrix [main] declares. *)
Definition main_graph : list (list Z) :=
  [ [0; 10; 0; 30; 100]; [10; 0; 50; 0; 0]; [0; 50; 0; 20; 10];
    [30; 0; 20; 0; 60]; [100; 0; 10; 60; 0] ].

Definition main : M (list Z) := dijkstra main_graph 0.

End WithJunk.

(** The accesses at index [V] that the two [<=] loop bounds lead to. *)
Definition init_dist : oob := OOB Store "dist" V 33.
Definition init_sptSet : oob := OOB Store "sptSet" V 34.
Definition min_sptSet : oob := OOB Load "sptSet" V 10.
Definition min_dist : oob := OOB Load "dist" V 11.
Definition min_dist_again : oob := OOB Load "dist" V 12.

(** What one call of [minDistance] adds to the record, given the value
    [s] that its read of [sptSet[V]] yields. *)
Definition minDistance_events (s : Z) (evs : list oob) : Prop :=
  if decide (s = 0)
  then evs = [min_sptSet; min_dist] \/ evs = [min_sptSet; min_dist; min_dist_again]
  else evs = [min_sptSet].

End DijkstraUnsafe.

(** ** samples/dijkstra_safe.c

    The local arrays [dist] and [sptSet] start with indeterminate contents
    in C; here they start filled with zeros, and every element is stored by
    the initialisation loop before it is loaded. *)

Module DijkstraSafe.
Import Mem.

Definition V : Z := 5.

Section WithJunk.

Variable junk : nat -> Z.

(** The body of the loop of [minDistance]; the state is
    [(min, min_index)].  [&&] evaluates its right operand only when the
    left one holds. *)
Definition minDistance_step (dist sptSet : list Z) (v : Z) (st : Z * Z) : M (Z * Z) :=
  let* s := load junk 11 "sptSet" sptSet v in
  if s =? 0 then
    let* d := load junk 11 "dist" dist v in
    if d <=? st.1 then
      let* d' := load junk 12 "dist" dist v in
      ret (d', v)
    else ret st
  else ret st.

Definition minDistance (dist sptSet : list Z) : M Z :=
  let* st := for_loop (Z.to_nat V) (fun v => v <? V) 0
               (minDistance_step dist sptSet) (CInt.INT_MAX, -1) in
  ret st.2.

Definition printSolution (dist : list Z) : M unit :=
  for_loop (Z.to_nat V) (fun i => i <? V) 0
    (fun i _ => let* _ := load junk 22 "dist" dist i in ret tt) tt.

(** The body of the initialisation loop; the state is [(dist, sptSet)]. *)
Definition init_step (i : Z) (st : list Z * list Z) : M (list Z * list Z) :=
  let* dist := store 33 "dist" st.1 i CInt.INT_MAX in
  let* sptSet := store 34 "sptSet" st.2 i 0 in
  ret (dist, sptSet).

(** The body of the inner loop: relax the edge from [u] to [v]. *)
Definition relax (graph : list (list Z)) (sptSet : list Z) (u v : Z)
    (dist : list Z) : M (list Z) :=
  let* s := load junk 46 "sptSet" sptSet v in
  if s =? 0 then
    let* g := load2 junk 46 "graph" graph u v in
    if negb (g =? 0) then
      let* du := load junk 46 "dist" dist u in
      if negb (du =? CInt.INT_MAX) then
        let* du := load junk 47 "dist" dist u in
        let* g := load2 junk 47 "graph" graph u v in
        let* dv := load junk 47 "dist" dist v in
        if CInt.add du g <? dv then
          let* du := load junk 48 "dist" dist u in
          let* g := load2 junk 48 "graph" graph u v in
          store 48 "dist" dist v (CInt.add du g)
        else ret dist
      else ret dist
    else ret dist
  else ret dist.

(** The body of the outer loop; the state is [(dist, sptSet)]. *)
Definition visit (graph : list (list Z)) (count : Z) (st : list Z * list Z)
    : M (list Z * list Z) :=
  let* u := minDistance st.1 st.2 in
  let* sptSet := store 42 "sptSet" st.2 u 1 in
  let* dist := for_loop (Z.to_nat V) (fun v => v <? V) 0
                 (relax graph sptSet u) st.1 in
  ret (dist, sptSet).

(** [dijkstra] returns nothing in C; here it returns the final [dist]. *)
Definition dijkstra (graph : list (list Z)) (src : Z) : M (list Z) :=
  let dist := replicate (Z.to_nat V) 0 in
  let sptSet := replicate (Z.to_nat V) 0 in
  let* st := for_loop (Z.to_nat V) (fun i => i <? V) 0
               init_step (dist, sptSet) in
  let* dist := store 37 "dist" st.1 src 0 in
  let* st := for_loop (Z.to_nat (V - 1)) (fun count => count <? V - 1) 0
               (visit graph) (dist, st.2) in
  let* _ := printSolution st.1 in
  ret st.1.

(** The adjacency matrix [main] declares. *)
Definition main_graph : list (list Z) :=
  [ [0; 10; 0; 30; 100]; [10; 0; 50; 0; 0]; [0; 50; 0; 20; 10];
    [30; 0; 20; 0; 60]; [100; 0; 10; 60; 0] ].

Definition main : M (list Z) := dijkstra main_graph 0.

End WithJunk.

(** The number of vertices marked as processed. *)
Definition processed (sptSet : list Z) : nat :=
  length (filter (fun x => x <> 0) sptSet).

End DijkstraSafe.

(** ** samples/optimize-code/str_copy.c

    [dst] and [src] point into two distinct arrays of characters; a pointer
    is an offset into its array, and an access outside the array has no
    result.  [n], a [size_t], is a natural number: the function only ever
    decrements it, and only when it is not zero. *)

Module StrCopy.

Definition NUL : byte := x00.

(** [*p = c]. *)
Definition write (mem : list byte) (p : nat) (c : byte) : option (list byte) :=
  if decide (p < length mem)%nat then Some (<[p := c]> mem) else None.

(** The state of [strncpy]: the array [dst] points into, and the current
    values of [dst], [src] and [n]. *)
Record state : Type := State {
  dmem : list byte;
  dst : nat;
  src : nat;
  n : nat
}.

(** [while (n && ( *dst++ = *src++ )) n--;]: the test copies a character and
    advances both pointers before it looks at the character; [n] is
    decremented in the body, only after a character other than NUL. *)
Fixpoint copy_loop (smem : list byte) (n : nat) (dmem : list byte) (dst src : nat)
    : option state :=
  match n with
  | O => Some (State dmem dst src 0)
  | S n' =>
      c ← smem !! src;
      dmem' ← write dmem dst c;
      if Byte.eqb c NUL then Some (State dmem' (dst + 1) (src + 1) (S n'))
      else copy_loop smem n' dmem' (dst + 1) (src + 1)
  end.

(** [while (--n) *dst++ = '\0';], entered with [n] at least 1; [m] is the
    value of [n] after the decrement in the test. *)
Fixpoint pad_loop (m : nat) (dmem : list byte) (dst : nat) : option (list byte * nat) :=
  match m with
  | O => Some (dmem, dst)
  | S m' =>
      dmem' ← write dmem dst NUL;
      pad_loop m' dmem' (dst + 1)
  end.

(** [strncpy] returns [start], the value [dst] had on entry; the result
    here also carries the final contents of the array. *)
Definition strncpy (dmem : list byte) (smem : list byte) (dst src : nat) (n : nat)
    : option (nat * list byte) :=
  let start := dst in
  st ← copy_loop smem n dmem dst src;
  match StrCopy.n st with
  | O => Some (start, StrCopy.dmem st)
  | S m =>
      r ← pad_loop m (StrCopy.dmem st) (StrCopy.dst st);
      Some (start, r.1)
  end.

(** The reference behaviour of the C standard: the [n] characters written
    are the first [n] of the string followed by NULs. *)
Definition reference (s : list byte) (n : nat) : list byte :=
  take n (s ++ replicate (n - length s) NUL).

End StrCopy.

(** ** The abstract state tracker of the specification

    The repository holds the samples only; the checker the specification
    describes has no source here.  Its data model (section 3) and the
    worklist iteration of the Abstract State Tracker (section 4.3) are
    modelled from the text of the specification. *)

Module Checker.

(** Modelled from the spec: [PointerStatus], "{Live(size), Freed, Unknown,
    Null}" of section 3; the checker has no source in the repository. *)
Inductive PointerStatus : Type :=
| Live (size : Z)
| Freed
| Unknown
| Null.

(** Modelled from the spec: [BoundsFact], "{InBounds, MaybeOOB, Unknown}" of
    section 3; its [Unknown] is named [UnknownBounds] here. *)
Inductive BoundsFact : Type :=
| InBounds
| MaybeOOB
| UnknownBounds.

#[global] Instance PointerStatus_eq_dec : EqDecision PointerStatus.
Proof. solve_decision. Defined.

#[global] Instance BoundsFact_eq_dec : EqDecision BoundsFact.
Proof. solve_decision. Defined.

(** Modelled from the spec: the join of two facts about one variable, "a
    lattice join (Unknown is top)": equal facts join to themselves, any two
    different facts to the top. *)
Definition flat_join {A} `{EqDecision A} (top : A) (a b : A) : A :=
  if decide (a = b) then a else top.

(** Modelled from the spec: an "empty" state is one with "all variables
    Unknown" (section 4.3), so a variable without an entry stands at the
    top; the join of two mappings keeps the variables both know about and
    joins their facts. *)
Definition map_join {A} `{EqDecision A} (top : A) (m1 m2 : gmap string A) : gmap string A :=
  intersection_with (fun a b => Some (flat_join top a b)) m1 m2.

(** Modelled from the spec: [AbstractState], the "mapping from Variable to a
    PointerStatus ... and from array-index expressions to a BoundsFact" of
    section 3; variables and index expressions are named by strings.  The
    two sets carry the flag of "Freed∧Live = ... conflict, marked
    Unknown-but-flagged": the variables of which a [Freed] status,
    respectively a [Live] status, has been merged with a different status
    at some join.  A variable in both sets is flagged as a conflict. *)
Record AbstractState : Type := {
  pointers : gmap string PointerStatus;
  bounds : gmap string BoundsFact;
  freed_merged : gset string;
  live_merged : gset string
}.

#[global] Instance AbstractState_eq_dec : EqDecision AbstractState.
Proof. solve_decision. Defined.

Definition empty_state : AbstractState :=
  {| pointers := ∅; bounds := ∅; freed_merged := ∅; live_merged := ∅ |}.

(** The status of a variable: [Unknown] when the state has no entry. *)
Definition status_of (St : AbstractState) (v : string) : PointerStatus :=
  default Unknown (pointers St !! v).

Definition is_freed (a : PointerStatus) : bool :=
  match a with Freed => true | _ => false end.

Definition is_live (a : PointerStatus) : bool :=
  match a with Live _ => true | _ => false end.

(** The variables of which a status of the given kind is merged with a
    different status when [S1] and [S2] are joined. *)
Definition merged (kind : PointerStatus -> bool) (S1 S2 : AbstractState) : gset string :=
  filter (fun v => status_of S1 v <> status_of S2 v /\
                   (kind (status_of S1 v) = true \/ kind (status_of S2 v) = true))
         (dom (pointers S1) ∪ dom (pointers S2)).

(** Modelled from the spec: the join of two states at a control-flow merge
    point.  The flags of both states are kept, and the statuses merged at
    this join are added to them. *)
Definition join (S1 S2 : AbstractState) : AbstractState :=
  {| pointers := map_join Unknown (pointers S1) (pointers S2);
     bounds := map_join UnknownBounds (bounds S1) (bounds S2);
     freed_merged := freed_merged S1 ∪ freed_merged S2 ∪ merged is_freed S1 S2;
     live_merged := live_merged S1 ∪ live_merged S2 ∪ merged is_live S1 S2 |}.

(** Modelled from the spec: "Freed∧Live = ... conflict, marked
    Unknown-but-flagged".  The variables flagged in a state are those of
    which both a [Freed] and a [Live] status have been merged. *)
Definition flagged (St : AbstractState) : gset string :=
  freed_merged St ∩ live_merged St.

(** A conflict between two statuses, and the variables that are [Freed] in
    one state and [Live] in the other. *)
Definition is_conflict (a b : PointerStatus) : bool :=
  match a, b with
  | Freed, Live _ | Live _, Freed => true
  | _, _ => false
  end.

Definition conflicts (S1 S2 : AbstractState) : gset string :=
  dom (intersection_with (fun a b => if is_conflict a b then Some Unknown else None)
         (pointers S1) (pointers S2)).

(** The order of the lattice: [S2] is above [S1]. *)
Definition le (S1 S2 : AbstractState) : Prop := join S1 S2 = S2.

(** Modelled from the spec: the statements the transfer functions of
    section 4.3 and the design notes of section 9 distinguish. *)
Inductive Stmt : Type :=
| Alloc (v : string) (size : Z)
| Free (v : string)
| Deref (v : string)
| Index (e : string) (arr : string) (idx : option Z)
| Copy (q p : string)
| Unsupported (touched : list string).

Inductive Candidate : Type :=
| DoubleFreeCandidate (v : string)
| UseAfterFreeCandidate (v : string)
| MaybeOOBCandidate (e : string).

Definition set_status (v : string) (st : PointerStatus) (St : AbstractState) : AbstractState :=
  {| pointers := <[v := st]> (pointers St); bounds := bounds St;
     freed_merged := freed_merged St; live_merged := live_merged St |}.

Definition forget (v : string) (St : AbstractState) : AbstractState :=
  {| pointers := delete v (pointers St); bounds := bounds St;
     freed_merged := freed_merged St; live_merged := live_merged St |}.

(** Modelled from the spec: the bounds fact of an index expression, given
    the index and the declared size when they are statically known. *)
Definition bounds_fact (idx size : option Z) : BoundsFact :=
  match idx, size with
  | Some i, Some n => if (i <? 0) || (n <=? i) then MaybeOOB else InBounds
  | _, _ => UnknownBounds
  end.

(** Modelled from the spec: the transfer functions of section 4.3.
    [sizes] gives the static size of the arrays of the symbol table.  Where
    the specification names no rule (a free of a pointer that is neither
    [Live] nor [Freed]) the state is left as it is. *)
Definition transfer (sizes : gmap string Z) (s : Stmt) (St : AbstractState)
    : AbstractState * list Candidate :=
  match s with
  | Alloc v size => (set_status v (Live size) St, [])
  | Free v =>
      match status_of St v with
      | Live _ => (set_status v Freed St, [])
      | Freed => (St, [DoubleFreeCandidate v])
      | _ => (St, [])
      end
  | Deref v =>
      match status_of St v with
      | Freed => (St, [UseAfterFreeCandidate v])
      | _ => (St, [])
      end
  | Index e arr idx =>
      let fact := bounds_fact idx (sizes !! arr) in
      ({| pointers := pointers St; bounds := <[e := fact]> (bounds St);
          freed_merged := freed_merged St; live_merged := live_merged St |},
       match fact with MaybeOOB => [MaybeOOBCandidate e] | _ => [] end)
  | Copy q p =>
      match pointers St !! p with
      | Some st => (set_status q st St, [])
      | None => (forget q St, [])
      end
  | Unsupported touched => (foldr forget St touched, [])
  end.

(** Modelled from the spec: [BasicBlock] of section 3, "ordered sequence of
    statements ...; successor edges"; a block is identified by its position
    in the flow graph. *)
Record BasicBlock : Type := {
  stmts : list Stmt;
  succs : list nat
}.

Record FlowGraph : Type := {
  blocks : list BasicBlock;
  entry : nat
}.

(** The exit state of a block: "applying each statement's transfer function
    to the entry state in order". *)
Definition exit_state (sizes : gmap string Z) (b : BasicBlock) (St : AbstractState)
    : AbstractState :=
  foldl (fun St s => (transfer sizes s St).1) St (stmts b).

(** The state of the iteration: the entry state of every block reached so
    far, and the worklist. *)
Record tracker : Type := {
  entries : gmap nat AbstractState;
  worklist : list nat
}.

(** Modelled from the spec: "for each successor compute the join of the
    successor's current entry state with this exit state; if the join changes
    the successor's entry state, re-push the successor".  A successor that
    was not reached before has no entry state yet and takes the exit state. *)
Definition propagate (exit : AbstractState) (t : tracker) (s : nat) : tracker :=
  let new := match entries t !! s with
             | Some old => join old exit
             | None => exit
             end in
  if decide (entries t !! s = Some new) then t
  else {| entries := <[s := new]> (entries t); worklist := s :: worklist t |}.

(** Modelled from the spec: one round of the worklist iteration, "pop a
    block, compute exit state ..., then for each successor ...".  [None] when
    the worklist is empty. *)
Definition step (sizes : gmap string Z) (g : FlowGraph) (t : tracker) : option tracker :=
  match worklist t with
  | [] => None
  | b :: rest =>
      let t' := {| entries := entries t; worklist := rest |} in
      match blocks g !! b, entries t !! b with
      | Some blk, Some St => Some (foldl (propagate (exit_state sizes blk St)) t' (succs blk))
      | _, _ => Some t'
      end
  end.

(** Modelled from the spec: "seed entry block state as empty (all variables
    Unknown), push entry to worklist". *)
Definition initial (g : FlowGraph) : tracker :=
  {| entries := {[ entry g := empty_state ]}; worklist := [entry g] |}.

(** The iteration, with a bound on the number of rounds: [None] when the
    bound is reached before the worklist is empty. *)
Fixpoint iterate (fuel : nat) (sizes : gmap string Z) (g : FlowGraph) (t : tracker)
    : option (gmap nat AbstractState) :=
  match step sizes g t with
  | None => Some (entries t)
  | Some t' =>
      match fuel with
      | O => None
      | S fuel' => iterate fuel' sizes g t'
      end
  end.

Definition analyse (fuel : nat) (sizes : gmap string Z) (g : FlowGraph)
    : option (gmap nat AbstractState) :=
  iterate fuel sizes g (initial g).

(** The blocks that can ever be given an entry state. *)
Definition reachable_ids (g : FlowGraph) : gset nat :=
  {[ entry g ]} ∪ list_to_set (concat (succs <$> blocks g)).

(** The variable a statement gives a status to. *)
Definition stmt_assigns (s : Stmt) : gset string :=
  match s with
  | Alloc v _ | Free v => {[ v ]}
  | Copy q _ => {[ q ]}
  | Deref _ | Index _ _ _ | Unsupported _ => ∅
  end.

(** The variables that can ever have a status in a state of the
    iteration. *)
Definition variables (g : FlowGraph) : gset string :=
  ⋃ (stmt_assigns <$> concat (stmts <$> blocks g)).

(** A state that speaks of the variables of [K] only. *)
Definition within (K : gset string) (St : AbstractState) : Prop :=
  dom (pointers St) ⊆ K /\ freed_merged St ⊆ K /\ live_merged St ⊆ K.

(** How far a mapping is from the top: two for a fact below the top, one
    for an entry at the top. *)
Definition map_rank {A} `{EqDecision A} (top : A) (m : gmap string A) : nat :=
  size m + size (filter (fun kv => kv.2 <> top) m).

(** How far a state is from the top: the ranks of its two mappings, and
    the variables of [K] that each of the two sets of merged statuses can
    still take. *)
Definition rank (K : gset string) (St : AbstractState) : nat :=
  map_rank Unknown (pointers St) + map_rank UnknownBounds (bounds St) +
  size (K ∖ freed_merged St) + size (K ∖ live_merged St).

(** The measure of the iteration: the number of blocks not reached yet,
    and then the ranks of the entry states together with the length of the
    worklist. *)
Definition total_rank (K : gset string) (m : gmap nat AbstractState) : nat :=
  map_fold (fun _ St acc => (rank K St + acc)%nat) 0%nat m.

Definition unreached (g : FlowGraph) (t : tracker) : nat :=
  size (reachable_ids g ∖ dom (entries t)).

Definition weight (g : FlowGraph) (t : tracker) : nat :=
  (total_rank (variables g) (entries t) + length (worklist t))%nat.

Definition smaller (g : FlowGraph) (t' t : tracker) : Prop :=
  (unreached g t' < unreached g t \/
   (unreached g t' = unreached g t /\ weight g t' < weight g t))%nat.

Definition not_larger (g : FlowGraph) (t' t : tracker) : Prop :=
  (unreached g t' < unreached g t \/
   (unreached g t' = unreached g t /\ weight g t' <= weight g t))%nat.

(** Only blocks of [reachable_ids] have an entry state, and the entry
    states speak of the variables of the graph only. *)
Definition well_formed (g : FlowGraph) (t : tracker) : Prop :=
  dom (entries t) ⊆ reachable_ids g /\
  forall b St, entries t !! b = Some St -> within (variables g) St.

End Checker.

(** ** samples/timer/src/main.c *)

Module TimerMain.
Import Timer.

(** [sizeof(Clock)]: the one field, a [time_t], on the 64-bit target. *)
Definition sizeof_Clock : Z := 8.

Section WithWallClock.

Variable wall : nat -> Z.

(** [seconds] and [tick_rate] are what [atoi] returns for [argv[1]] and
    [argv[2]].  [main] returns its exit status and the final state. *)
Definition main (argc seconds tick_rate : Z) (w : world) : Z * world :=
  if negb (argc =? 3) then (1, w)
  else
    let '(clock, w) := malloc sizeof_Clock w in
    let w := clock_init wall clock w in
    let w := timer_tick wall clock seconds tick_rate w in
    (0, w).

End WithWallClock.

End TimerMain.

(** ** Order of an array, for the passes of samples/bubble_sort.c *)

Module Ordered.

(** From position [k] on, every element is at least every element before
    it: the part from [k] on is sorted and above the rest. *)
Definition sorted_from (k : nat) (l : list Z) : Prop :=
  forall p q x y, (p < q)%nat -> (k <= q)%nat ->
    l !! p = Some x -> l !! q = Some y -> x <= y.

(** The element at position [m] is at least every element before it. *)
Definition top_at (m : nat) (l : list Z) : Prop :=
  forall p x y, (p < m)%nat -> l !! p = Some x -> l !! m = Some y -> x <= y.

Definition sorted (l : list Z) : Prop := sorted_from 0 l.

End Ordered.

(** ** The outer loop of samples/dijkstra_safe.c and the source *)

Module DijkstraSafeSource.
Import Mem DijkstraSafe.

(** The state of the outer loop before iteration [count]: the source has
    distance 0; it is the only vertex with a distance below [INT_MAX] while
    nothing is processed, and it is processed from the first iteration on. *)
Definition source_settled (src count : Z) (st : list Z * list Z) : Prop :=
  Z.of_nat (length st.1) = V /\ Z.of_nat (length st.2) = V /\
  Forall (fun d => d <= CInt.INT_MAX) st.1 /\
  (processed st.2 <= Z.to_nat count)%nat /\
  index st.1 src = Some 0 /\
  (count = 0 ->
   st.1 = <[Z.to_nat src := 0]> (replicate (Z.to_nat V) CInt.INT_MAX) /\
   st.2 = replicate (Z.to_nat V) 0) /\
  (1 <= count -> index st.2 src <> Some 0).

End DijkstraSafeSource.

(** ** notebooks/samples/typedefs.c

    [main] tests the result of [malloc], so here the allocation may fail:
    [fails] says whether it does.  A pointer is [None] when it is null,
    and [free] of the null pointer does nothing. *)

Module Typedefs.
Import Timer.

Definition sizeof_Point : Z := 8.

Definition malloc_or_null (fails : bool) (size : Z) (w : world) : option ptr * world :=
  if fails then (None, w)
  else let '(p, w) := malloc size w in (Some p, w).

Definition free_or_null (l : loc) (p : option ptr) (w : world) : world :=
  match p with
  | None => w
  | Some p => free l p w
  end.

Definition main (fails : bool) (w : world) : Z * world :=
  let '(a, w) := malloc_or_null fails sizeof_Point w in
  if bool_decide (a <> None) then (-1, w)
  else
    let w := free_or_null ("typedefs.c", 52%nat) a w in
    (0, w).

End Typedefs.

(** ** Walks in the graph of samples/dijkstra_safe.c *)

Module DijkstraSafeWalks.
Import Mem.

(** [graph[u][v]] *)
Definition weight (graph : list (list Z)) (u v : Z) : option Z :=
  row ← index graph u; index row v.

(** [walk graph src v d]: a walk from [src] to [v] along edges of weight
    other than 0, on which the weights add up to [d] as [int]s. *)
Inductive walk (graph : list (list Z)) (src : Z) : Z -> Z -> Prop :=
| walk_here : walk graph src src 0
| walk_edge (u v d g : Z) :
    walk graph src u d -> weight graph u v = Some g -> g <> 0 ->
    walk graph src v (CInt.add d g).

(** Every distance is [INT_MAX] or the weight of a walk from [src]. *)
Definition distances_are_walks (graph : list (list Z)) (src : Z)
    (dist : list Z) : Prop :=
  forall v d, index dist v = Some d ->
    d = CInt.INT_MAX \/ walk graph src v d.

End DijkstraSafeWalks.

(** ** Shortest distances in the graph of samples/dijkstra_safe.c *)

Module DijkstraSafeShortest.
Import Mem DijkstraSafe DijkstraSafeWalks.

(** [path graph src v d]: a walk from [src] to [v] along edges of weight
    other than 0, on which the weights add up to [d]. *)
Inductive path (graph : list (list Z)) (src : Z) : Z -> Z -> Prop :=
| path_here : path graph src src 0
| path_edge (u v d g : Z) :
    path graph src u d -> weight graph u v = Some g -> g <> 0 ->
    path graph src v (d + g).

(** No weight is negative or larger than [W]. *)
Definition weights_within (W : Z) (graph : list (list Z)) : Prop :=
  Forall (Forall (fun g => 0 <= g <= W)) graph.

(** [d] is the distance of [v] from [src]: [INT_MAX] when no walk leads
    to [v], and the least weight of such a walk otherwise. *)
Definition shortest (graph : list (list Z)) (src v d : Z) : Prop :=
  (d = CInt.INT_MAX /\ forall w, ~ path graph src v w) \/
  (d <> CInt.INT_MAX /\ path graph src v d /\
   forall w, path graph src v w -> d <= w).

(** The state of the outer loop before iteration [count]: [count] vertices
    are processed; every distance below [INT_MAX] is the weight of a walk;
    the distance of a processed vertex is the least one; and every edge
    from a processed vertex to an unprocessed one is relaxed. *)
Definition shortest_so_far (W : Z) (graph : list (list Z)) (src count : Z)
    (st : list Z * list Z) : Prop :=
  Z.of_nat (length st.1) = V /\ Z.of_nat (length st.2) = V /\
  processed st.2 = Z.to_nat count /\
  index st.1 src = Some 0 /\
  (forall v d, index st.1 v = Some d ->
     d = CInt.INT_MAX \/ (0 <= d <= count * W /\ path graph src v d)) /\
  (forall u s w, index st.2 u = Some s -> s <> 0 -> path graph src u w ->
     exists d, index st.1 u = Some d /\ d <> CInt.INT_MAX /\ d <= w) /\
  (forall u v s du dv g,
     index st.2 u = Some s -> s <> 0 -> index st.2 v = Some 0 ->
     index st.1 u = Some du -> du <> CInt.INT_MAX ->
     weight graph u v = Some g -> g <> 0 ->
     index st.1 v = Some dv -> dv <= du + g).

End DijkstraSafeShortest.

(** ** When [strncpy] of samples/optimize-code/str_copy.c has no result *)

Module StrCopyFaults.
Import StrCopy.

(** [strncpy] has no result exactly when one of its loops has none. *)
Definition overruns (smem : list byte) (k : nat) (mem : list byte) (p sp : nat) : Prop :=
  match copy_loop smem k mem p sp with
  | None => True
  | Some st =>
      match StrCopy.n st with
      | O => False
      | S m => pad_loop m (StrCopy.dmem st) (StrCopy.dst st) = None
      end
  end.

End StrCopyFaults.

(** ** samples/optimize-code/fact_01.c *)

Module Factorial.

(** [result *= n] on [int]s; an overflowing product wraps around. *)
Definition mul (x y : Z) : Z := CInt.wrap (x * y).

(** The loop of lines 12 to 16; the state is [(n, result)], and [fuel]
    bounds the number of iterations. *)
Fixpoint factorial_loop (fuel : nat) (n result : Z) : Z :=
  match fuel with
  | O => result
  | S fuel' =>
      if n >? 0 then factorial_loop fuel' (n - 1) (mul result n)
      else result
  end.

(** [n] goes down from its initial value to 0, so [Z.to_nat n] iterations
    are all the loop can make. *)
Definition factorial (n : Z) : Z :=
  if n <=? 0 then 1
  else
    let result := 1 in
    factorial_loop (Z.to_nat n) n result.

End Factorial.

(** ** samples/optimize-code/ll.c

    A pointer is the address of a node, a natural number, with [NULL] at 0;
    the heap maps the addresses of the nodes to their contents, and reading
    through an address the heap does not hold has no result. *)

Module LinkedListSample.

Definition NULL : nat := 0.

Record LinkedList : Type := {
  value : Z;
  next : nat
}.

(** The loop of lines 17 to 26; [fuel] bounds the number of iterations. *)
Fixpoint walk (fuel : nat) (h : gmap nat LinkedList) (ptr : nat) (index : Z)
    : option nat :=
  match fuel with
  | O => Some ptr
  | S fuel' =>
      if index >? 0 then
        node ← h !! ptr;
        if decide (next node = NULL) then Some NULL
        else walk fuel' h (next node) (index - 1)
      else Some ptr
  end.

(** [index] goes down to 0, so [Z.to_nat index] iterations are all the
    loop can make. *)
Definition get_from_index (h : gmap nat LinkedList) (root : nat) (index : Z)
    : option nat :=
  if (index <? 0) || bool_decide (root = NULL) then Some NULL
  else
    let ptr := root in
    walk (Z.to_nat index) h ptr index.

(** [nodes] are the addresses of a NULL-terminated list that starts at [p]. *)
Fixpoint chain (h : gmap nat LinkedList) (p : nat) (nodes : list nat) : Prop :=
  match nodes with
  | [] => p = NULL
  | q :: rest =>
      p = q /\ q <> NULL /\ exists node, h !! q = Some node /\ chain h (next node) rest
  end.

(** Every pointer stored in the heap is [NULL] or the address of a node. *)
Definition closed (h : gmap nat LinkedList) : Prop :=
  forall p node, h !! p = Some node -> next node = NULL \/ is_Some (h !! next node).

End LinkedListSample.

(** ** samples/huffman.c

    A value of [MinHeapNode] is a pointer to a node: [Node d f l r] points
    to a node with these fields, and [NULL] points to no node (it also
    stands for the indeterminate content of a fresh array); reading a field
    through [NULL] has no result.  Nodes are not changed once they are
    linked into a tree.  [malloc] succeeds.  An array access outside the
    array has no result either, and so has a loop that runs out of
    [fuel]. *)

Module Huffman.
Import Mem.

Definition MAX_TREE_HT : Z := 100.

(** Arithmetic on [unsigned] is modulo 2^32. *)
Definition uint (z : Z) : Z := z mod 4294967296.

Inductive MinHeapNode : Type :=
| NULL
| Node (data : Z) (freq : Z) (left right : MinHeapNode).

Definition is_null (p : MinHeapNode) : bool :=
  match p with NULL => true | Node _ _ _ _ => false end.

(** [p->data], [p->freq], [p->left] and [p->right] *)
Definition data (p : MinHeapNode) : option Z :=
  match p with NULL => None | Node d _ _ _ => Some d end.
Definition freq (p : MinHeapNode) : option Z :=
  match p with NULL => None | Node _ f _ _ => Some f end.
Definition left (p : MinHeapNode) : option MinHeapNode :=
  match p with NULL => None | Node _ _ l _ => Some l end.
Definition right (p : MinHeapNode) : option MinHeapNode :=
  match p with NULL => None | Node _ _ _ r => Some r end.

Record MinHeap : Type := {
  size : Z;
  capacity : Z;
  array : list MinHeapNode
}.

Definition set_array (minHeap : MinHeap) (a : list MinHeapNode) : MinHeap :=
  {| size := size minHeap; capacity := capacity minHeap; array := a |}.

Definition set_size (minHeap : MinHeap) (s : Z) : MinHeap :=
  {| size := s; capacity := capacity minHeap; array := array minHeap |}.

Definition newNode (data freq : Z) : MinHeapNode := Node data freq NULL NULL.

Definition createMinHeap (capacity : Z) : MinHeap :=
  {| size := 0; capacity := capacity; array := replicate (Z.to_nat capacity) NULL |}.

(** [array[i]->freq] *)
Definition freq_at (a : list MinHeapNode) (i : Z) : option Z :=
  p ← index a i; freq p.

(** [swapMinHeapNode(&array[a], &array[b])] *)
Definition swapMinHeapNode (arr : list MinHeapNode) (a b : Z)
    : option (list MinHeapNode) :=
  t ← index arr a;
  y ← index arr b;
  arr ← update arr a y;
  update arr b t.

(** [left < minHeap->size] compares an [int] with an [unsigned], so the
    [int] is converted to [unsigned]; [&&] reads the array only when the
    comparison holds. *)
Fixpoint minHeapify (fuel : nat) (minHeap : MinHeap) (idx : Z) : option MinHeap :=
  match fuel with
  | O => None
  | S fuel' =>
      let smallest := idx in
      let left := CInt.wrap (2 * idx + 1) in
      let right := CInt.wrap (2 * idx + 2) in
      smallest ←
        (if uint left <? size minHeap then
           l ← freq_at (array minHeap) left;
           s ← freq_at (array minHeap) smallest;
           Some (if l <? s then left else smallest)
         else Some smallest);
      smallest ←
        (if uint right <? size minHeap then
           r ← freq_at (array minHeap) right;
           s ← freq_at (array minHeap) smallest;
           Some (if r <? s then right else smallest)
         else Some smallest);
      if negb (smallest =? idx) then
        arr ← swapMinHeapNode (array minHeap) smallest idx;
        minHeapify fuel' (set_array minHeap arr) smallest
      else Some minHeap
  end.

Definition isSizeOne (minHeap : MinHeap) : bool := size minHeap =? 1.

(** Every call of [minHeapify] goes to a child of the index of the one
    before, so there are at most [size] of them. *)
Definition extractMin (minHeap : MinHeap) : option (MinHeapNode * MinHeap) :=
  temp ← index (array minHeap) 0;
  last ← index (array minHeap) (uint (size minHeap - 1));
  arr ← update (array minHeap) 0 last;
  let minHeap := set_size (set_array minHeap arr) (uint (size minHeap - 1)) in
  minHeap ← minHeapify (S (Z.to_nat (size minHeap))) minHeap 0;
  Some (temp, minHeap).

(** [(i - 1) / 2] on [int]s; the division of C truncates. *)
Definition parent (i : Z) : Z := Z.quot (CInt.wrap (i - 1)) 2.

(** The loop of lines 81 to 84; it returns the array and [i]. *)
Fixpoint insert_loop (fuel : nat) (arr : list MinHeapNode) (i : Z)
    (minHeapNode : MinHeapNode) : option (list MinHeapNode * Z) :=
  match fuel with
  | O => None
  | S fuel' =>
      if i =? 0 then Some (arr, i)
      else
        f ← freq minHeapNode;
        pf ← freq_at arr (parent i);
        if f <? pf then
          p ← index arr (parent i);
          arr ← update arr i p;
          insert_loop fuel' arr (parent i) minHeapNode
        else Some (arr, i)
  end.

(** [i] is at least halved by every iteration. *)
Definition insertMinHeap (minHeap : MinHeap) (minHeapNode : MinHeapNode)
    : option MinHeap :=
  let minHeap := set_size minHeap (uint (size minHeap + 1)) in
  let i := CInt.wrap (uint (size minHeap - 1)) in
  '(arr, i) ← insert_loop (S (Z.to_nat i)) (array minHeap) i minHeapNode;
  arr ← update arr i minHeapNode;
  Some (set_array minHeap arr).

(** The loop of lines 91 and 92. *)
Fixpoint build_loop (fuel : nat) (minHeap : MinHeap) (i : Z) : option MinHeap :=
  match fuel with
  | O => None
  | S fuel' =>
      if i >=? 0 then
        minHeap ← minHeapify (S (Z.to_nat (size minHeap))) minHeap i;
        build_loop fuel' minHeap (i - 1)
      else Some minHeap
  end.

Definition buildMinHeap (minHeap : MinHeap) : option MinHeap :=
  let n := CInt.wrap (uint (size minHeap - 1)) in
  let i := parent n in
  build_loop (S (Z.to_nat (i + 1))) minHeap i.

Definition isLeaf (root : MinHeapNode) : option bool :=
  l ← left root;
  r ← right root;
  Some (is_null l && is_null r).

(** The loop of lines 101 and 102. *)
Fixpoint fill_loop (fuel : nat) (data freq : list Z) (size : Z)
    (arr : list MinHeapNode) (i : Z) : option (list MinHeapNode) :=
  match fuel with
  | O => None
  | S fuel' =>
      if i <? size then
        d ← index data i;
        f ← index freq i;
        arr ← update arr i (newNode d (uint f));
        fill_loop fuel' data freq size arr (i + 1)
      else Some arr
  end.

Definition createAndBuildMinHeap (data freq : list Z) (size : Z) : option MinHeap :=
  let minHeap := createMinHeap (uint size) in
  arr ← fill_loop (S (Z.to_nat size)) data freq size (array minHeap) 0;
  let minHeap := set_size (set_array minHeap arr) (uint size) in
  buildMinHeap minHeap.

(** The loop of lines 112 to 119; [36] is ['$']. *)
Fixpoint merge_loop (fuel : nat) (minHeap : MinHeap) : option MinHeap :=
  match fuel with
  | O => None
  | S fuel' =>
      if negb (isSizeOne minHeap) then
        '(left, minHeap) ← extractMin minHeap;
        '(right, minHeap) ← extractMin minHeap;
        lf ← freq left;
        rf ← freq right;
        let top := Node 36 (uint (lf + rf)) left right in
        minHeap ← insertMinHeap minHeap top;
        merge_loop fuel' minHeap
      else Some minHeap
  end.

(** Every iteration takes one node off the heap. *)
Definition buildHuffmanTree (data freq : list Z) (size : Z) : option MinHeapNode :=
  minHeap ← createAndBuildMinHeap data freq size;
  minHeap ← merge_loop (S (Z.to_nat (Huffman.size minHeap))) minHeap;
  fst <$> extractMin minHeap.

(** [printCodes] returns the lines it prints, each one a character with
    its code, together with the array it leaves. *)
Fixpoint printCodes (root : MinHeapNode) (arr : list Z) (top : Z)
    : option (list (Z * list Z) * list Z) :=
  match root with
  | NULL => None
  | Node d _ l r =>
      '(out_l, arr) ←
        match l with
        | NULL => Some ([], arr)
        | Node _ _ _ _ => arr ← update arr top 0; printCodes l arr (top + 1)
        end;
      '(out_r, arr) ←
        match r with
        | NULL => Some ([], arr)
        | Node _ _ _ _ => arr ← update arr top 1; printCodes r arr (top + 1)
        end;
      leaf ← isLeaf root;
      if (leaf : bool) then
        code ← mapM (index arr) (seqZ 0 top);
        Some (out_l ++ out_r ++ [(d, code)], arr)
      else Some (out_l ++ out_r, arr)
  end.

(** The local [arr] of [MAX_TREE_HT] entries starts with indeterminate
    content [arr0]. *)
Definition HuffmanCodes (arr0 : list Z) (data freq : list Z) (size : Z)
    : option (list (Z * list Z)) :=
  root ← buildHuffmanTree data freq size;
  fst <$> printCodes root arr0 0.

End Huffman.

(** ** What the heap of samples/huffman.c holds *)

Module HuffmanHeap.
Import Huffman.

(** The frequency of the node [p] points to (0 stands in for [NULL]). *)
Definition key (p : MinHeapNode) : Z := default 0 (freq p).

(** Index [c] is a child of index [p] in the array. *)
Definition child (c p : nat) : Prop := (c = 2 * p + 1 \/ c = 2 * p + 2)%nat.

(** From index [lo] on, no node has a larger frequency than its children. *)
Definition heap_from (lo : nat) (l : list MinHeapNode) : Prop :=
  forall p c x y, (lo <= p)%nat -> child c p ->
    l !! p = Some x -> l !! c = Some y -> key x <= key y.

Definition min_heap (l : list MinHeapNode) : Prop := heap_from 0 l.

(** The heap holds the nodes [l]: they are the first [size] entries of the
    array, and none of them is [NULL]. *)
Definition holds (minHeap : MinHeap) (l : list MinHeapNode) : Prop :=
  size minHeap = Z.of_nat (length l) /\
  Forall (fun p => p <> NULL) l /\
  exists rest, array minHeap = l ++ rest.

(** The order holds from [lo] on except below index [k]: the node at [k]
    may be larger than its children, which are not smaller than the
    parent of [k]. *)
Definition heap_except (lo k : nat) (l : list MinHeapNode) : Prop :=
  (forall p c x y, (lo <= p)%nat -> p <> k -> child c p ->
     l !! p = Some x -> l !! c = Some y -> key x <= key y) /\
  (forall q c x y, (lo <= q)%nat -> child k q -> child c k ->
     l !! q = Some x -> l !! c = Some y -> key x <= key y).

End HuffmanHeap.

(** ** The trees of samples/huffman.c *)

Module HuffmanTree.
Import Huffman HuffmanHeap.

(** The characters at the leaves, from left to right, with their
    frequencies. *)
Fixpoint leaves (p : MinHeapNode) : list (Z * Z) :=
  match p with
  | NULL => []
  | Node d f l r =>
      if is_null l && is_null r then [(d, f)] else leaves l ++ leaves r
  end.

(** A node is a leaf, or it has two subtrees and its frequency is the
    [unsigned] sum of theirs. *)
Fixpoint huffman_tree (p : MinHeapNode) : Prop :=
  match p with
  | NULL => False
  | Node _ f l r =>
      (l = NULL /\ r = NULL) \/
      (f = uint (key l + key r) /\ huffman_tree l /\ huffman_tree r)
  end.

(** The nodes [createAndBuildMinHeap] makes of the first [n] characters. *)
Definition input_nodes (data freq : list Z) (n : nat) : list MinHeapNode :=
  zip_with (fun d f => newNode d (uint f)) (take n data) (take n freq).

Definition input_leaves (data freq : list Z) (n : nat) : list (Z * Z) :=
  zip_with (fun d f => (d, uint f)) (take n data) (take n freq).

(** The codes of the leaves, from left to right: 0 for a left edge and 1
    for a right edge on the way from the root. *)
Fixpoint codes (p : MinHeapNode) : list (Z * list Z) :=
  match p with
  | NULL => []
  | Node d _ l r =>
      if is_null l && is_null r then [(d, [])]
      else (prod_map id (cons 0) <$> codes l) ++ (prod_map id (cons 1) <$> codes r)
  end.

(** The number of nodes on the longest way down from [p]. *)
Fixpoint height (p : MinHeapNode) : nat :=
  match p with
  | NULL => O
  | Node _ _ l r => S (Nat.max (height l) (height r))
  end.

(** No code of [out] is a prefix of the code of another line. *)
Definition prefix_free (out : list (Z * list Z)) : Prop :=
  forall i j x y, i <> j -> out !! i = Some x -> out !! j = Some y ->
    ~ x.2 `prefix_of` y.2.

End HuffmanTree.

(* ===================================================================== *)
(** * Part 2: properties                                                  *)
(* ===================================================================== *)

(** ** sign_check.c *)

(** C9. For every integer [a], [is_positive a] is true exactly when
    [0 < a] and [is_negative a] exactly when [a < 0], so exactly one of
    [is_negative a], [is_zero a], [is_positive a] holds; [is_positive 0] is
    false, and [main] fails the assertion of line 39 whatever
    [__VERIFIER_nondet_int] would return. *)
Theorem sign_check_classification :
  (forall a : Z,
      (SignCheck.is_positive a = true <-> 0 < a) /\
      (SignCheck.is_negative a = true <-> a < 0) /\
      ((SignCheck.is_negative a = true /\ SignCheck.is_zero a = false
        /\ SignCheck.is_positive a = false) \/
       (SignCheck.is_negative a = false /\ SignCheck.is_zero a = true
        /\ SignCheck.is_positive a = false) \/
       (SignCheck.is_negative a = false /\ SignCheck.is_zero a = false
        /\ SignCheck.is_positive a = true))) /\
  SignCheck.is_positive 0 = false /\
  (forall nondet : Z, SignCheck.main nondet = AssertionFailed 39).
Proof.
  split; [| split; [reflexivity | intros nondet; reflexivity]].
  intros a. unfold SignCheck.is_positive, SignCheck.is_negative, SignCheck.is_zero.
  destruct (Z.eqb_spec a 0) as [Hz | Hnz];
    destruct (Z.ltb_spec a 0) as [Hlt | Hnlt];
    destruct (Z.geb_spec a 0) as [Hge | Hnge]; cbn; lia.
Qed.

(** ** function_test.c *)

(** C10. In [main], [add 2 2] is 4 and [add 6 0] is 6, [add_point] on the
    point [{4, 6}] is 10, and the run ends in the failure of the assertion
    of line 30 with [a = 10] and [b = 6], from any initial globals. *)
Theorem function_test_main_fails :
  FunctionTest.add 2 2 = 4 /\
  FunctionTest.add 6 0 = 6 /\
  FunctionTest.add_point {| FunctionTest.x := 4; FunctionTest.y := 6 |} = 10 /\
  (forall g : FunctionTest.globals,
      FunctionTest.main g =
      (AssertionFailed 30, {| FunctionTest.a := 10; FunctionTest.b := 6 |})).
Proof.
  repeat split.
Qed.

(** ** timer.c *)

Section TimerProperties.
Import Timer.

Variable wall : nat -> Z.

(** The functional step and the step relation are the same steps. *)
Lemma heap_step_iff h a h' vs :
  step h a h' vs <-> heap_step h a = (h', vs).
Proof.
  split.
  - intros Hs. destruct Hs; cbn; try rewrite H; reflexivity.
  - destruct a as [size p | l p | l p]; cbn.
    + intros [= <- <-]. constructor.
    + destruct (h !! p) as [[size |] |] eqn:Hp; intros [= <- <-];
        econstructor; eassumption.
    + destruct (h !! p) as [[size |] |] eqn:Hp; intros [= <- <-];
        econstructor; eassumption.
Qed.

Lemma use_live l p size w :
  heap w !! p = Some (Live size) -> use l p w = w.
Proof.
  intros Hp. unfold use, perform. cbn. rewrite Hp.
  destruct w; cbn. by rewrite app_nil_r.
Qed.

Lemma use_freed l p w :
  heap w !! p = Some Freed ->
  use l p w = {| heap := heap w; unix_time := unix_time w;
                 time_calls := time_calls w;
                 violations := violations w ++ [UseAfterFree l p] |}.
Proof. intros Hp. unfold use, perform. cbn. by rewrite Hp. Qed.

(** [Z.to_nat seconds] is enough fuel for the loop: it stops at its test,
    and more fuel changes nothing. *)
Lemma countdown_fuel clock time_str tick_rate :
  forall fuel extra remaining w,
    fuel = Z.to_nat remaining ->
    countdown wall (fuel + extra) clock time_str remaining tick_rate w =
    countdown wall fuel clock time_str remaining tick_rate w.
Proof.
  induction fuel as [| fuel IH]; intros extra remaining w Hfuel.
  - destruct extra; cbn; [reflexivity |].
    destruct (Z.gtb_spec remaining 0); [lia | reflexivity].
  - cbn. destruct (remaining >? 0); [| reflexivity]. apply IH. lia.
Qed.

(** Every iteration of the loop reads the released block once, at line 16,
    and commits nothing else. *)
Lemma countdown_reads_freed clock time_str tick_rate size :
  forall fuel remaining w,
    heap w !! clock = Some (Live size) ->
    heap w !! time_str = Some Freed ->
    Z.to_nat remaining = fuel ->
    let w' := countdown wall fuel clock time_str remaining tick_rate w in
    heap w' = heap w /\
    violations w' =
      violations w ++ repeat (UseAfterFree ("timer.c", 16%nat) time_str) fuel.
Proof.
  induction fuel as [| fuel IH]; intros remaining w Hclock Hstr Hfuel; cbn.
  - by rewrite app_nil_r.
  - destruct (Z.gtb_spec remaining 0) as [Hpos | Hnpos]; [| lia].
    unfold set_unix_time, time. cbn.
    rewrite (use_live _ clock size) by exact Hclock. cbn.
    rewrite use_freed by exact Hstr. cbn.
    match goal with |- context [countdown _ _ _ _ _ _ ?w1] =>
      destruct (IH (remaining - 1) w1) as [Hh Hv]; cbn; try assumption; try lia
    end.
    cbn in Hh, Hv. rewrite Hh, Hv. split; [reflexivity |].
    by rewrite <- app_assoc.
Qed.

End TimerProperties.

(** C1. From any state in which [clock] points to a live block, a call of
    [timer_tick] releases [time_str] at line 11, releases it again at line 12
    (the one double free of the call), and then reads the released block at
    line 16 once per iteration of the loop, [Z.to_nat seconds] times in all:
    these are exactly the violations the call adds, in this order.  With
    [seconds >= 1] there is at least one such read. *)
Theorem timer_tick_violations (wall : nat -> Z) (clock : Timer.ptr)
    (seconds tick_rate size : Z) (w : Timer.world) :
  Timer.heap w !! clock = Some (Timer.Live size) ->
  let time_str := fresh (dom (Timer.heap w)) in
  let w' := Timer.timer_tick wall clock seconds tick_rate w in
  Timer.heap w' !! time_str = Some Timer.Freed /\
  Timer.violations w' =
    Timer.violations w
    ++ Timer.DoubleFree ("timer.c", 12%nat) time_str
    :: repeat (Timer.UseAfterFree ("timer.c", 16%nat) time_str) (Z.to_nat seconds) /\
  (1 <= seconds ->
   Timer.UseAfterFree ("timer.c", 16%nat) time_str ∈ Timer.violations w').
Proof.
  intros Hclock time_str w'.
  assert (Hfresh : Timer.heap w !! time_str = None).
  { apply not_elem_of_dom. apply is_fresh. }
  assert (Hne : time_str <> clock) by congruence.
  assert (Hmain :
    Timer.heap w' !! time_str = Some Timer.Freed /\
    Timer.violations w' =
      Timer.violations w
      ++ Timer.DoubleFree ("timer.c", 12%nat) time_str
      :: repeat (Timer.UseAfterFree ("timer.c", 16%nat) time_str) (Z.to_nat seconds)).
  { subst w'. unfold Timer.timer_tick, Timer.clock_get_formatted_time, Timer.malloc.
    fold time_str.
    set (w1 := Timer.perform (Timer.AMalloc (26 * 1) time_str) w).
    assert (H1c : Timer.heap w1 !! clock = Some (Timer.Live size)).
    { subst w1. cbn. by rewrite lookup_insert_ne. }
    assert (H1s : Timer.heap w1 !! time_str = Some (Timer.Live 26)).
    { subst w1. cbn. by rewrite lookup_insert_eq. }
    assert (H1v : Timer.violations w1 = Timer.violations w).
    { subst w1. cbn. by rewrite app_nil_r. }
    rewrite (use_live _ clock size) by exact H1c.
    rewrite (use_live _ time_str 26) by exact H1s.
    set (w2 := Timer.free ("timer.c", 11%nat) time_str w1).
    assert (H2 : Timer.heap w2 = <[time_str := Timer.Freed]> (Timer.heap w1)
                 /\ Timer.violations w2 = Timer.violations w).
    { subst w2. unfold Timer.free, Timer.perform. cbn [Timer.heap_step].
      rewrite H1s. cbn [Timer.heap Timer.violations].
      by rewrite app_nil_r, H1v. }
    destruct H2 as [H2h H2v].
    assert (H2s : Timer.heap w2 !! time_str = Some Timer.Freed).
    { rewrite H2h. by rewrite lookup_insert_eq. }
    assert (H2c : Timer.heap w2 !! clock = Some (Timer.Live size)).
    { rewrite H2h. by rewrite lookup_insert_ne. }
    set (w3 := Timer.free ("timer.c", 12%nat) time_str w2).
    assert (H3 : Timer.heap w3 = Timer.heap w2 /\
                 Timer.violations w3 =
                 Timer.violations w ++ [Timer.DoubleFree ("timer.c", 12%nat) time_str]).
    { subst w3. unfold Timer.free, Timer.perform. cbn [Timer.heap_step].
      rewrite H2s. cbn [Timer.heap Timer.violations]. by rewrite H2v. }
    destruct H3 as [H3h H3v].
    destruct (countdown_reads_freed wall clock time_str tick_rate size
                (Z.to_nat seconds) seconds w3) as [Hh Hv].
    - by rewrite H3h.
    - by rewrite H3h.
    - reflexivity.
    - cbn in Hh, Hv. rewrite Hh, Hv, H3h, H3v. split; [exact H2s |].
      by rewrite <- app_assoc. }
  destruct Hmain as [Hheap Hviol]. split; [exact Hheap | split; [exact Hviol |]].
  intros Hsec. rewrite Hviol.
  apply elem_of_app. right. apply elem_of_cons. right.
  destruct (Z.to_nat seconds) as [| k] eqn:Hk; [lia |].
  cbn. apply elem_of_cons. by left.
Qed.

Lemma timer_tick_violations_witness :
  let w := {| Timer.heap := {[ 0%nat := Timer.Live 8 ]}; Timer.unix_time := ∅;
              Timer.time_calls := 0; Timer.violations := [] |} in
  Timer.heap w !! 0%nat = Some (Timer.Live 8) /\
  Timer.violations (Timer.timer_tick (fun _ => 0) 0%nat 2 1 w) =
    [Timer.DoubleFree ("timer.c", 12%nat) 1%nat;
     Timer.UseAfterFree ("timer.c", 16%nat) 1%nat;
     Timer.UseAfterFree ("timer.c", 16%nat) 1%nat].
Proof.
  intros w. split; [reflexivity |].
  pose proof (timer_tick_violations (fun _ => 0) 0%nat 2 1 8 w eq_refl) as H.
  cbv zeta in H. destruct H as [_ [H _]]. exact H.
Defined.

(** ** Arrays with checked indexing: basic facts *)

Section MemFacts.
Import Mem.

Lemma index_in_bounds {A} (a : list A) (i : Z) :
  0 <= i < Z.of_nat (length a) -> exists v, index a i = Some v.
Proof.
  intros Hi. unfold index.
  destruct (Z.ltb_spec i 0) as [Hneg | _]; [lia |].
  destruct (lookup_lt_is_Some_2 a (Z.to_nat i)) as [v Hv]; [lia |].
  by exists v.
Qed.

Lemma index_past_end {A} (a : list A) (i : Z) :
  Z.of_nat (length a) <= i -> index a i = None.
Proof.
  intros Hi. unfold index.
  destruct (Z.ltb_spec i 0) as [Hneg | _]; [reflexivity |].
  apply lookup_ge_None_2. lia.
Qed.

Lemma index_negative {A} (a : list A) (i : Z) : i < 0 -> index a i = None.
Proof.
  intros Hi. unfold index. by destruct (Z.ltb_spec i 0) as [_ | Hge]; [| lia].
Qed.

Lemma index_Some_range {A} (a : list A) (i : Z) (v : A) :
  index a i = Some v -> 0 <= i < Z.of_nat (length a).
Proof.
  unfold index. destruct (Z.ltb_spec i 0) as [Hneg | Hge]; [discriminate |].
  intros Hv. apply lookup_lt_Some in Hv. lia.
Qed.

Lemma update_in_bounds {A} (a : list A) (i : Z) (v : A) :
  0 <= i < Z.of_nat (length a) -> update a i v = Some (<[Z.to_nat i := v]> a).
Proof.
  intros Hi. unfold update.
  destruct (Z.leb_spec 0 i); [| lia].
  destruct (Z.ltb_spec i (Z.of_nat (length a))); [reflexivity | lia].
Qed.

Lemma update_outside {A} (a : list A) (i : Z) (v : A) :
  i < 0 \/ Z.of_nat (length a) <= i -> update a i v = None.
Proof.
  intros Hi. unfold update.
  destruct (Z.leb_spec 0 i); [| reflexivity].
  destruct (Z.ltb_spec i (Z.of_nat (length a))); [lia | reflexivity].
Qed.

Variable junk : nat -> Z.

Lemma load_in_bounds line name a i log :
  0 <= i < Z.of_nat (length a) ->
  exists v, index a i = Some v /\ load junk line name a i log = (v, log).
Proof.
  intros Hi. destruct (index_in_bounds a i Hi) as [v Hv].
  exists v. split; [exact Hv |]. unfold load. by rewrite Hv.
Qed.

Lemma load_past_end line name a i log :
  Z.of_nat (length a) <= i ->
  load junk line name a i log =
    (junk (length log), log ++ [OOB Load name i line]).
Proof. intros Hi. unfold load. by rewrite index_past_end. Qed.

Lemma store_in_bounds line name a i v log :
  0 <= i < Z.of_nat (length a) ->
  store line name a i v log = (<[Z.to_nat i := v]> a, log).
Proof. intros Hi. unfold store. by rewrite update_in_bounds. Qed.

Lemma store_past_end line name a i v log :
  Z.of_nat (length a) <= i ->
  store line name a i v log = (a, log ++ [OOB Store name i line]).
Proof. intros Hi. unfold store. rewrite update_outside; [reflexivity | lia]. Qed.

(** Invariant rule for the counting loop [for (i = lo; i < hi; i++)]. *)
Lemma for_loop_lt_invariant {T} (I : Z -> T -> list oob -> Prop)
    (lo hi : Z) (body : Z -> T -> M T) :
  (forall i s log, lo <= i < hi -> I i s log ->
     I (i + 1) (body i s log).1 (body i s log).2) ->
  forall fuel i s log,
    lo <= i <= hi -> fuel = Z.to_nat (hi - i) -> I i s log ->
    let r := for_loop fuel (fun k => k <? hi) i body s log in
    I hi r.1 r.2.
Proof.
  intros Hbody. induction fuel as [| fuel IH]; intros i s log Hi Hfuel HI; cbn.
  - assert (i = hi) as -> by lia. exact HI.
  - destruct (Z.ltb_spec i hi) as [Hlt | Hge]; [| lia].
    unfold bind. specialize (Hbody i s log (conj (proj1 Hi) Hlt) HI).
    destruct (body i s log) as [s' log']. cbn in Hbody.
    apply IH; [lia | lia | exact Hbody].
Qed.

(** The same for [for (i = lo; i <= hi; i++)]. *)
Lemma for_loop_le_invariant {T} (I : Z -> T -> list oob -> Prop)
    (lo hi : Z) (body : Z -> T -> M T) :
  (forall i s log, lo <= i <= hi -> I i s log ->
     I (i + 1) (body i s log).1 (body i s log).2) ->
  forall fuel i s log,
    lo <= i <= hi + 1 -> fuel = Z.to_nat (hi + 1 - i) -> I i s log ->
    let r := for_loop fuel (fun k => k <=? hi) i body s log in
    I (hi + 1) r.1 r.2.
Proof.
  intros Hbody. induction fuel as [| fuel IH]; intros i s log Hi Hfuel HI; cbn.
  - assert (i = hi + 1) as -> by lia. exact HI.
  - destruct (Z.leb_spec i hi) as [Hle | Hgt]; [| lia].
    unfold bind. specialize (Hbody i s log (conj (proj1 Hi) Hle) HI).
    destruct (body i s log) as [s' log']. cbn in Hbody.
    apply IH; [lia | lia | exact Hbody].
Qed.

(** The fuel the samples give their loops is enough: the loop stops at its
    test, and more fuel changes nothing. *)
Lemma for_loop_lt_fuel {T} (hi : Z) (body : Z -> T -> M T) :
  forall fuel extra i s log,
    fuel = Z.to_nat (hi - i) ->
    for_loop (fuel + extra) (fun k => k <? hi) i body s log =
    for_loop fuel (fun k => k <? hi) i body s log.
Proof.
  induction fuel as [| fuel IH]; intros extra i s log Hfuel.
  - destruct extra; cbn; [reflexivity |].
    destruct (Z.ltb_spec i hi); [lia | reflexivity].
  - cbn. destruct (i <? hi); [| reflexivity].
    unfold bind. destruct (body i s log) as [s' log']. apply IH. lia.
Qed.

Lemma for_loop_le_fuel {T} (hi : Z) (body : Z -> T -> M T) :
  forall fuel extra i s log,
    fuel = Z.to_nat (hi + 1 - i) ->
    for_loop (fuel + extra) (fun k => k <=? hi) i body s log =
    for_loop fuel (fun k => k <=? hi) i body s log.
Proof.
  induction fuel as [| fuel IH]; intros extra i s log Hfuel.
  - destruct extra; cbn; [reflexivity |].
    destruct (Z.leb_spec i hi); [lia | reflexivity].
  - cbn. destruct (i <=? hi); [| reflexivity].
    unfold bind. destruct (body i s log) as [s' log']. apply IH. lia.
Qed.

End MemFacts.

(** ** bubble_sort.c *)

Section BubbleSortProperties.
Import Mem BubbleSort.

Variable junk : nat -> Z.

(** Before the last iteration every access of the body is inside [arr]. *)
Lemma compare_and_swap_inside (n j : Z) (arr : list Z) (log : list oob) :
  Z.of_nat (length arr) = n -> 0 <= j -> j + 1 < n ->
  let r := compare_and_swap junk j arr log in
  length r.1 = length arr /\ r.2 = log.
Proof.
  intros Hlen Hj0 Hj1. unfold compare_and_swap, bind.
  destruct (load_in_bounds junk 7 "arr" arr j log) as (a & _ & ->); [lia |].
  destruct (load_in_bounds junk 7 "arr" arr (j + 1) log) as (b & _ & ->); [lia |].
  destruct (a >? b); [| by cbn].
  destruct (load_in_bounds junk 8 "arr" arr j log) as (t & _ & ->); [lia |].
  destruct (load_in_bounds junk 9 "arr" arr (j + 1) log) as (v & _ & ->); [lia |].
  rewrite store_in_bounds by lia.
  rewrite store_in_bounds by (rewrite length_insert; lia).
  cbn. by rewrite !length_insert.
Qed.

(** The last iteration, [j = n - 1], reads [arr[n]] at line 7. *)
Lemma compare_and_swap_last (n : Z) (arr : list Z) (log : list oob) :
  Z.of_nat (length arr) = n -> 1 <= n ->
  let r := compare_and_swap junk (n - 1) arr log in
  length r.1 = length arr /\
  exists evs, inner_events n evs /\ r.2 = log ++ evs.
Proof.
  intros Hlen Hn. unfold compare_and_swap, bind.
  destruct (load_in_bounds junk 7 "arr" arr (n - 1) log) as (a & _ & ->); [lia |].
  replace (n - 1 + 1) with n by lia.
  rewrite load_past_end by lia.
  destruct (a >? junk (length log)).
  - destruct (load_in_bounds junk 8 "arr" arr (n - 1)
                (log ++ [OOB Load "arr" n 7])) as (t & _ & ->); [lia |].
    rewrite load_past_end by lia.
    rewrite store_in_bounds by lia.
    rewrite store_past_end by (rewrite length_insert; lia).
    cbn. split; [by rewrite length_insert |].
    exists [read_at_7 n; read_at_9 n; write_at_10 n]. split; [by right |].
    by rewrite <- !app_assoc.
  - cbn. split; [reflexivity |]. exists [read_at_7 n]. split; [by left | reflexivity].
Qed.

(** One run of the inner loop on an array of [n >= 1] elements. *)
Lemma inner_loop_events (n : Z) (arr : list Z) (log : list oob) :
  Z.of_nat (length arr) = n -> 1 <= n ->
  let r := inner_loop junk n arr log in
  length r.1 = length arr /\
  exists evs, inner_events n evs /\ r.2 = log ++ evs.
Proof.
  intros Hlen Hn. unfold inner_loop.
  pose (I := fun (j : Z) (a : list Z) (l : list oob) =>
    length a = length arr /\
    (j < n -> l = log) /\
    (j = n -> exists evs, inner_events n evs /\ l = log ++ evs)).
  assert (HI : let r := for_loop (Z.to_nat n) (fun k => k <? n) 0
                          (compare_and_swap junk) arr log in I n r.1 r.2).
  { apply (for_loop_lt_invariant I 0 n); [| lia | lia |].
    - intros j a l Hj (Hla & Hbefore & _).
      specialize (Hbefore (proj2 Hj)). subst l.
      destruct (Z.eq_dec j (n - 1)) as [-> | Hne].
      + destruct (compare_and_swap_last n a log) as [Hl Hev]; [lia | lia |].
        split; [congruence |]. split; [lia |]. intros _. exact Hev.
      + destruct (compare_and_swap_inside n j a log) as [Hl Hev]; [lia | lia | lia |].
        split; [congruence |]. split; [intros _; exact Hev | lia].
    - split; [reflexivity |]. split; [reflexivity | lia]. }
  destruct HI as (Hl & _ & Hev). split; [exact Hl | by apply Hev].
Qed.

Lemma for_loop_S {T} (fuel : nat) (cond : Z -> bool) (i : Z)
    (body : Z -> T -> M T) (s : T) (log : list oob) :
  for_loop (S fuel) cond i body s log =
    if cond i then bind (body i s) (for_loop fuel cond (i + 1) body) log
    else ret s log.
Proof. cbn [for_loop]. by destruct (cond i). Qed.

(** The iterations of [for (i = lo; i < hi + 1; i++)] are those of
    [for (i = lo; i < hi; i++)], followed by the one at [hi]. *)
Lemma for_loop_last_iteration {T} (hi hi' : Z) (body : Z -> T -> M T) :
  hi' = hi + 1 ->
  forall fuel i s log,
    i <= hi -> fuel = Z.to_nat (hi - i) ->
    for_loop (S fuel) (fun k => k <? hi') i body s log =
      let r := for_loop fuel (fun k => k <? hi) i body s log in
      body hi r.1 r.2.
Proof.
  intros ->. induction fuel as [| fuel IH]; intros i s log Hi Hfuel; cbv zeta.
  - assert (i = hi) as -> by lia. rewrite for_loop_S.
    destruct (Z.ltb_spec hi (hi + 1)); [| lia].
    unfold bind. cbn. by destruct (body hi s log).
  - rewrite (for_loop_S (S fuel)), (for_loop_S fuel (fun k => k <? hi)).
    destruct (Z.ltb_spec i (hi + 1)); [| lia].
    destruct (Z.ltb_spec i hi); [| lia].
    unfold bind. destruct (body i s log) as [s' log'].
    apply IH; lia.
Qed.

(** The last iteration in full: [arr[n - 1]] is compared with the value
    read at [arr[n]]; when it is larger, the swap reads [arr[n]] again at
    line 9, stores that value at [arr[n - 1]] and stores to [arr[n]] at
    line 10; otherwise nothing else happens. *)
Lemma compare_and_swap_end (n : Z) (arr : list Z) (log : list oob) (x : Z) :
  Z.of_nat (length arr) = n -> index arr (n - 1) = Some x ->
  compare_and_swap junk (n - 1) arr log =
    if x >? junk (length log)
    then (<[Z.to_nat (n - 1) := junk (S (length log))]> arr,
          log ++ [read_at_7 n; read_at_9 n; write_at_10 n])
    else (arr, log ++ [read_at_7 n]).
Proof.
  intros Hlen Hx. pose proof (index_Some_range _ _ _ Hx) as Hrange.
  assert (Hload : forall line l, load junk line "arr" arr (n - 1) l = (x, l)).
  { intros line l. unfold load. by rewrite Hx. }
  unfold compare_and_swap, bind. rewrite Hload.
  replace (n - 1 + 1) with n by lia.
  rewrite load_past_end by lia.
  destruct (x >? junk (length log)); [| reflexivity].
  rewrite Hload. rewrite load_past_end by lia.
  rewrite store_in_bounds by lia.
  rewrite store_past_end by (rewrite length_insert; lia).
  rewrite length_app, Nat.add_1_r. cbn [length].
  by rewrite <- !app_assoc.
Qed.

(** One run of the inner loop is [n - 1] iterations that stay inside the
    array, followed by the iteration at [j = n - 1]. *)
Lemma inner_loop_last (n : Z) (arr : list Z) (log : list oob) :
  Z.of_nat (length arr) = n -> 1 <= n ->
  let before := for_loop (Z.to_nat (n - 1)) (fun j => j <? n - 1) 0
                  (compare_and_swap junk) arr log in
  before.2 = log /\ length before.1 = length arr /\
  inner_loop junk n arr log = compare_and_swap junk (n - 1) before.1 log.
Proof.
  intros Hlen Hn.
  assert (HI : let r := for_loop (Z.to_nat (n - 1)) (fun j => j <? n - 1) 0
                          (compare_and_swap junk) arr log in
               length r.1 = length arr /\ r.2 = log).
  { apply (for_loop_lt_invariant
             (fun _ a l => length a = length arr /\ l = log) 0 (n - 1));
      [| lia | lia | by split].
    intros j a l Hj [Hla ->].
    destruct (compare_and_swap_inside n j a log) as [Hl Hev]; [lia | lia | lia |].
    split; congruence. }
  cbv zeta in HI |- *. destruct HI as [Hl Hlog].
  split; [exact Hlog |]. split; [exact Hl |].
  unfold inner_loop. replace (Z.to_nat n) with (S (Z.to_nat (n - 1))) by lia.
  rewrite (for_loop_last_iteration (n - 1) n) by lia.
  cbv zeta. by rewrite Hlog.
Qed.

(** The whole sort: one run of the inner loop per outer iteration. *)
Lemma buggy_bubble_sort_events (n : Z) (arr : list Z) :
  Z.of_nat (length arr) = n -> 1 <= n ->
  let r := buggy_bubble_sort junk arr n [] in
  length r.1 = length arr /\
  exists runs : list (list oob),
    length runs = Z.to_nat n /\ Forall (inner_events n) runs /\
    r.2 = concat runs.
Proof.
  intros Hlen Hn. unfold buggy_bubble_sort.
  pose (I := fun (i : Z) (a : list Z) (l : list oob) =>
    length a = length arr /\
    exists runs : list (list oob),
      length runs = Z.to_nat i /\ Forall (inner_events n) runs /\
      l = concat runs).
  apply (for_loop_lt_invariant I 0 n); [| lia | lia |].
  - intros i a l Hi (Hla & runs & Hruns & Hall & ->).
    destruct (inner_loop_events n a (concat runs)) as (Hl & evs & Hev & Hlog);
      [lia | lia |].
    split; [congruence |]. exists (runs ++ [evs]). split; [| split].
    + rewrite length_app. cbn. lia.
    + apply Forall_app. split; [exact Hall | by constructor].
    + rewrite Hlog, concat_app. cbn. by rewrite app_nil_r.
  - split; [reflexivity |]. by exists [].
Qed.

End BubbleSortProperties.

Section BubbleSortTrace.
Import Mem BubbleSort.

Lemma inner_events_filter_7 (n : Z) (runs : list (list oob)) :
  Forall (inner_events n) runs ->
  filter (fun e => oob_line e = 7%nat) (concat runs) =
    replicate (length runs) (read_at_7 n).
Proof.
  induction 1 as [| evs runs Hev _ IH]; [reflexivity |].
  cbn [concat length replicate]. rewrite filter_app, IH.
  destruct Hev as [-> | ->]; reflexivity.
Qed.

Lemma inner_events_members (n : Z) (runs : list (list oob)) :
  Forall (inner_events n) runs ->
  Forall (fun e => e = read_at_7 n \/ e = read_at_9 n \/ e = write_at_10 n)
         (concat runs).
Proof.
  induction 1 as [| evs runs Hev _ IH]; [constructor |].
  cbn [concat]. apply Forall_app. split; [| exact IH].
  destruct Hev as [-> | ->]; repeat (apply Forall_cons; split; [auto |]);
    apply Forall_nil_2.
Qed.

Lemma inner_events_head (n : Z) (runs : list (list oob)) :
  Forall (inner_events n) runs -> runs <> [] ->
  head (concat runs) = Some (read_at_7 n).
Proof.
  intros Hall Hne. destruct Hall as [| evs runs Hev _]; [done |].
  destruct Hev as [-> | ->]; reflexivity.
Qed.

(** A run in which no comparison ever holds: an array of zeros, and zero
    for every value read outside it. *)
Lemma compare_and_swap_zeros (n j : Z) (log : list oob) :
  1 <= n -> 0 <= j < n ->
  compare_and_swap (fun _ => 0) j (replicate (Z.to_nat n) 0) log =
    (replicate (Z.to_nat n) 0,
     if decide (j = n - 1) then log ++ [read_at_7 n] else log).
Proof.
  intros Hn Hj. unfold compare_and_swap, bind.
  assert (Hin : forall k, 0 <= k < n ->
            forall line l, load (fun _ => 0) line "arr" (replicate (Z.to_nat n) 0) k l
                           = (0, l)).
  { intros k Hk line l. unfold load, index.
    destruct (Z.ltb_spec k 0); [lia |].
    rewrite lookup_replicate_2 by lia. reflexivity. }
  rewrite Hin by lia.
  destruct (decide (j = n - 1)) as [-> | Hne].
  - replace (n - 1 + 1) with n by lia.
    rewrite load_past_end by (rewrite length_replicate; lia). reflexivity.
  - rewrite Hin by lia. reflexivity.
Qed.

Lemma buggy_bubble_sort_zeros (n : Z) :
  1 <= n ->
  Forall (fun e => oob_line e = 7%nat)
    (buggy_bubble_sort (fun _ => 0) (replicate (Z.to_nat n) 0) n []).2.
Proof.
  intros Hn. unfold buggy_bubble_sort.
  pose (I := fun (_ : Z) (a : list Z) (l : list oob) =>
    a = replicate (Z.to_nat n) 0 /\ Forall (fun e => oob_line e = 7%nat) l).
  apply (for_loop_lt_invariant I 0 n); [| lia | lia | by split].
  intros i a l Hi [-> Hl]. unfold inner_loop.
  apply (for_loop_lt_invariant I 0 n); [| lia | lia | by split].
  intros j a' l' Hj [-> Hl']. rewrite compare_and_swap_zeros by lia.
  split; [reflexivity |]. cbn. destruct (decide (j = n - 1)); [| exact Hl'].
  apply Forall_app. split; [exact Hl' | by repeat constructor].
Qed.

(** A run in which the comparison at [j = n - 1] holds: an array of
    ones, and zero for every value read outside it. *)
Lemma compare_and_swap_ones (junk : nat -> Z) (n j : Z) (log : list oob) :
  0 <= j -> j + 1 < n ->
  compare_and_swap junk j (replicate (Z.to_nat n) 1) log =
    (replicate (Z.to_nat n) 1, log).
Proof.
  intros Hj0 Hj1. unfold compare_and_swap, bind.
  assert (Hin : forall k, 0 <= k < n ->
            forall line l, load junk line "arr" (replicate (Z.to_nat n) 1) k l
                           = (1, l)).
  { intros k Hk line l. unfold load, index.
    destruct (Z.ltb_spec k 0); [lia |].
    rewrite lookup_replicate_2 by lia. reflexivity. }
  rewrite Hin by lia. rewrite Hin by lia. reflexivity.
Qed.

Lemma inner_loop_ones (n : Z) (log : list oob) :
  1 <= n ->
  inner_loop (fun _ => 0) n (replicate (Z.to_nat n) 1) log =
    (<[Z.to_nat (n - 1) := 0]> (replicate (Z.to_nat n) 1),
     log ++ [read_at_7 n; read_at_9 n; write_at_10 n]).
Proof.
  intros Hn.
  destruct (inner_loop_last (fun _ => 0) n (replicate (Z.to_nat n) 1) log)
    as (_ & _ & ->); [rewrite length_replicate; lia | lia |].
  assert (Hb : (for_loop (Z.to_nat (n - 1)) (fun j => j <? n - 1) 0
                  (compare_and_swap (fun _ => 0)) (replicate (Z.to_nat n) 1) log).1
               = replicate (Z.to_nat n) 1).
  { apply (for_loop_lt_invariant
             (fun _ a _ => a = replicate (Z.to_nat n) 1) 0 (n - 1));
      [| lia | lia | reflexivity].
    intros j a l Hj ->. by rewrite compare_and_swap_ones by lia. }
  rewrite Hb.
  rewrite (compare_and_swap_end (fun _ => 0) n _ log 1); [reflexivity | |].
  - rewrite length_replicate. lia.
  - unfold index. destruct (Z.ltb_spec (n - 1) 0); [lia |].
    apply lookup_replicate_2. lia.
Qed.

Lemma buggy_bubble_sort_ones (n : Z) :
  1 <= n ->
  exists evs,
    (buggy_bubble_sort (fun _ => 0) (replicate (Z.to_nat n) 1) n []).2 =
      [read_at_7 n; read_at_9 n; write_at_10 n] ++ evs.
Proof.
  intros Hn. unfold buggy_bubble_sort.
  pose (I := fun (i : Z) (a : list Z) (l : list oob) =>
    Z.of_nat (length a) = n /\
    (i = 0 -> a = replicate (Z.to_nat n) 1 /\ l = []) /\
    (1 <= i -> exists evs, l = [read_at_7 n; read_at_9 n; write_at_10 n] ++ evs)).
  assert (HI : let r := for_loop (Z.to_nat n) (fun i => i <? n) 0
                          (fun _ arr => inner_loop (fun _ => 0) n arr)
                          (replicate (Z.to_nat n) 1) [] in I n r.1 r.2).
  { apply (for_loop_lt_invariant I 0 n); [| lia | lia |].
    - intros i a l Hi (Hla & Hfirst & Hlater).
      destruct (inner_loop_events (fun _ => 0) n a l Hla Hn) as (Hl & evs & _ & Hlog).
      split; [lia |]. split; [lia |]. intros _.
      destruct (Z.eq_dec i 0) as [-> | Hpos].
      + destruct (Hfirst eq_refl) as [-> ->].
        rewrite inner_loop_ones by lia. by exists [].
      + destruct (Hlater ltac:(lia)) as [evs0 ->].
        exists (evs0 ++ evs). by rewrite Hlog, <- app_assoc.
    - split; [rewrite length_replicate; lia |]. split; [done | lia]. }
  destruct HI as (_ & _ & Hev). by apply Hev.
Qed.

End BubbleSortTrace.

(** C2, as stated, fails in its last part: line 7 is not the only line
    that accesses [arr[n]].  On the one-element array [{5}], when the read of
    [arr[1]] at line 7 yields 0, the comparison holds and the swap reads
    [arr[1]] again at line 9 and stores to it at line 10. *)
Lemma buggy_bubble_sort_swap_past_end :
  (BubbleSort.buggy_bubble_sort (fun _ => 0) [5] 1 []).2 =
    [BubbleSort.read_at_7 1; BubbleSort.read_at_9 1; BubbleSort.write_at_10 1] /\
  Exists (fun e => Mem.oob_index e = 1 /\ Mem.oob_line e <> 7%nat)
         (BubbleSort.buggy_bubble_sort (fun _ => 0) [5] 1 []).2.
Proof.
  split; [reflexivity |].
  apply Exists_cons_tl, Exists_cons_hd. split; [reflexivity | discriminate].
Qed.

(** C2, amended. For every [n >= 1] and every array of [n] elements,
    [buggy_bubble_sort] leaves the length of the array as it is and reads
    [arr[n]], one past the end: the first out-of-bounds access of the run is
    the read of [arr[j + 1]] in the comparison of line 7 at [j = n - 1];
    the run makes this read once in each of the [n] outer iterations; every
    out-of-bounds access of the run is a use of [arr[j + 1]] at index [n]
    (at line 7 or, in an iteration whose comparison held, in the swap of
    lines 9 and 10): the record is made of [n] parts, one per outer
    iteration, each the read of line 7 alone or followed by the accesses of
    lines 9 and 10; and line 7 is the one line at which every run makes an
    out-of-bounds access.  Which of the two it is, the comparison decides:
    a run of the inner loop is [n - 1] iterations without any out-of-bounds
    access followed by the iteration at [j = n - 1], and that iteration
    records the read of line 7 alone when [arr[n - 1]] is not larger than
    the value read at [arr[n]], and the accesses of lines 7, 9 and 10, with
    the value read at line 9 stored to [arr[n - 1]], when it is larger.
    For every [n >= 1], lines 7, 9 and 10 are the lines at which some run
    makes an out-of-bounds access. *)
Theorem buggy_bubble_sort_reads_past_end (n : Z) :
  1 <= n ->
  (forall (junk : nat -> Z) (arr : list Z),
      Z.of_nat (length arr) = n ->
      let r := BubbleSort.buggy_bubble_sort junk arr n [] in
      length r.1 = length arr /\
      head r.2 = Some (BubbleSort.read_at_7 n) /\
      filter (fun e => Mem.oob_line e = 7%nat) r.2 =
        replicate (Z.to_nat n) (BubbleSort.read_at_7 n) /\
      Forall (fun e => e = BubbleSort.read_at_7 n \/ e = BubbleSort.read_at_9 n
                       \/ e = BubbleSort.write_at_10 n) r.2 /\
      Forall (fun e => Mem.oob_index e = n) r.2 /\
      exists runs : list (list Mem.oob),
        length runs = Z.to_nat n /\ Forall (BubbleSort.inner_events n) runs /\
        r.2 = concat runs) /\
  (forall line : nat,
      (forall (junk : nat -> Z) (arr : list Z),
          Z.of_nat (length arr) = n ->
          Exists (fun e => Mem.oob_line e = line)
                 (BubbleSort.buggy_bubble_sort junk arr n []).2)
      <-> line = 7%nat) /\
  (forall (junk : nat -> Z) (arr : list Z) (log : list Mem.oob),
      Z.of_nat (length arr) = n ->
      let before := Mem.for_loop (Z.to_nat (n - 1)) (fun j => j <? n - 1) 0
                      (BubbleSort.compare_and_swap junk) arr log in
      before.2 = log /\ length before.1 = length arr /\
      BubbleSort.inner_loop junk n arr log =
        BubbleSort.compare_and_swap junk (n - 1) before.1 log) /\
  (forall (junk : nat -> Z) (arr : list Z) (log : list Mem.oob) (x : Z),
      Z.of_nat (length arr) = n ->
      Mem.index arr (n - 1) = Some x ->
      BubbleSort.compare_and_swap junk (n - 1) arr log =
        if x >? junk (length log)
        then (<[Z.to_nat (n - 1) := junk (S (length log))]> arr,
              log ++ [BubbleSort.read_at_7 n; BubbleSort.read_at_9 n;
                      BubbleSort.write_at_10 n])
        else (arr, log ++ [BubbleSort.read_at_7 n])) /\
  (forall line : nat,
      (exists (junk : nat -> Z) (arr : list Z),
          Z.of_nat (length arr) = n /\
          Exists (fun e => Mem.oob_line e = line)
                 (BubbleSort.buggy_bubble_sort junk arr n []).2)
      <-> line = 7%nat \/ line = 9%nat \/ line = 10%nat).
Proof.
  intros Hn.
  assert (Hall : forall (junk : nat -> Z) (arr : list Z),
      Z.of_nat (length arr) = n ->
      let r := BubbleSort.buggy_bubble_sort junk arr n [] in
      length r.1 = length arr /\
      head r.2 = Some (BubbleSort.read_at_7 n) /\
      filter (fun e => Mem.oob_line e = 7%nat) r.2 =
        replicate (Z.to_nat n) (BubbleSort.read_at_7 n) /\
      Forall (fun e => e = BubbleSort.read_at_7 n \/ e = BubbleSort.read_at_9 n
                       \/ e = BubbleSort.write_at_10 n) r.2 /\
      Forall (fun e => Mem.oob_index e = n) r.2 /\
      exists runs : list (list Mem.oob),
        length runs = Z.to_nat n /\ Forall (BubbleSort.inner_events n) runs /\
        r.2 = concat runs).
  { intros junk arr Hlen.
    destruct (buggy_bubble_sort_events junk n arr Hlen Hn)
      as (Hl & runs & Hruns & Hev & Hlog).
    cbv zeta. rewrite Hlog. split; [exact Hl |]. split; [| split; [| split; [| split]]].
    - apply inner_events_head; [exact Hev |]. intros ->. cbn in Hruns. lia.
    - rewrite <- Hruns. by apply inner_events_filter_7.
    - by apply inner_events_members.
    - eapply Forall_impl; [by apply inner_events_members |].
      intros e [-> | [-> | ->]]; reflexivity.
    - by exists runs. }
  split; [exact Hall |]. split; [| split; [| split]].
  - intros line. split.
    + intros Hevery.
      specialize (Hevery (fun _ => 0) (replicate (Z.to_nat n) 0)).
      rewrite length_replicate in Hevery. specialize (Hevery ltac:(lia)).
      apply Exists_exists in Hevery as (e & He & Hline).
      pose proof (buggy_bubble_sort_zeros n Hn) as Hz.
      rewrite Forall_forall in Hz. rewrite <- Hline. by apply Hz.
    + intros -> junk arr Hlen.
      destruct (Hall junk arr Hlen) as (_ & Hhead & _).
      destruct ((BubbleSort.buggy_bubble_sort junk arr n []).2) as [| e l];
        [discriminate |].
      cbn in Hhead. injection Hhead as ->. by constructor.
  - intros junk arr log Hlen. by apply inner_loop_last.
  - intros junk arr log x Hlen Hx. by apply compare_and_swap_end.
  - intros line. split.
    + intros (junk & arr & Hlen & Hex).
      destruct (Hall junk arr Hlen) as (_ & _ & _ & Hmem & _).
      apply Exists_exists in Hex as (e & He & <-).
      rewrite Forall_forall in Hmem.
      destruct (Hmem e He) as [-> | [-> | ->]]; auto.
    + intros Hline. exists (fun _ => 0), (replicate (Z.to_nat n) 1).
      split; [rewrite length_replicate; lia |].
      destruct (buggy_bubble_sort_ones n Hn) as [evs ->].
      destruct Hline as [-> | [-> | ->]].
      * by apply Exists_cons_hd.
      * by apply Exists_cons_tl, Exists_cons_hd.
      * by apply Exists_cons_tl, Exists_cons_tl, Exists_cons_hd.
Qed.

Lemma buggy_bubble_sort_reads_past_end_witness :
  1 <= 5 /\
  filter (fun e => Mem.oob_line e = 7%nat) (BubbleSort.main (fun _ => 0) []).2 =
    replicate 5 (BubbleSort.read_at_7 5) /\
  BubbleSort.inner_loop (fun _ => 0) 5 [5; 3; 2; 4; 1] [] =
    BubbleSort.compare_and_swap (fun _ => 0) (5 - 1) [3; 2; 4; 1; 5] [] /\
  BubbleSort.compare_and_swap (fun _ => 0) (5 - 1) [3; 2; 4; 1; 5] [] =
    ([3; 2; 4; 1; 0],
     [BubbleSort.read_at_7 5; BubbleSort.read_at_9 5; BubbleSort.write_at_10 5]) /\
  BubbleSort.compare_and_swap (fun _ => 0) (5 - 1) [0; 0; 0; 0; 0] [] =
    ([0; 0; 0; 0; 0], [BubbleSort.read_at_7 5]).
Proof.
  split; [lia |].
  destruct (buggy_bubble_sort_reads_past_end 5 ltac:(lia))
    as (Hrun & _ & Hinner & Hlast & _).
  destruct (Hrun (fun _ => 0) [5; 3; 2; 4; 1] eq_refl) as (_ & _ & Hf & _).
  split; [exact Hf |]. split; [| split].
  - exact (proj2 (proj2 (Hinner (fun _ => 0) [5; 3; 2; 4; 1] [] eq_refl))).
  - exact (Hlast (fun _ => 0) [3; 2; 4; 1; 5] [] 5 eq_refl eq_refl).
  - exact (Hlast (fun _ => 0) [0; 0; 0; 0; 0] [] 0 eq_refl eq_refl).
Defined.

(** ** What a computation adds to the record *)

Section MemEmits.
Import Mem.

Variable junk : nat -> Z.
Variable P : oob -> Prop.

Lemma emits_ret {A} (a : A) : emits P (ret a).
Proof. intros log. exists []. cbn. by rewrite app_nil_r. Qed.

Lemma emits_bind {A B} (m : M A) (k : A -> M B) :
  emits P m -> (forall a, emits P (k a)) -> emits P (bind m k).
Proof.
  intros Hm Hk log. unfold bind.
  destruct (Hm log) as (evs1 & H1 & HP1).
  destruct (m log) as [a log1]. cbn in H1. subst log1.
  destruct (Hk a (log ++ evs1)) as (evs2 & H2 & HP2).
  exists (evs1 ++ evs2). rewrite H2, app_assoc. split; [reflexivity |].
  by apply Forall_app.
Qed.

Lemma emits_load line name a i :
  P (OOB Load name i line) -> emits P (load junk line name a i).
Proof.
  intros HP log. unfold load. destruct (index a i).
  - exists []. cbn. by rewrite app_nil_r.
  - exists [OOB Load name i line]. cbn. split; [reflexivity | by repeat constructor].
Qed.

Lemma emits_load2 line name m i j :
  (forall k, P (OOB Load name k line)) -> emits P (load2 junk line name m i j).
Proof.
  intros HP log. unfold load2. destruct (index m i) as [row |].
  - by apply emits_load.
  - exists [OOB Load name i line]. cbn. split; [reflexivity | by repeat constructor].
Qed.

Lemma emits_store line name a i v :
  P (OOB Store name i line) -> emits P (store line name a i v).
Proof.
  intros HP log. unfold store. destruct (update a i v).
  - exists []. cbn. by rewrite app_nil_r.
  - exists [OOB Store name i line]. cbn. split; [reflexivity | by repeat constructor].
Qed.

Lemma emits_for_loop {T} (cond : Z -> bool) (body : Z -> T -> M T) :
  (forall i s, emits P (body i s)) ->
  forall fuel i s, emits P (for_loop fuel cond i body s).
Proof.
  intros Hbody. induction fuel as [| fuel IH]; intros i s; cbn.
  - apply emits_ret.
  - destruct (cond i); [| apply emits_ret].
    apply emits_bind; [apply Hbody | intros s'; apply IH].
Qed.

Lemma store_length line name (a : list Z) i v log :
  length (store line name a i v log).1 = length a.
Proof.
  unfold store, update.
  destruct ((0 <=? i) && (i <? Z.of_nat (length a))); cbn; [| reflexivity].
  by rewrite length_insert.
Qed.

End MemEmits.

(** ** dijkstra_unsafe.c *)

(** Case analysis on the loads and tests of a computation. *)
Ltac mem_cases :=
  repeat match goal with
    | |- context [Mem.load ?j ?l ?n ?a ?i ?log] =>
        destruct (Mem.load j l n a i log) as [? ?]
    | |- context [Mem.load2 ?j ?l ?n ?m ?i ?k ?log] =>
        destruct (Mem.load2 j l n m i k log) as [? ?]
    | |- context [if ?c then _ else _] => destruct c
    end.

Section DijkstraUnsafeProperties.
Import Mem DijkstraUnsafe.

Variable junk : nat -> Z.

Lemma filter_line_none (line : nat) (evs : list oob) :
  Forall (fun e => oob_line e <> line) evs ->
  filter (fun e => oob_line e = line) evs = [].
Proof.
  induction 1 as [| e evs He _ IH]; [reflexivity |].
  rewrite filter_cons. by destruct (decide (oob_line e = line)).
Qed.

Lemma unsafe_minDistance_step_inside dist sptSet v st log :
  Z.of_nat (length dist) = V -> Z.of_nat (length sptSet) = V -> 0 <= v < V ->
  (minDistance_step junk dist sptSet v st log).2 = log.
Proof.
  intros Hd Hs Hv. unfold minDistance_step, bind.
  destruct (load_in_bounds junk 10 "sptSet" sptSet v log) as (s & _ & ->); [lia |].
  destruct (s =? 0); [| reflexivity].
  destruct (load_in_bounds junk 11 "dist" dist v log) as (d & _ & ->); [lia |].
  destruct (d <=? st.1); [| reflexivity].
  destruct (load_in_bounds junk 12 "dist" dist v log) as (d' & _ & ->); [lia |].
  reflexivity.
Qed.

Lemma unsafe_minDistance_step_at_V dist sptSet st log :
  Z.of_nat (length dist) = V -> Z.of_nat (length sptSet) = V ->
  exists evs,
    (minDistance_step junk dist sptSet V st log).2 = log ++ evs /\
    minDistance_events (junk (length log)) evs.
Proof.
  intros Hd Hs. unfold minDistance_step, bind, minDistance_events.
  rewrite load_past_end by lia.
  destruct (decide (junk (length log) = 0)) as [Hz | Hnz].
  - rewrite (proj2 (Z.eqb_eq _ _) Hz).
    rewrite load_past_end by lia.
    destruct (_ <=? st.1).
    + rewrite load_past_end by lia. cbn.
      exists [min_sptSet; min_dist; min_dist_again].
      split; [by rewrite <- !app_assoc | by right].
    + cbn. exists [min_sptSet; min_dist].
      split; [by rewrite <- !app_assoc | by left].
  - rewrite (proj2 (Z.eqb_neq _ _) Hnz). cbn. by exists [min_sptSet].
Qed.

Lemma unsafe_minDistance_events dist sptSet log :
  Z.of_nat (length dist) = V -> Z.of_nat (length sptSet) = V ->
  exists evs,
    (minDistance junk dist sptSet log).2 = log ++ evs /\
    minDistance_events (junk (length log)) evs.
Proof.
  intros Hd Hs. unfold minDistance, bind.
  pose (I := fun (v : Z) (_ : Z * Z) (l : list oob) =>
    (v <= V -> l = log) /\
    (v = V + 1 -> exists evs, l = log ++ evs /\ minDistance_events (junk (length log)) evs)).
  assert (HI : let r := for_loop (Z.to_nat (V + 1)) (fun v => v <=? V) 0
                  (minDistance_step junk dist sptSet) (CInt.INT_MAX, -1) log in
               I (V + 1) r.1 r.2).
  { apply (for_loop_le_invariant I 0 V); [| unfold V; lia | reflexivity |].
    - intros v st l Hv [Hbefore _]. specialize (Hbefore (proj2 Hv)). subst l.
      destruct (Z.eq_dec v V) as [-> | Hne].
      + split; [lia |]. intros _. by apply unsafe_minDistance_step_at_V.
      + rewrite unsafe_minDistance_step_inside by (try assumption; lia).
        split; [reflexivity | lia].
    - split; [reflexivity | unfold V; lia]. }
  destruct HI as [_ HI]. specialize (HI eq_refl).
  destruct (for_loop _ _ _ _ _ log) as [st l]. exact HI.
Qed.

Lemma minDistance_events_filter s evs :
  minDistance_events s evs ->
  filter (fun e => oob_line e = 10%nat) evs = [min_sptSet].
Proof.
  unfold minDistance_events. destruct (decide (s = 0)); [intros [-> | ->] | intros ->];
    reflexivity.
Qed.

Lemma unsafe_relax_length graph sptSet u v dist log :
  length (relax junk graph sptSet u v dist log).1 = length dist.
Proof.
  unfold relax, bind. mem_cases; cbn; try reflexivity. apply store_length.
Qed.

Lemma unsafe_relax_emits graph sptSet u v dist :
  emits (fun e => oob_line e <> 10%nat) (relax junk graph sptSet u v dist).
Proof.
  unfold relax.
  repeat first
    [ apply emits_ret
    | apply emits_load; cbn; lia
    | apply emits_load2; intros; cbn; lia
    | apply emits_store; cbn; lia
    | apply emits_bind; [| intros ?]
    | match goal with |- emits _ (if ?c then _ else _) => destruct c end ].
Qed.

Lemma unsafe_relax_loop graph sptSet u dist log :
  let r := for_loop (Z.to_nat V) (fun v => v <? V) 0 (relax junk graph sptSet u) dist log in
  length r.1 = length dist /\
  exists evs, r.2 = log ++ evs /\ Forall (fun e => oob_line e <> 10%nat) evs.
Proof.
  cbv zeta. split.
  - apply (for_loop_lt_invariant (fun _ d _ => length d = length dist) 0 V);
      [| unfold V; lia | reflexivity | reflexivity].
    intros v d l _ Hd. by rewrite unsafe_relax_length.
  - apply (emits_for_loop (fun e => oob_line e <> 10%nat)).
    intros v d. apply unsafe_relax_emits.
Qed.

(** One iteration of the outer loop calls [minDistance] once. *)
Lemma unsafe_visit_events graph count st log :
  Z.of_nat (length st.1) = V -> Z.of_nat (length st.2) = V ->
  let r := visit junk graph count st log in
  Z.of_nat (length r.1.1) = V /\ Z.of_nat (length r.1.2) = V /\
  exists evs, r.2 = log ++ evs /\
              filter (fun e => oob_line e = 10%nat) evs = [min_sptSet].
Proof.
  intros Hd Hs. unfold visit, bind.
  destruct (unsafe_minDistance_events st.1 st.2 log Hd Hs) as (evs1 & H1 & Hev1).
  destruct (minDistance junk st.1 st.2 log) as [u log1]. cbn in H1. subst log1.
  pose proof (store_length 41 "sptSet" st.2 u 1 (log ++ evs1)) as Hlen2.
  destruct (emits_store (fun e => oob_line e <> 10%nat) 41 "sptSet" st.2 u 1
              ltac:(cbn; lia) (log ++ evs1)) as (evs2 & H2 & Hev2).
  destruct (store 41 "sptSet" st.2 u 1 (log ++ evs1)) as [sptSet' log2].
  cbn in Hlen2, H2. subst log2.
  destruct (unsafe_relax_loop graph sptSet' u st.1 ((log ++ evs1) ++ evs2))
    as (Hlen3 & evs3 & H3 & Hev3).
  destruct (for_loop _ _ _ _ st.1 _) as [dist' log3]. cbn in Hlen3, H3. subst log3.
  cbn. split; [lia |]. split; [lia |].
  exists (evs1 ++ evs2 ++ evs3). split; [by rewrite !app_assoc |].
  rewrite !filter_app, (minDistance_events_filter _ _ Hev1).
  by rewrite !filter_line_none.
Qed.

End DijkstraUnsafeProperties.

Section DijkstraUnsafeRun.
Import Mem DijkstraUnsafe.

Variable junk : nat -> Z.

(** The initialisation loop runs its body for [i = 0 .. V]; the last
    iteration stores to [dist[V]] and to [sptSet[V]]. *)
Lemma unsafe_init_loop :
  for_loop (Z.to_nat (V + 1)) (fun i => i <=? V) 0 init_step
    (replicate (Z.to_nat V) 0, replicate (Z.to_nat V) 0) [] =
  ((replicate (Z.to_nat V) CInt.INT_MAX, replicate (Z.to_nat V) 0),
   [init_dist; init_sptSet]).
Proof. reflexivity. Qed.

Lemma unsafe_printSolution_emits dist :
  emits (fun e => oob_line e <> 10%nat) (printSolution junk dist).
Proof.
  unfold printSolution. apply emits_for_loop. intros i [].
  apply emits_bind; [apply emits_load; cbn; lia | intros _; apply emits_ret].
Qed.

Lemma unsafe_dijkstra_events graph src :
  exists rest,
    (dijkstra junk graph src []).2 = init_dist :: init_sptSet :: rest /\
    filter (fun e => oob_line e = 10%nat) rest =
      replicate (Z.to_nat (V - 1)) min_sptSet.
Proof.
  unfold dijkstra, bind. rewrite unsafe_init_loop. cbn [fst snd].
  pose proof (store_length 37 "dist" (replicate (Z.to_nat V) CInt.INT_MAX) src 0
                [init_dist; init_sptSet]) as Hlen.
  destruct (emits_store (fun e => oob_line e <> 10%nat) 37 "dist"
              (replicate (Z.to_nat V) CInt.INT_MAX) src 0 ltac:(cbn; lia)
              [init_dist; init_sptSet]) as (evs0 & H0 & Hev0).
  destruct (store 37 "dist" _ src 0 _) as [dist0 log0]. cbn in Hlen, H0. subst log0.
  pose (I := fun (count : Z) (st : list Z * list Z) (l : list oob) =>
    Z.of_nat (length st.1) = V /\ Z.of_nat (length st.2) = V /\
    exists rest, l = init_dist :: init_sptSet :: rest /\
      filter (fun e => oob_line e = 10%nat) rest =
        replicate (Z.to_nat count) min_sptSet).
  assert (HI : let r := for_loop (Z.to_nat (V - 1)) (fun count => count <? V - 1) 0
                  (visit junk graph) (dist0, replicate (Z.to_nat V) 0)
                  ([init_dist; init_sptSet] ++ evs0) in
               I (V - 1) r.1 r.2).
  { apply (for_loop_lt_invariant I 0 (V - 1)); [| unfold V; lia | reflexivity |].
    - intros count st l Hc (Hd & Hs & rest & -> & Hrest).
      destruct (unsafe_visit_events junk graph count st
                  (init_dist :: init_sptSet :: rest) Hd Hs)
        as (Hd' & Hs' & evs & Hlog & Hev).
      split; [exact Hd' |]. split; [exact Hs' |].
      exists (rest ++ evs). split; [by rewrite Hlog |].
      rewrite filter_app, Hrest, Hev.
      replace (Z.to_nat (count + 1)) with (Z.to_nat count + 1)%nat by lia.
      by rewrite replicate_add.
    - unfold I. cbn [fst snd].
      split; [rewrite Hlen, length_replicate; unfold V; lia |].
      split; [rewrite length_replicate; unfold V; lia |].
      exists evs0. split; [reflexivity |]. by rewrite filter_line_none. }
  destruct (for_loop _ _ _ (visit junk graph) _ _) as [st l].
  unfold I in HI. cbv zeta in HI. cbn [fst snd] in HI.
  destruct HI as (_ & _ & rest & -> & Hrest). cbn [fst snd].
  destruct (unsafe_printSolution_emits st.1 (init_dist :: init_sptSet :: rest))
    as (evsp & Hp & Hevp).
  destruct (printSolution junk st.1 _) as [[] lp]. cbn in Hp. subst lp. cbn.
  exists (rest ++ evsp). split; [reflexivity |].
  by rewrite filter_app, Hrest, filter_line_none, app_nil_r.
Qed.

End DijkstraUnsafeRun.

(** C3. Every run of [dijkstra] of dijkstra_unsafe.c accesses the
    [V]-element arrays at index [V = 5]: the run starts with the stores to
    [dist[V]] (line 33) and [sptSet[V]] (line 34) of the last iteration of the
    initialisation loop, and each of the [V - 1] calls of [minDistance] reads
    [sptSet[V]] at line 10.  A call of [minDistance] on [V]-element arrays
    makes exactly these out-of-bounds accesses: the read of [sptSet[V]] and,
    when that read yields zero, the read of [dist[V]] at line 11 (and again at
    line 12 when the comparison holds).  Checked indexing of a [V]-element
    array at [V] returns [None], for a load and for a store. *)
Theorem dijkstra_unsafe_out_of_bounds :
  (forall (junk : nat -> Z) (graph : list (list Z)) (src : Z),
      exists rest,
        (DijkstraUnsafe.dijkstra junk graph src []).2 =
          DijkstraUnsafe.init_dist :: DijkstraUnsafe.init_sptSet :: rest /\
        filter (fun e => Mem.oob_line e = 10%nat) rest =
          replicate (Z.to_nat (DijkstraUnsafe.V - 1)) DijkstraUnsafe.min_sptSet) /\
  (forall (junk : nat -> Z) (dist sptSet : list Z) (log : list Mem.oob),
      Z.of_nat (length dist) = DijkstraUnsafe.V ->
      Z.of_nat (length sptSet) = DijkstraUnsafe.V ->
      exists evs,
        (DijkstraUnsafe.minDistance junk dist sptSet log).2 = log ++ evs /\
        DijkstraUnsafe.minDistance_events (junk (length log)) evs) /\
  (forall (a : list Z) (x : Z),
      Z.of_nat (length a) = DijkstraUnsafe.V ->
      Mem.index a DijkstraUnsafe.V = None /\
      Mem.update a DijkstraUnsafe.V x = None).
Proof.
  split; [| split].
  - intros junk graph src. apply unsafe_dijkstra_events.
  - intros junk dist sptSet log Hd Hs. by apply unsafe_minDistance_events.
  - intros a x Ha. split.
    + apply index_past_end. lia.
    + apply update_outside. lia.
Qed.

Lemma dijkstra_unsafe_out_of_bounds_witness :
  Z.of_nat (length [0; 0; 0; 0; 0]) = DijkstraUnsafe.V /\
  exists evs,
    (DijkstraUnsafe.minDistance (fun _ => 0) [0; 7; 3; 9; 1] [0; 0; 0; 0; 0] []).2
      = [] ++ evs /\
    DijkstraUnsafe.minDistance_events 0 evs.
Proof.
  split; [reflexivity |].
  destruct dijkstra_unsafe_out_of_bounds as (_ & H & _).
  exact (H (fun _ => 0) [0; 7; 3; 9; 1] [0; 0; 0; 0; 0] [] eq_refl eq_refl).
Defined.

(** ** dijkstra_safe.c *)

Section DijkstraSafeMinDistance.
Import Mem DijkstraSafe.

Variable junk : nat -> Z.

Lemma wrap_range (z : Z) : CInt.INT_MIN <= CInt.wrap z <= CInt.INT_MAX.
Proof.
  unfold CInt.wrap, CInt.INT_MIN, CInt.INT_MAX.
  pose proof (Z.mod_pos_bound (z + 2147483648) 4294967296 ltac:(lia)). lia.
Qed.

Lemma index_Forall {A} (Q : A -> Prop) (a : list A) (i : Z) (x : A) :
  Forall Q a -> index a i = Some x -> Q x.
Proof.
  intros Ha. unfold index. destruct (i <? 0); [discriminate |].
  intros Hx. eapply Forall_lookup_1; eassumption.
Qed.

(** One iteration of the loop of [minDistance], at an index inside the
    arrays: no access leaves them, and the state is either kept or becomes
    [(dist[v], v)] for an unprocessed [v] whose distance is at most [min]. *)
Lemma safe_minDistance_step dist sptSet v st log :
  Z.of_nat (length dist) = V -> Z.of_nat (length sptSet) = V -> 0 <= v < V ->
  exists s d,
    index sptSet v = Some s /\ index dist v = Some d /\
    minDistance_step junk dist sptSet v st log =
      (if (s =? 0) && (d <=? st.1) then (d, v) else st, log).
Proof.
  intros Hd Hs Hv. unfold minDistance_step, bind.
  destruct (load_in_bounds junk 11 "sptSet" sptSet v log) as (s & Hsv & ->); [lia |].
  destruct (index_in_bounds dist v ltac:(lia)) as [d Hdv].
  exists s, d. split; [exact Hsv |]. split; [exact Hdv |]. cbv beta iota.
  destruct (s =? 0); [| reflexivity].
  unfold load. rewrite Hdv. by destruct (d <=? st.1).
Qed.

(** [minDistance] stays inside the arrays, and returns a vertex, not its
    initial [-1], as soon as some vertex is unprocessed. *)
Lemma safe_minDistance dist sptSet log :
  Z.of_nat (length dist) = V -> Z.of_nat (length sptSet) = V ->
  Forall (fun d => d <= CInt.INT_MAX) dist ->
  (exists w, 0 <= w < V /\ index sptSet w = Some 0) ->
  let r := minDistance junk dist sptSet log in
  r.2 = log /\ 0 <= r.1 < V.
Proof.
  intros Hd Hs Hmax (w & Hw & Hw0). unfold minDistance, bind.
  pose (I := fun (v : Z) (st : Z * Z) (l : list oob) =>
    l = log /\
    (st.2 = -1 \/ 0 <= st.2 < v) /\
    (st.2 = -1 -> st.1 = CInt.INT_MAX) /\
    (w < v -> st.2 <> -1)).
  assert (HI : let r := for_loop (Z.to_nat V) (fun v => v <? V) 0
                  (minDistance_step junk dist sptSet) (CInt.INT_MAX, -1) log in
               I V r.1 r.2).
  { apply (for_loop_lt_invariant I 0 V); [| unfold V; lia | reflexivity |].
    - intros v st l Hv (-> & Hrange & Hinit & Hseen).
      destruct (safe_minDistance_step dist sptSet v st log Hd Hs Hv)
        as (s & d & Hsv & Hdv & ->).
      cbn [fst snd]. split; [reflexivity |].
      pose proof (index_Forall _ _ _ _ Hmax Hdv) as Hdmax. cbn in Hdmax.
      destruct (Z.eqb_spec s 0) as [-> | Hs0]; cbn [andb].
      + destruct (Z.leb_spec d st.1) as [Hle | Hgt]; cbn [fst snd].
        * split; [lia |]. split; [lia |]. lia.
        * split; [lia |]. split; [exact Hinit |].
          intros _ Hm. specialize (Hinit Hm). lia.
      + split; [lia |]. split; [exact Hinit |].
        intros Hwv. destruct (Z.eq_dec w v) as [-> | Hne]; [congruence |].
        apply Hseen. lia.
    - unfold I. cbn [fst snd]. split; [reflexivity |]. split; [by left |].
      split; [reflexivity | lia]. }
  destruct (for_loop _ _ _ _ _ log) as [st l].
  unfold I in HI. cbv zeta in HI. cbn [fst snd] in HI.
  destruct HI as (-> & Hrange & _ & Hseen). cbn. split; [reflexivity |].
  specialize (Hseen ltac:(lia)). lia.
Qed.

End DijkstraSafeMinDistance.

Section DijkstraSafeRun.
Import Mem DijkstraSafe.

Variable junk : nat -> Z.

Lemma load2_in_bounds line name (m : list (list Z)) i j log :
  Z.of_nat (length m) = V -> Forall (fun row => Z.of_nat (length row) = V) m ->
  0 <= i < V -> 0 <= j < V ->
  exists g, load2 junk line name m i j log = (g, log).
Proof.
  intros Hm Hrows Hi Hj. unfold load2.
  destruct (index_in_bounds m i ltac:(lia)) as [row Hrow]. rewrite Hrow.
  pose proof (index_Forall _ _ _ _ Hrows Hrow) as Hlen. cbn in Hlen.
  destruct (load_in_bounds junk line name row j log) as (g & _ & ->); [lia |].
  by exists g.
Qed.

(** Loads inside the arrays: rewrite them away, one at a time. *)
Ltac load_inside dims rows :=
  match goal with
  | |- context [load junk ?l ?n ?a ?i ?log] =>
      let H := fresh in
      destruct (load_in_bounds junk l n a i log) as (? & _ & H); [lia |];
      rewrite H; clear H; cbv beta iota
  | |- context [load2 junk ?l ?n ?m ?i ?k ?log] =>
      let H := fresh in
      destruct (load2_in_bounds l n m i k log dims rows) as (? & H); [lia | lia |];
      rewrite H; clear H; cbv beta iota
  end.

Lemma safe_relax graph sptSet u v dist log :
  Z.of_nat (length graph) = V ->
  Forall (fun row => Z.of_nat (length row) = V) graph ->
  Z.of_nat (length dist) = V -> Z.of_nat (length sptSet) = V ->
  Forall (fun d => d <= CInt.INT_MAX) dist ->
  0 <= u < V -> 0 <= v < V ->
  let r := relax junk graph sptSet u v dist log in
  r.2 = log /\ length r.1 = length dist /\ Forall (fun d => d <= CInt.INT_MAX) r.1.
Proof.
  intros Hg Hrows Hd Hs Hmax Hu Hv. unfold relax, bind.
  load_inside Hg Hrows. destruct (_ =? 0); [| by cbn].
  load_inside Hg Hrows. destruct (negb _); [| by cbn].
  load_inside Hg Hrows. destruct (negb _); [| by cbn].
  do 3 load_inside Hg Hrows. destruct (_ <? _); [| by cbn].
  do 2 load_inside Hg Hrows.
  rewrite store_in_bounds by lia. cbn.
  split; [reflexivity |]. split; [by rewrite length_insert |].
  apply Forall_insert; [exact Hmax |]. apply wrap_range.
Qed.

Lemma safe_relax_loop graph sptSet u dist log :
  Z.of_nat (length graph) = V ->
  Forall (fun row => Z.of_nat (length row) = V) graph ->
  Z.of_nat (length dist) = V -> Z.of_nat (length sptSet) = V ->
  Forall (fun d => d <= CInt.INT_MAX) dist ->
  0 <= u < V ->
  let r := for_loop (Z.to_nat V) (fun v => v <? V) 0 (relax junk graph sptSet u) dist log in
  r.2 = log /\ Z.of_nat (length r.1) = V /\ Forall (fun d => d <= CInt.INT_MAX) r.1.
Proof.
  intros Hg Hrows Hd Hs Hmax Hu.
  apply (for_loop_lt_invariant
           (fun _ d l => l = log /\ Z.of_nat (length d) = V /\
                         Forall (fun x => x <= CInt.INT_MAX) d) 0 V);
    [| unfold V; lia | reflexivity | by repeat split].
  intros v d l Hv (-> & Hdl & Hdmax).
  destruct (safe_relax graph sptSet u v d log Hg Hrows Hdl Hs Hdmax Hu Hv)
    as (Hlog & Hlen & Hmax').
  split; [exact Hlog |]. split; [lia | exact Hmax'].
Qed.

Lemma processed_insert (l : list Z) (i : nat) (x : Z) :
  (processed (<[i := x]> l) <= S (processed l))%nat.
Proof.
  unfold processed. revert i.
  induction l as [| a l IH]; intros i; [destruct i; cbn; lia |].
  destruct i as [| i];
    [change (<[0%nat := x]> (a :: l)) with (x :: l)
    | change (<[S i := x]> (a :: l)) with (a :: <[i := x]> l)];
    rewrite !filter_cons.
  - destruct (decide (x <> 0)), (decide (a <> 0)); cbn [length]; lia.
  - specialize (IH i). destruct (decide (a <> 0)); cbn [length]; lia.
Qed.

Lemma unprocessed_exists (l : list Z) :
  (processed l < length l)%nat -> exists w : nat, l !! w = Some 0.
Proof.
  unfold processed. induction l as [| a l IH]; [cbn; lia |].
  rewrite filter_cons. destruct (decide (a <> 0)) as [Hne | Heq]; cbn.
  - intros Hlt. destruct IH as [w Hw]; [lia |]. by exists (S w).
  - intros _. exists 0%nat. cbn. f_equal. lia.
Qed.

(** One iteration of the outer loop: [minDistance] returns a vertex, and
    the stores and loads that use it stay inside the arrays. *)
Lemma safe_visit graph count st log :
  Z.of_nat (length graph) = V ->
  Forall (fun row => Z.of_nat (length row) = V) graph ->
  Z.of_nat (length st.1) = V -> Z.of_nat (length st.2) = V ->
  Forall (fun d => d <= CInt.INT_MAX) st.1 ->
  (processed st.2 <= Z.to_nat count)%nat -> 0 <= count < V - 1 ->
  let r := visit junk graph count st log in
  r.2 = log /\
  Z.of_nat (length r.1.1) = V /\ Z.of_nat (length r.1.2) = V /\
  Forall (fun d => d <= CInt.INT_MAX) r.1.1 /\
  (processed r.1.2 <= Z.to_nat (count + 1))%nat.
Proof.
  intros Hg Hrows Hd Hs Hmax Hproc Hcount. unfold visit, bind.
  destruct (unprocessed_exists st.2) as [w Hw]; [lia |].
  destruct (safe_minDistance junk st.1 st.2 log Hd Hs Hmax) as [Hlog Hu].
  { exists (Z.of_nat w). pose proof (lookup_lt_Some _ _ _ Hw). split; [lia |].
    unfold index. destruct (Z.ltb_spec (Z.of_nat w) 0); [lia |].
    by rewrite Nat2Z.id. }
  destruct (minDistance junk st.1 st.2 log) as [u l]. cbn in Hlog, Hu. subst l.
  rewrite store_in_bounds by lia.
  destruct (safe_relax_loop graph (<[Z.to_nat u := 1]> st.2) u st.1 log)
    as (Hlog' & Hlen' & Hmax'); try assumption; [by rewrite length_insert |].
  destruct (for_loop _ _ _ _ st.1 log) as [dist' l]. cbn in Hlog', Hlen', Hmax'.
  subst l. unfold ret. cbn [fst snd]. split; [reflexivity |]. split; [exact Hlen' |].
  split; [by rewrite length_insert |]. split; [exact Hmax' |].
  pose proof (processed_insert st.2 (Z.to_nat u) 1). lia.
Qed.

Lemma safe_printSolution dist log :
  Z.of_nat (length dist) = V -> (printSolution junk dist log).2 = log.
Proof.
  intros Hd. unfold printSolution.
  apply (for_loop_lt_invariant (fun _ (_ : unit) l => l = log) 0 V);
    [| unfold V; lia | reflexivity | reflexivity].
  intros i [] l Hi ->. unfold bind.
  destruct (load_in_bounds junk 22 "dist" dist i log) as (d & _ & ->); [lia |].
  reflexivity.
Qed.

Lemma safe_init_loop :
  for_loop (Z.to_nat V) (fun i => i <? V) 0 init_step
    (replicate (Z.to_nat V) 0, replicate (Z.to_nat V) 0) [] =
  ((replicate (Z.to_nat V) CInt.INT_MAX, replicate (Z.to_nat V) 0), []).
Proof. reflexivity. Qed.

Lemma safe_dijkstra graph src :
  Z.of_nat (length graph) = V ->
  Forall (fun row => Z.of_nat (length row) = V) graph ->
  0 <= src < V ->
  (dijkstra junk graph src []).2 = [].
Proof.
  intros Hg Hrows Hsrc. unfold dijkstra, bind. rewrite safe_init_loop. cbn [fst snd].
  rewrite store_in_bounds by (rewrite length_replicate; unfold V in *; lia).
  pose (I := fun (count : Z) (st : list Z * list Z) (l : list oob) =>
    l = [] /\ Z.of_nat (length st.1) = V /\ Z.of_nat (length st.2) = V /\
    Forall (fun d => d <= CInt.INT_MAX) st.1 /\
    (processed st.2 <= Z.to_nat count)%nat).
  assert (HI : let r := for_loop (Z.to_nat (V - 1)) (fun count => count <? V - 1) 0
                  (visit junk graph)
                  (<[Z.to_nat src := 0]> (replicate (Z.to_nat V) CInt.INT_MAX),
                   replicate (Z.to_nat V) 0) [] in
               I (V - 1) r.1 r.2).
  { apply (for_loop_lt_invariant I 0 (V - 1)); [| unfold V; lia | reflexivity |].
    - intros count st l Hc (-> & Hd & Hs & Hmax & Hproc).
      by apply safe_visit.
    - unfold I. cbn [fst snd]. split; [reflexivity |].
      split; [rewrite length_insert, length_replicate; unfold V; lia |].
      split; [rewrite length_replicate; unfold V; lia |].
      split; [| vm_compute; lia].
      apply Forall_insert; [| unfold CInt.INT_MAX; lia].
      apply Forall_replicate. lia. }
  destruct (for_loop _ _ _ (visit junk graph) _ _) as [st l].
  unfold I in HI. cbv zeta in HI. cbn [fst snd] in HI.
  destruct HI as (-> & Hd & _). cbn [fst snd].
  pose proof (safe_printSolution st.1 [] Hd) as Hp.
  destruct (printSolution junk st.1 []) as [[] lp]. cbn in Hp. by subst lp.
Qed.

End DijkstraSafeRun.

(** C4, as stated, fails: nothing in [dijkstra] keeps [src] inside
    [0 .. V - 1], and with [src = 5] the store [dist[src] = 0] of line 37
    leaves [dist]. *)
Lemma dijkstra_safe_src_past_end :
  (DijkstraSafe.dijkstra (fun _ => 0) DijkstraSafe.main_graph 5 []).2 =
    [Mem.OOB Mem.Store "dist" 5 37] /\
  (DijkstraSafe.dijkstra (fun _ => 0) DijkstraSafe.main_graph 5 []).2 <> [].
Proof. split; [vm_compute; reflexivity | vm_compute; discriminate]. Qed.

(** C4, amended. On a [V] by [V] matrix and with [0 <= src < V], as in the
    call [dijkstra(graph, 0)] of [main], a run of [dijkstra] of
    dijkstra_safe.c makes no out-of-bounds access, whatever the weights are.
    [minDistance] makes none on [V]-element arrays and returns a vertex in
    [0 .. V - 1], not its initial [-1], whenever some vertex is still
    unprocessed and no distance exceeds [INT_MAX]; this is the case in each
    of the [V - 1] iterations of the outer loop, which has processed at most
    [count] vertices when iteration [count] starts. *)
Theorem dijkstra_safe_in_bounds :
  (forall (junk : nat -> Z) (graph : list (list Z)) (src : Z),
      Z.of_nat (length graph) = DijkstraSafe.V ->
      Forall (fun row => Z.of_nat (length row) = DijkstraSafe.V) graph ->
      0 <= src < DijkstraSafe.V ->
      (DijkstraSafe.dijkstra junk graph src []).2 = []) /\
  (forall (junk : nat -> Z) (dist sptSet : list Z) (log : list Mem.oob),
      Z.of_nat (length dist) = DijkstraSafe.V ->
      Z.of_nat (length sptSet) = DijkstraSafe.V ->
      Forall (fun d => d <= CInt.INT_MAX) dist ->
      (exists w, 0 <= w < DijkstraSafe.V /\ Mem.index sptSet w = Some 0) ->
      (DijkstraSafe.minDistance junk dist sptSet log).2 = log /\
      0 <= (DijkstraSafe.minDistance junk dist sptSet log).1 < DijkstraSafe.V) /\
  (forall (junk : nat -> Z) (graph : list (list Z)) (count : Z)
          (st : list Z * list Z) (log : list Mem.oob),
      Z.of_nat (length graph) = DijkstraSafe.V ->
      Forall (fun row => Z.of_nat (length row) = DijkstraSafe.V) graph ->
      Z.of_nat (length st.1) = DijkstraSafe.V ->
      Z.of_nat (length st.2) = DijkstraSafe.V ->
      Forall (fun d => d <= CInt.INT_MAX) st.1 ->
      (DijkstraSafe.processed st.2 <= Z.to_nat count)%nat ->
      0 <= count < DijkstraSafe.V - 1 ->
      let r := DijkstraSafe.visit junk graph count st log in
      r.2 = log /\
      Z.of_nat (length r.1.1) = DijkstraSafe.V /\
      Z.of_nat (length r.1.2) = DijkstraSafe.V /\
      Forall (fun d => d <= CInt.INT_MAX) r.1.1 /\
      (DijkstraSafe.processed r.1.2 <= Z.to_nat (count + 1))%nat).
Proof.
  split; [| split].
  - intros junk graph src Hg Hrows Hsrc. by apply safe_dijkstra.
  - intros junk dist sptSet log Hd Hs Hmax Hw. by apply safe_minDistance.
  - intros junk graph count st log Hg Hrows Hd Hs Hmax Hproc Hcount.
    by apply safe_visit.
Qed.

Lemma dijkstra_safe_in_bounds_witness :
  Z.of_nat (length DijkstraSafe.main_graph) = DijkstraSafe.V /\
  Forall (fun row => Z.of_nat (length row) = DijkstraSafe.V) DijkstraSafe.main_graph /\
  0 <= 0 < DijkstraSafe.V /\
  (DijkstraSafe.main (fun _ => 0) []).2 = [].
Proof.
  assert (Hrows : Forall (fun row => Z.of_nat (length row) = DijkstraSafe.V)
                    DijkstraSafe.main_graph).
  { unfold DijkstraSafe.main_graph. repeat (apply Forall_cons; split; [reflexivity |]).
    apply Forall_nil_2. }
  assert (Hsrc : 0 <= 0 < DijkstraSafe.V) by (unfold DijkstraSafe.V; lia).
  split; [reflexivity |]. split; [exact Hrows |]. split; [exact Hsrc |].
  exact (proj1 dijkstra_safe_in_bounds (fun _ => 0) DijkstraSafe.main_graph 0
           eq_refl Hrows Hsrc).
Defined.

(** ** str_copy.c *)

Section StrCopyProperties.
Import StrCopy.

Variable smem : list byte.

Lemma write_hole (pre post : list byte) (h c : byte) :
  write (pre ++ h :: post) (length pre) c = Some (pre ++ c :: post).
Proof.
  unfold write. rewrite decide_True by (rewrite length_app; cbn; lia).
  f_equal. replace (length pre) with (length pre + 0)%nat at 1 by lia.
  by rewrite insert_app_r.
Qed.

Lemma string_at_head (sp : nat) (c : byte) (s rest : list byte) :
  drop sp smem = c :: s ->
  smem !! sp = Some c /\ drop (sp + 1) smem = s.
Proof.
  intros Hdrop. split.
  - replace sp with (sp + 0)%nat by lia. rewrite <- lookup_drop. by rewrite Hdrop.
  - replace (sp + 1)%nat with (sp + 1)%nat by lia.
    rewrite <- drop_drop, Hdrop. reflexivity.
Qed.

(** The first loop copies up to [k] characters and stops after the NUL. *)
Lemma copy_loop_spec (rest post : list byte) :
  forall (k : nat) (s pre hole : list byte) (sp : nat),
    drop sp smem = s ++ NUL :: rest ->
    Forall (fun c => c <> NUL) s ->
    length hole = k ->
    copy_loop smem k (pre ++ hole ++ post) (length pre) sp =
      Some (if decide (k <= length s)%nat
            then State (pre ++ take k s ++ post) (length pre + k) (sp + k) 0
            else State (pre ++ (s ++ [NUL]) ++ drop (length s + 1) hole ++ post)
                       (length pre + (length s + 1)) (sp + (length s + 1))
                       (k - length s)).
Proof.
  induction k as [| k IH]; intros s pre hole sp Hsrc Hs Hhole.
  - destruct hole; [| discriminate]. cbn. rewrite decide_True by lia.
    by rewrite take_0, !Nat.add_0_r.
  - destruct hole as [| h hole]; [discriminate |]. cbn in Hhole.
    cbn [copy_loop]. destruct s as [| c s].
    + destruct (string_at_head sp NUL rest rest Hsrc) as [-> _]. cbn.
      rewrite write_hole. cbn.
      rewrite decide_False by (cbn; lia). by rewrite drop_0.
    + destruct (string_at_head sp c (s ++ NUL :: rest) rest Hsrc) as [-> Hnext]. cbn.
      rewrite write_hole. cbn.
      apply Forall_cons in Hs as [Hc Hs].
      destruct (Byte.eqb c NUL) eqn:Hcn; [by apply Byte.byte_dec_bl in Hcn |].
      specialize (IH s (pre ++ [c]) hole (sp + 1)%nat Hnext Hs ltac:(lia)).
      rewrite length_app in IH. cbn [length] in IH.
      rewrite <- app_assoc in IH. cbn [app] in IH. rewrite IH. f_equal.
      destruct (decide (k <= length s)%nat), (decide (S k <= S (length s))%nat);
        try lia.
      * rewrite <- !app_assoc. cbn. f_equal; lia.
      * rewrite <- !app_assoc. cbn. f_equal; lia.
Qed.

(** The second loop writes [m] NULs. *)
Lemma pad_loop_spec (post : list byte) :
  forall (m : nat) (pre hole : list byte),
    length hole = m ->
    pad_loop m (pre ++ hole ++ post) (length pre) =
      Some (pre ++ replicate m NUL ++ post, (length pre + m)%nat).
Proof.
  induction m as [| m IH]; intros pre hole Hhole.
  - destruct hole; [| discriminate]. cbn. by rewrite Nat.add_0_r.
  - destruct hole as [| h hole]; [discriminate |]. cbn in Hhole.
    cbn [pad_loop]. cbn. rewrite write_hole. cbn.
    specialize (IH (pre ++ [NUL]) hole ltac:(lia)).
    rewrite length_app in IH. cbn [length] in IH.
    rewrite <- app_assoc in IH. cbn [app] in IH. rewrite IH.
    rewrite <- app_assoc. cbn. do 2 f_equal. lia.
Qed.

End StrCopyProperties.

Section StrCopyReference.
Import StrCopy.

Lemma reference_shape (s : list byte) (k : nat) :
  length (reference s k) = k /\
  (length s < k -> reference s k = s ++ replicate (k - length s) NUL)%nat /\
  (k <= length s -> reference s k = take k s)%nat.
Proof.
  unfold reference. split; [| split].
  - rewrite length_take, length_app, length_replicate. lia.
  - intros Hlt. apply take_ge. rewrite length_app, length_replicate. lia.
  - intros Hle. by rewrite take_app_le.
Qed.

Lemma split_at (mem : list byte) (p k : nat) :
  (p + k <= length mem)%nat ->
  mem = take p mem ++ take k (drop p mem) ++ drop (p + k) mem /\
  length (take p mem) = p /\ length (take k (drop p mem)) = k.
Proof.
  intros Hroom. split; [| split].
  - rewrite <- drop_drop, take_drop, take_drop. reflexivity.
  - rewrite length_take. lia.
  - rewrite length_take, length_drop. lia.
Qed.

Lemma strncpy_spec (mem smem : list byte) (p sp k : nat) (s rest : list byte) :
  drop sp smem = s ++ NUL :: rest ->
  Forall (fun c => c <> NUL) s ->
  (p + k <= length mem)%nat ->
  strncpy mem smem p sp k =
    Some (p, take p mem ++ reference s k ++ drop (p + k) mem) /\
  exists st,
    copy_loop smem k mem p sp = Some st /\
    StrCopy.dst st = (p + Nat.min (length s + 1) k)%nat /\
    StrCopy.n st = (k - length s)%nat.
Proof.
  intros Hsrc Hs Hroom.
  destruct (split_at mem p k Hroom) as (Hmem & Hpre & Hhole).
  set (pre := take p mem) in *. set (hole := take k (drop p mem)) in *.
  set (post := drop (p + k)%nat mem) in *.
  pose proof (copy_loop_spec smem rest post k s pre hole sp Hsrc Hs Hhole) as Hcopy.
  rewrite Hpre, <- Hmem in Hcopy.
  destruct (reference_shape s k) as (_ & Hpad & Hcut).
  unfold strncpy. rewrite Hcopy.
  destruct (decide (k <= length s)%nat) as [Hle | Hgt]; cbn.
  - split; [by rewrite Hcut |]. eexists. split; [reflexivity |]. cbn. lia.
  - split.
    + destruct (k - length s)%nat as [| m] eqn:Hm; [lia |].
      assert (Hpre' : length (pre ++ s ++ [NUL]) = (p + (length s + 1))%nat).
      { rewrite !length_app. cbn. lia. }
      pose proof (pad_loop_spec post m (pre ++ s ++ [NUL]) (drop (length s + 1) hole))
        as Hfill.
      rewrite Hpre', <- !app_assoc in Hfill. rewrite <- !app_assoc.
      rewrite Hfill by (rewrite length_drop; lia). cbn.
      rewrite Hpad by lia. rewrite ?Hm. cbn. by rewrite <- !app_assoc.
    + eexists. split; [reflexivity |]. cbn. lia.
Qed.

End StrCopyReference.

(** C8. For a string [s] of length [L] (characters other than NUL, followed
    by a NUL) at [src], and [n] characters of room at [dst], [strncpy]
    returns the pointer [dst] it was given and leaves the array unchanged
    outside [dst .. dst + n - 1]; the [n] characters written are the first
    [min L n] characters of [s], followed by NULs up to length [n] when
    [L < n]; when [L >= n] they are the first [n] characters of [s], with no
    NUL among them.  The first loop leaves [dst] advanced by
    [min (L + 1) n] and [n] decreased by [min L n]: the iteration that
    copies the NUL does not decrement [n]. *)
Theorem strncpy_reference (mem smem : list byte) (p sp k : nat) (s rest : list byte) :
  drop sp smem = s ++ StrCopy.NUL :: rest ->
  Forall (fun c => c <> StrCopy.NUL) s ->
  (p + k <= length mem)%nat ->
  StrCopy.strncpy mem smem p sp k =
    Some (p, take p mem ++ StrCopy.reference s k ++ drop (p + k) mem) /\
  length (StrCopy.reference s k) = k /\
  take (Nat.min (length s) k) (StrCopy.reference s k) = take (Nat.min (length s) k) s /\
  (length s < k ->
   StrCopy.reference s k = s ++ replicate (k - length s) StrCopy.NUL)%nat /\
  (k <= length s ->
   StrCopy.reference s k = take k s /\
   Forall (fun c => c <> StrCopy.NUL) (StrCopy.reference s k))%nat /\
  exists st,
    StrCopy.copy_loop smem k mem p sp = Some st /\
    StrCopy.dst st = (p + Nat.min (length s + 1) k)%nat /\
    StrCopy.n st = (k - Nat.min (length s) k)%nat.
Proof.
  intros Hsrc Hs Hroom.
  destruct (strncpy_spec mem smem p sp k s rest Hsrc Hs Hroom) as (Hres & st & Hst & Hd & Hn).
  destruct (reference_shape s k) as (Hlen & Hpad & Hcut).
  split; [exact Hres |]. split; [exact Hlen |]. split; [| split; [exact Hpad | split]].
  - destruct (decide (k <= length s)%nat) as [Hle | Hgt].
    + rewrite Hcut by exact Hle. rewrite Nat.min_r by exact Hle.
      rewrite take_take. f_equal. lia.
    + rewrite Hpad by lia. rewrite Nat.min_l by lia. by rewrite take_app_length, take_ge.
  - intros Hle. split; [by apply Hcut |]. rewrite Hcut by exact Hle.
    by apply Forall_take.
  - exists st. split; [exact Hst |]. split; [exact Hd |]. lia.
Qed.

Lemma strncpy_reference_witness :
  drop 0 [x68; x69; x00; x21] = [x68; x69] ++ StrCopy.NUL :: [x21] /\
  Forall (fun c => c <> StrCopy.NUL) [x68; x69] /\
  (1 + 4 <= length [x2e; x2e; x2e; x2e; x2e; x2e])%nat /\
  StrCopy.strncpy [x2e; x2e; x2e; x2e; x2e; x2e] [x68; x69; x00; x21] 1 0 4 =
    Some (1%nat, [x2e; x68; x69; x00; x00; x2e]).
Proof.
  assert (Hs : Forall (fun c => c <> StrCopy.NUL) [x68; x69]).
  { repeat (apply Forall_cons; split; [discriminate |]). apply Forall_nil_2. }
  assert (Hroom : (1 + 4 <= length [x2e; x2e; x2e; x2e; x2e; x2e])%nat) by (cbn; lia).
  split; [reflexivity |]. split; [exact Hs |]. split; [exact Hroom |].
  exact (proj1 (strncpy_reference [x2e; x2e; x2e; x2e; x2e; x2e] [x68; x69; x00; x21]
                  1 0 4 [x68; x69] [x21] eq_refl Hs Hroom)).
Defined.

(** ** The join of abstract states *)

Section FlatJoin.
Import Checker.

Context {A : Type} `{EqDecision A} (top : A).

Lemma flat_join_idemp (a : A) : flat_join top a a = a.
Proof. unfold flat_join. by rewrite decide_True. Qed.

Lemma flat_join_comm (a b : A) : flat_join top a b = flat_join top b a.
Proof. unfold flat_join. repeat case_decide; congruence. Qed.

Lemma flat_join_assoc (a b c : A) :
  flat_join top (flat_join top a b) c = flat_join top a (flat_join top b c).
Proof. unfold flat_join. repeat case_decide; congruence. Qed.

Lemma lookup_map_join (m1 m2 : gmap string A) (k : string) :
  map_join top m1 m2 !! k =
    match m1 !! k, m2 !! k with
    | Some a, Some b => Some (flat_join top a b)
    | _, _ => None
    end.
Proof.
  unfold map_join. rewrite lookup_intersection_with.
  by destruct (m1 !! k), (m2 !! k).
Qed.

Lemma map_join_idemp (m : gmap string A) : map_join top m m = m.
Proof.
  apply map_eq. intros k. rewrite lookup_map_join.
  destruct (m !! k); [by rewrite flat_join_idemp | reflexivity].
Qed.

Lemma map_join_comm (m1 m2 : gmap string A) : map_join top m1 m2 = map_join top m2 m1.
Proof.
  apply map_eq. intros k. rewrite !lookup_map_join.
  destruct (m1 !! k), (m2 !! k); try reflexivity. by rewrite flat_join_comm.
Qed.

Lemma map_join_assoc (m1 m2 m3 : gmap string A) :
  map_join top (map_join top m1 m2) m3 = map_join top m1 (map_join top m2 m3).
Proof.
  apply map_eq. intros k. rewrite !lookup_map_join.
  destruct (m1 !! k), (m2 !! k), (m3 !! k); try reflexivity.
  by rewrite flat_join_assoc.
Qed.

End FlatJoin.

Section JoinLaws.
Import Checker.

Lemma state_eq (S1 S2 : AbstractState) :
  pointers S1 = pointers S2 -> bounds S1 = bounds S2 ->
  freed_merged S1 = freed_merged S2 -> live_merged S1 = live_merged S2 ->
  S1 = S2.
Proof. destruct S1, S2. cbn. by intros -> -> -> ->. Qed.

Lemma status_of_join (S1 S2 : AbstractState) (v : string) :
  status_of (join S1 S2) v = flat_join Unknown (status_of S1 v) (status_of S2 v).
Proof.
  unfold status_of, join. cbn [pointers]. rewrite lookup_map_join.
  destruct (pointers S1 !! v) as [a |], (pointers S2 !! v) as [b |]; cbn;
    try reflexivity; unfold flat_join; by case_decide.
Qed.

Lemma status_in_dom (S0 : AbstractState) (v : string) :
  status_of S0 v <> Unknown -> v ∈ dom (pointers S0).
Proof.
  unfold status_of. intros Hv. apply elem_of_dom.
  destruct (pointers S0 !! v); [eauto | done].
Qed.

Section Merged.

Variable kind : PointerStatus -> bool.
Hypothesis kind_known : kind Unknown = false.

Lemma elem_of_merged (S1 S2 : AbstractState) (v : string) :
  v ∈ merged kind S1 S2 <->
  status_of S1 v <> status_of S2 v /\
  (kind (status_of S1 v) = true \/ kind (status_of S2 v) = true).
Proof.
  unfold merged. rewrite elem_of_filter, elem_of_union. split; [tauto |].
  intros [Hne Hkind]. split; [by split |].
  destruct Hkind as [Hk | Hk]; [left | right]; apply status_in_dom; congruence.
Qed.

Lemma merged_dom (S1 S2 : AbstractState) :
  merged kind S1 S2 ⊆ dom (pointers S1) ∪ dom (pointers S2).
Proof. unfold merged. intros v Hv. by apply elem_of_filter in Hv as [_ Hv]. Qed.

Lemma merged_idemp (S0 : AbstractState) : merged kind S0 S0 = ∅.
Proof.
  apply set_eq. intros v. rewrite elem_of_merged, elem_of_empty. tauto.
Qed.

Lemma merged_comm (S1 S2 : AbstractState) : merged kind S1 S2 = merged kind S2 S1.
Proof.
  apply set_eq. intros v. rewrite !elem_of_merged. split; intros [Hne Hk];
    (split; [congruence | tauto]).
Qed.

(** A status of the given kind is merged somewhere in a join of three
    states when one of the three has it and the three do not agree,
    however the join is bracketed. *)
Lemma merged_three (a b c : PointerStatus) :
  (a <> b /\ (kind a = true \/ kind b = true)) \/
  (flat_join Unknown a b <> c /\ (kind (flat_join Unknown a b) = true \/ kind c = true))
  <->
  (kind a = true \/ kind b = true \/ kind c = true) /\ ~ (a = b /\ b = c).
Proof.
  unfold flat_join. case_decide as Hab.
  - subst b. split.
    + intros [[Hne _] | [Hne Hk]]; [done |]. split; [tauto |]. by intros [_ ->].
    + intros [Hk Hne]. right. split; [| tauto]. intros ->. by apply Hne.
  - rewrite kind_known. split.
    + intros [[_ Hk] | [_ [Hk | Hk]]]; try discriminate;
        (split; [tauto | by intros [-> _]]).
    + intros [[Hk | [Hk | Hk]] _]; try tauto.
      right. split; [| tauto]. intros <-. congruence.
Qed.

Lemma merged_three_r (a b c : PointerStatus) :
  (b <> c /\ (kind b = true \/ kind c = true)) \/
  (a <> flat_join Unknown b c /\ (kind a = true \/ kind (flat_join Unknown b c) = true))
  <->
  (kind a = true \/ kind b = true \/ kind c = true) /\ ~ (a = b /\ b = c).
Proof.
  unfold flat_join. case_decide as Hbc.
  - subst c. split.
    + intros [[Hne _] | [Hne Hk]]; [done |]. split; [tauto |]. by intros [-> _].
    + intros [Hk Hne]. right. split; [| tauto]. intros ->. by apply Hne.
  - rewrite kind_known. split.
    + intros [[_ Hk] | [_ [Hk | Hk]]]; try discriminate;
        (split; [tauto | by intros [_ ->]]).
    + intros [[Hk | [Hk | Hk]] _]; try tauto.
      right. split; [| tauto]. intros ->. congruence.
Qed.

Lemma merged_assoc (S1 S2 S3 : AbstractState) :
  merged kind S1 S2 ∪ merged kind (join S1 S2) S3 =
  merged kind S2 S3 ∪ merged kind S1 (join S2 S3).
Proof.
  apply set_eq. intros v.
  rewrite !elem_of_union, !elem_of_merged, !status_of_join.
  by rewrite merged_three, merged_three_r.
Qed.

End Merged.

Lemma union_merged (X1 X2 X3 M1 M2 N1 N2 : gset string) :
  M1 ∪ M2 = N1 ∪ N2 ->
  X1 ∪ X2 ∪ M1 ∪ X3 ∪ M2 = X1 ∪ (X2 ∪ X3 ∪ N1) ∪ N2.
Proof.
  intros HM. apply set_eq. intros v.
  assert (Hv : v ∈ M1 ∪ M2 <-> v ∈ N1 ∪ N2) by (by rewrite HM).
  rewrite !elem_of_union in *. tauto.
Qed.

Lemma join_idemp (S0 : AbstractState) : join S0 S0 = S0.
Proof.
  apply state_eq; unfold join; cbn [pointers bounds freed_merged live_merged].
  - apply map_join_idemp.
  - apply map_join_idemp.
  - rewrite merged_idemp by reflexivity. by rewrite union_empty_r_L, union_idemp_L.
  - rewrite merged_idemp by reflexivity. by rewrite union_empty_r_L, union_idemp_L.
Qed.

Lemma join_comm (S1 S2 : AbstractState) : join S1 S2 = join S2 S1.
Proof.
  apply state_eq; unfold join; cbn [pointers bounds freed_merged live_merged].
  - apply map_join_comm.
  - apply map_join_comm.
  - rewrite (merged_comm is_freed) by reflexivity.
    by rewrite (union_comm_L (freed_merged S1)).
  - rewrite (merged_comm is_live) by reflexivity.
    by rewrite (union_comm_L (live_merged S1)).
Qed.

Lemma join_assoc (S1 S2 S3 : AbstractState) :
  join (join S1 S2) S3 = join S1 (join S2 S3).
Proof.
  apply state_eq.
  - apply map_join_assoc.
  - apply map_join_assoc.
  - exact (union_merged _ _ _ _ _ _ _ (merged_assoc is_freed eq_refl S1 S2 S3)).
  - exact (union_merged _ _ _ _ _ _ _ (merged_assoc is_live eq_refl S1 S2 S3)).
Qed.

(** The join is monotone for the order of the lattice. *)
Lemma join_mono_l (S1 S1' S2 : AbstractState) :
  le S1 S1' -> le (join S1 S2) (join S1' S2).
Proof.
  unfold le. intros Hle.
  rewrite join_assoc, (join_comm S1' S2), <- (join_assoc S2 S2 S1'), join_idemp.
  by rewrite (join_comm S2 S1'), <- join_assoc, Hle.
Qed.

Lemma elem_of_conflicts (S1 S2 : AbstractState) (v : string) :
  v ∈ conflicts S1 S2 <->
  exists a b, pointers S1 !! v = Some a /\ pointers S2 !! v = Some b /\
              is_conflict a b = true.
Proof.
  unfold conflicts. rewrite elem_of_dom. unfold is_Some. split.
  - intros [x Hx]. apply lookup_intersection_with_Some in Hx as (a & b & Ha & Hb & Hab).
    exists a, b. split; [exact Ha |]. split; [exact Hb |]. by destruct (is_conflict a b).
  - intros (a & b & Ha & Hb & Hab). exists Unknown.
    apply lookup_intersection_with_Some. exists a, b. by rewrite Hab.
Qed.

(** A state that knows more finds at least the same conflicts. *)
Lemma conflicts_mono_l (S1 S1' S2 : AbstractState) :
  pointers S1 ⊆ pointers S1' -> conflicts S1 S2 ⊆ conflicts S1' S2.
Proof.
  intros Hsub v. rewrite !elem_of_conflicts. intros (a & b & Ha & Hb & Hab).
  exists a, b. split; [| by split]. eapply lookup_weaken; eassumption.
Qed.

(** The joined status of a conflict is [Unknown], and [Unknown] stays. *)
Lemma conflict_joins_to_unknown (S1 S2 : AbstractState) (v : string) :
  v ∈ conflicts S1 S2 -> pointers (join S1 S2) !! v = Some Unknown.
Proof.
  rewrite elem_of_conflicts. intros (a & b & Ha & Hb & Hab).
  unfold join. cbn [pointers]. rewrite lookup_map_join, Ha, Hb. f_equal.
  unfold flat_join. destruct a, b; try discriminate; by rewrite decide_False.
Qed.

Lemma unknown_stays (S0 T : AbstractState) (v : string) :
  status_of S0 v = Unknown -> status_of (join S0 T) v = Unknown.
Proof.
  rewrite status_of_join. intros ->. unfold flat_join. by case_decide.
Qed.

(** The join flags a conflict: a variable that is [Freed] in one state and
    [Live] in the other is flagged in the join. *)
Lemma conflict_flagged (S1 S2 : AbstractState) (v : string) :
  v ∈ conflicts S1 S2 -> v ∈ flagged (join S1 S2).
Proof.
  rewrite elem_of_conflicts. intros (a & b & Ha & Hb & Hab).
  assert (H1 : status_of S1 v = a) by (unfold status_of; by rewrite Ha).
  assert (H2 : status_of S2 v = b) by (unfold status_of; by rewrite Hb).
  unfold flagged, join. cbn [freed_merged live_merged].
  apply elem_of_intersection.
  split; apply elem_of_union_r; apply elem_of_merged; try reflexivity;
    rewrite H1, H2; destruct a, b; try discriminate; (split; [done |]); cbn; tauto.
Qed.

(** The join removes no flag: what is flagged in one of the two states is
    flagged in their join, and so in every state above it. *)
Lemma flagged_join (S1 S2 : AbstractState) :
  flagged S1 ∪ flagged S2 ⊆ flagged (join S1 S2).
Proof.
  unfold flagged, join. cbn [freed_merged live_merged]. intros v.
  rewrite !elem_of_union, !elem_of_intersection, !elem_of_union. tauto.
Qed.

Lemma flagged_le (S1 S2 : AbstractState) : le S1 S2 -> flagged S1 ⊆ flagged S2.
Proof.
  unfold le. intros <-. intros v Hv.
  by apply (flagged_join S1 S2), elem_of_union_l.
Qed.

(** A conflict found at a join is still flagged when further states are
    joined in. *)
Lemma conflict_flagged_later (S1 S2 T : AbstractState) :
  conflicts S1 S2 ⊆ flagged (join (join S1 S2) T).
Proof.
  intros v Hv. apply (flagged_join (join S1 S2) T), elem_of_union_l.
  by apply conflict_flagged.
Qed.

Lemma status_of_Some (S0 : AbstractState) (v : string) (a : PointerStatus) :
  status_of S0 v = a -> a <> Unknown -> pointers S0 !! v = Some a.
Proof.
  unfold status_of. destruct (pointers S0 !! v); cbn; intros <- Hne; congruence.
Qed.

(** The join of two states without flags flags the conflicts between the
    two, and nothing else. *)
Lemma flagged_fresh (S1 S2 : AbstractState) :
  freed_merged S1 = ∅ -> live_merged S1 = ∅ ->
  freed_merged S2 = ∅ -> live_merged S2 = ∅ ->
  flagged (join S1 S2) = conflicts S1 S2.
Proof.
  intros Hf1 Hl1 Hf2 Hl2. apply set_eq. intros v. split; [| apply conflict_flagged].
  unfold flagged, join. cbn [freed_merged live_merged].
  rewrite Hf1, Hl1, Hf2, Hl2, !union_empty_l_L.
  rewrite elem_of_intersection, !elem_of_merged by reflexivity.
  intros [[Hne Hfreed] [_ Hlive]]. apply elem_of_conflicts.
  exists (status_of S1 v), (status_of S2 v).
  destruct (status_of S1 v) as [n1 | | |] eqn:H1, (status_of S2 v) as [n2 | | |] eqn:H2;
    cbn in Hfreed, Hlive; try (destruct Hfreed; discriminate);
    try (destruct Hlive; discriminate); try congruence;
    (split; [by apply status_of_Some | split; [by apply status_of_Some | reflexivity]]).
Qed.

End JoinLaws.

(** C5. The join of abstract states is idempotent, commutative and
    associative, flags included.  It is monotone for the order of the
    lattice, and it never removes a conflict already found: what is
    flagged in one of the two states is flagged in their join, and in every
    state above; a variable that is [Freed] in one state and [Live] in the
    other is flagged in the join, with the status [Unknown], and it is
    still flagged when further states are joined in.  The conflicts between
    two states are not lost when one of them knows more, and a variable
    that is [Unknown] stays so under every further join.  The join of two
    states without flags flags these conflicts and nothing else. *)
Theorem join_lattice_laws :
  (forall S0, Checker.join S0 S0 = S0) /\
  (forall S1 S2, Checker.join S1 S2 = Checker.join S2 S1) /\
  (forall S1 S2 S3,
      Checker.join (Checker.join S1 S2) S3 = Checker.join S1 (Checker.join S2 S3)) /\
  (forall S1 S1' S2,
      Checker.le S1 S1' -> Checker.le (Checker.join S1 S2) (Checker.join S1' S2)) /\
  (forall S1 S1' S2,
      Checker.pointers S1 ⊆ Checker.pointers S1' ->
      Checker.conflicts S1 S2 ⊆ Checker.conflicts S1' S2) /\
  (forall S1 S2 v,
      v ∈ Checker.conflicts S1 S2 ->
      Checker.pointers (Checker.join S1 S2) !! v = Some Checker.Unknown) /\
  (forall S0 T v,
      Checker.status_of S0 v = Checker.Unknown ->
      Checker.status_of (Checker.join S0 T) v = Checker.Unknown) /\
  (forall S1 S2,
      Checker.flagged S1 ∪ Checker.flagged S2 ⊆ Checker.flagged (Checker.join S1 S2)) /\
  (forall S1 S2, Checker.le S1 S2 -> Checker.flagged S1 ⊆ Checker.flagged S2) /\
  (forall S1 S2,
      Checker.conflicts S1 S2 ⊆ Checker.flagged (Checker.join S1 S2)) /\
  (forall S1 S2 T,
      Checker.conflicts S1 S2 ⊆
        Checker.flagged (Checker.join (Checker.join S1 S2) T)) /\
  (forall S1 S2,
      Checker.freed_merged S1 = ∅ -> Checker.live_merged S1 = ∅ ->
      Checker.freed_merged S2 = ∅ -> Checker.live_merged S2 = ∅ ->
      Checker.flagged (Checker.join S1 S2) = Checker.conflicts S1 S2).
Proof.
  split; [exact join_idemp |]. split; [exact join_comm |].
  split; [exact join_assoc |]. split; [exact join_mono_l |].
  split; [exact conflicts_mono_l |]. split; [exact conflict_joins_to_unknown |].
  split; [exact unknown_stays |]. split; [exact flagged_join |].
  split; [exact flagged_le |]. split; [exact conflict_flagged |].
  split; [exact conflict_flagged_later |]. exact flagged_fresh.
Qed.

Lemma join_lattice_laws_witness :
  let S1 := {| Checker.pointers := {[ "p" := Checker.Freed ]}; Checker.bounds := ∅;
               Checker.freed_merged := ∅; Checker.live_merged := ∅ |} in
  let S2 := {| Checker.pointers := {[ "p" := Checker.Live 26 ]}; Checker.bounds := ∅;
               Checker.freed_merged := ∅; Checker.live_merged := ∅ |} in
  let T := {| Checker.pointers := {[ "p" := Checker.Null ]}; Checker.bounds := ∅;
              Checker.freed_merged := ∅; Checker.live_merged := ∅ |} in
  "p" ∈ Checker.conflicts S1 S2 /\
  Checker.pointers (Checker.join S1 S2) !! "p" = Some Checker.Unknown /\
  "p" ∈ Checker.flagged (Checker.join S1 S2) /\
  "p" ∈ Checker.flagged (Checker.join (Checker.join S1 S2) T) /\
  Checker.join (Checker.join S1 S2) T = Checker.join S1 (Checker.join S2 T) /\
  Checker.flagged (Checker.join S1 S2) = Checker.conflicts S1 S2.
Proof.
  intros S1 S2 T.
  assert (Hp : "p" ∈ Checker.conflicts S1 S2).
  { apply elem_of_conflicts. exists Checker.Freed, (Checker.Live 26).
    split; [reflexivity |]. split; reflexivity. }
  split; [exact Hp |].
  destruct join_lattice_laws
    as (_ & _ & Hassoc & _ & _ & Hunknown & _ & _ & _ & Hflag & Hlater & Hfresh).
  split; [exact (Hunknown S1 S2 "p" Hp) |].
  split; [exact (Hflag S1 S2 "p" Hp) |].
  split; [exact (Hlater S1 S2 T "p" Hp) |].
  split; [exact (Hassoc S1 S2 T) |].
  exact (Hfresh S1 S2 eq_refl eq_refl eq_refl eq_refl).
Defined.

(** ** Termination of the worklist iteration *)

Section MapRank.
Import Checker.
Local Open Scope nat_scope.

Context {A : Type} `{EqDecision A} (top : A).

Implicit Types m : gmap string A.

Lemma map_join_dom m1 m2 : dom (map_join top m1 m2) ⊆ dom m1.
Proof.
  intros k. rewrite !elem_of_dom, lookup_map_join.
  destruct (m1 !! k); [eauto | by intros [? ?]].
Qed.

Lemma map_join_below m1 m2 :
  dom (filter (fun kv => kv.2 <> top) (map_join top m1 m2))
  ⊆ dom (filter (fun kv => kv.2 <> top) m1).
Proof.
  intros k. rewrite !elem_of_dom. intros [x Hx].
  apply map_lookup_filter_Some in Hx as [Hx Hne]. cbn in Hne.
  rewrite lookup_map_join in Hx.
  destruct (m1 !! k) as [a |] eqn:Ha; [| discriminate].
  destruct (m2 !! k) as [b |]; [| discriminate].
  injection Hx as <-. exists a. apply map_lookup_filter_Some. split; [exact Ha |].
  cbn. unfold flat_join in Hne. by case_decide.
Qed.

Lemma map_rank_join_le m1 m2 : map_rank top (map_join top m1 m2) <= map_rank top m1.
Proof.
  unfold map_rank. rewrite <- !(size_dom (D := gset string)).
  pose proof (subseteq_size _ _ (map_join_dom m1 m2)).
  pose proof (subseteq_size _ _ (map_join_below m1 m2)). lia.
Qed.

(** A join that does not lower the rank changes nothing. *)
Lemma map_rank_join_eq m1 m2 :
  map_rank top (map_join top m1 m2) = map_rank top m1 -> map_join top m1 m2 = m1.
Proof.
  unfold map_rank. rewrite <- !(size_dom (D := gset string)).
  pose proof (subseteq_size _ _ (map_join_dom m1 m2)) as Hd.
  pose proof (subseteq_size _ _ (map_join_below m1 m2)) as Hb.
  intros Heq.
  assert (Hdom : dom (map_join top m1 m2) = dom m1).
  { apply set_subseteq_size_eq; [apply map_join_dom | lia]. }
  assert (Hbelow : dom (filter (fun kv => kv.2 <> top) (map_join top m1 m2))
                   = dom (filter (fun kv => kv.2 <> top) m1)).
  { apply set_subseteq_size_eq; [apply map_join_below | lia]. }
  apply map_eq. intros k.
  destruct (m1 !! k) as [a |] eqn:Ha.
  - assert (Hk : k ∈ dom (map_join top m1 m2)).
    { rewrite Hdom. by apply elem_of_dom_2 with a. }
    apply elem_of_dom in Hk as [x Hx]. rewrite Hx.
    rewrite lookup_map_join, Ha in Hx.
    destruct (m2 !! k) as [b |] eqn:Hb2; [| discriminate]. injection Hx as <-. f_equal.
    unfold flat_join. case_decide as Hab; [reflexivity |].
    destruct (decide (a = top)) as [-> | Hne]; [reflexivity |].
    assert (Hk : k ∈ dom (filter (fun kv => kv.2 <> top) m1)).
    { apply elem_of_dom. exists a. by apply map_lookup_filter_Some. }
    rewrite <- Hbelow in Hk. apply elem_of_dom in Hk as [x Hx].
    apply map_lookup_filter_Some in Hx as [Hx Hxne]. cbn in Hxne.
    rewrite lookup_map_join, Ha, Hb2 in Hx.
    injection Hx as <-. unfold flat_join in Hxne. case_decide; congruence.
  - rewrite lookup_map_join, Ha. reflexivity.
Qed.

End MapRank.

Section RankJoin.
Import Checker.
Local Open Scope nat_scope.

Variable K : gset string.

Lemma outside_join_le (X Y : gset string) : size (K ∖ (X ∪ Y)) <= size (K ∖ X).
Proof.
  apply subseteq_size. intros v. rewrite !elem_of_difference, elem_of_union. tauto.
Qed.

(** Inside [K], a set that grows without taking a variable more of [K]
    does not grow. *)
Lemma outside_join_eq (X Y : gset string) :
  X ∪ Y ⊆ K -> size (K ∖ (X ∪ Y)) = size (K ∖ X) -> X ∪ Y = X.
Proof.
  intros HK Hsize.
  assert (Heq : K ∖ (X ∪ Y) = K ∖ X).
  { apply set_subseteq_size_eq; [| lia].
    intros v. rewrite !elem_of_difference, elem_of_union. tauto. }
  apply set_eq. intros v. split; [| apply elem_of_union_l].
  intros Hv. destruct (decide (v ∈ X)) as [Hin | Hout]; [exact Hin |].
  assert (Hd : v ∈ K ∖ X) by (apply elem_of_difference; split; [by apply HK | exact Hout]).
  rewrite <- Heq in Hd. apply elem_of_difference in Hd as [_ Hd]. by destruct Hd.
Qed.

Lemma within_join (S0 T : AbstractState) :
  within K S0 -> within K T -> within K (join S0 T).
Proof.
  intros (Hp & Hf & Hl) (Hp' & Hf' & Hl').
  assert (Hm : forall kind, merged kind S0 T ⊆ K).
  { intros kind v Hv. apply merged_dom, elem_of_union in Hv as [Hv | Hv];
      [by apply Hp | by apply Hp']. }
  unfold within, join. cbn [pointers freed_merged live_merged].
  split; [| split].
  - intros v Hv. by apply Hp, (map_join_dom Unknown (pointers S0) (pointers T)).
  - intros v. rewrite !elem_of_union. intros [[Hv | Hv] | Hv];
      [by apply Hf | by apply Hf' | by apply (Hm is_freed)].
  - intros v. rewrite !elem_of_union. intros [[Hv | Hv] | Hv];
      [by apply Hl | by apply Hl' | by apply (Hm is_live)].
Qed.

Lemma freed_merged_join (S0 T : AbstractState) :
  freed_merged (join S0 T) =
    freed_merged S0 ∪ (freed_merged T ∪ merged is_freed S0 T).
Proof. unfold join. cbn [freed_merged]. by rewrite (assoc_L (∪)). Qed.

Lemma live_merged_join (S0 T : AbstractState) :
  live_merged (join S0 T) =
    live_merged S0 ∪ (live_merged T ∪ merged is_live S0 T).
Proof. unfold join. cbn [live_merged]. by rewrite (assoc_L (∪)). Qed.

Lemma rank_join_le (S0 T : AbstractState) : rank K (join S0 T) <= rank K S0.
Proof.
  unfold rank. rewrite freed_merged_join, live_merged_join.
  unfold join. cbn [pointers bounds].
  pose proof (map_rank_join_le Unknown (pointers S0) (pointers T)).
  pose proof (map_rank_join_le UnknownBounds (bounds S0) (bounds T)).
  pose proof (outside_join_le (freed_merged S0) (freed_merged T ∪ merged is_freed S0 T)).
  pose proof (outside_join_le (live_merged S0) (live_merged T ∪ merged is_live S0 T)).
  lia.
Qed.

(** A join that changes the state lowers its rank: the lattice has no
    infinite strictly ascending chain. *)
Lemma rank_join_lt (S0 T : AbstractState) :
  within K S0 -> within K T ->
  join S0 T <> S0 -> rank K (join S0 T) < rank K S0.
Proof.
  intros HS0 HT Hne.
  destruct (decide (rank K (join S0 T) = rank K S0)) as [Heq |];
    [| pose proof (rank_join_le S0 T); lia].
  exfalso. apply Hne.
  destruct (within_join S0 T HS0 HT) as (_ & Hf & Hl).
  unfold rank in Heq.
  rewrite freed_merged_join in Heq, Hf. rewrite live_merged_join in Heq, Hl.
  unfold join in Heq. cbn [pointers bounds] in Heq.
  pose proof (map_rank_join_le Unknown (pointers S0) (pointers T)) as Hp.
  pose proof (map_rank_join_le UnknownBounds (bounds S0) (bounds T)) as Hb.
  pose proof (outside_join_le (freed_merged S0)
                (freed_merged T ∪ merged is_freed S0 T)) as Hfm.
  pose proof (outside_join_le (live_merged S0)
                (live_merged T ∪ merged is_live S0 T)) as Hlm.
  apply state_eq.
  - apply map_rank_join_eq. lia.
  - apply map_rank_join_eq. lia.
  - rewrite freed_merged_join. apply outside_join_eq; [exact Hf | lia].
  - rewrite live_merged_join. apply outside_join_eq; [exact Hl | lia].
Qed.

End RankJoin.

(** The transfer functions give a status to the variables of the
    statement only, and leave the flags as they are. *)
Section TransferWithin.
Import Checker.

Variable K : gset string.
Variable sizes : gmap string Z.

Lemma within_set_status (v : string) (st : PointerStatus) (St : AbstractState) :
  v ∈ K -> within K St -> within K (set_status v st St).
Proof.
  intros Hv (Hp & Hf & Hl). unfold within, set_status. cbn.
  split; [| by split]. rewrite dom_insert_L.
  apply union_subseteq. split; [by apply singleton_subseteq_l | exact Hp].
Qed.

Lemma within_forget (v : string) (St : AbstractState) :
  within K St -> within K (forget v St).
Proof.
  intros (Hp & Hf & Hl). unfold within, forget. cbn.
  split; [| by split]. rewrite dom_delete_L.
  intros x Hx. apply Hp. by apply elem_of_difference in Hx as [Hx _].
Qed.

Lemma within_transfer (s : Stmt) (St : AbstractState) :
  stmt_assigns s ⊆ K -> within K St -> within K (transfer sizes s St).1.
Proof.
  intros Hs HSt. destruct s as [v n | v | v | e arr idx | q p | touched]; cbn.
  - apply within_set_status; [| exact HSt]. apply Hs. cbn. by apply elem_of_singleton.
  - destruct (status_of St v); cbn; try exact HSt.
    apply within_set_status; [| exact HSt]. apply Hs. cbn. by apply elem_of_singleton.
  - by destruct (status_of St v).
  - exact HSt.
  - destruct (pointers St !! p); cbn; [| by apply within_forget].
    apply within_set_status; [| exact HSt]. apply Hs. cbn. by apply elem_of_singleton.
  - clear Hs. induction touched as [| v touched IH]; cbn; [exact HSt |].
    by apply within_forget.
Qed.

Lemma within_exit_state (b : BasicBlock) (St : AbstractState) :
  (forall s, s ∈ stmts b -> stmt_assigns s ⊆ K) -> within K St ->
  within K (exit_state sizes b St).
Proof.
  unfold exit_state. generalize (stmts b). intros ss. revert St.
  induction ss as [| s ss IH]; intros St Hss HSt; cbn; [exact HSt |].
  apply IH.
  - intros s' Hs'. apply Hss. by right.
  - apply within_transfer; [| exact HSt]. apply Hss. by left.
Qed.

End TransferWithin.

Section WorklistMeasure.
Import Checker.
Local Open Scope nat_scope.

Variable sizes : gmap string Z.
Variable g : FlowGraph.

Lemma total_rank_insert_new (K : gset string) (m : gmap nat AbstractState)
    (i : nat) (x : AbstractState) :
  m !! i = None -> total_rank K (<[i := x]> m) = rank K x + total_rank K m.
Proof.
  intros Hi. unfold total_rank. rewrite map_fold_insert_L; [reflexivity | | exact Hi].
  intros. lia.
Qed.

Lemma total_rank_insert_old (K : gset string) (m : gmap nat AbstractState)
    (i : nat) (x old : AbstractState) :
  m !! i = Some old ->
  total_rank K (<[i := x]> m) + rank K old = rank K x + total_rank K m.
Proof.
  intros Hi. rewrite <- (insert_delete_id m i old Hi) at 2.
  rewrite <- (insert_delete_eq m i x).
  rewrite !total_rank_insert_new by apply lookup_delete_eq. lia.
Qed.

Lemma not_larger_refl (t : tracker) : not_larger g t t.
Proof. right. split; lia. Qed.

Lemma not_larger_trans (t1 t2 t3 : tracker) :
  not_larger g t1 t2 -> not_larger g t2 t3 -> not_larger g t1 t3.
Proof. unfold not_larger. lia. Qed.

Lemma well_formed_insert (t : tracker) (s : nat) (new : AbstractState) :
  s ∈ reachable_ids g -> within (variables g) new -> well_formed g t ->
  well_formed g {| entries := <[s := new]> (entries t); worklist := s :: worklist t |}.
Proof.
  intros Hs Hnew [Hdom Hin]. split; cbn.
  - rewrite dom_insert_L.
    apply union_subseteq. split; [by apply singleton_subseteq_l | exact Hdom].
  - intros b St. rewrite lookup_insert_Some.
    intros [[_ <-] | [_ Hb]]; [exact Hnew | by apply Hin with b].
Qed.

(** Updating one successor never raises the measure. *)
Lemma propagate_measure (exit : AbstractState) (t : tracker) (s : nat) :
  s ∈ reachable_ids g -> within (variables g) exit -> well_formed g t ->
  well_formed g (propagate exit t s) /\ not_larger g (propagate exit t s) t.
Proof.
  intros Hs Hexit Hwf. unfold propagate.
  destruct (entries t !! s) as [old |] eqn:Hold; case_decide as Hsame.
  - split; [exact Hwf | apply not_larger_refl].
  - assert (Hne : join old exit <> old) by congruence.
    assert (Hold_in : within (variables g) old) by (by apply (proj2 Hwf) with s).
    pose proof (rank_join_lt (variables g) old exit Hold_in Hexit Hne) as Hlt.
    pose proof (total_rank_insert_old (variables g) (entries t) s (join old exit) old Hold)
      as Htot.
    assert (Hdom : dom (<[s := join old exit]> (entries t)) = dom (entries t)).
    { apply dom_insert_lookup_L. by rewrite Hold. }
    split.
    + apply well_formed_insert; [exact Hs | by apply within_join | exact Hwf].
    + right. unfold unreached, weight. cbn. rewrite Hdom. split; [reflexivity | lia].
  - split; [exact Hwf | apply not_larger_refl].
  - assert (Hnew : s ∉ dom (entries t)) by by apply not_elem_of_dom.
    split.
    + by apply well_formed_insert.
    + left. unfold unreached. cbn. apply subset_size. rewrite dom_insert_L. split.
      * intros x. rewrite !elem_of_difference, elem_of_union.
        intros [Hx Hn]. split; [exact Hx |]. intros Hd. apply Hn. by right.
      * intros Hsub.
        assert (Hin : s ∈ reachable_ids g ∖ ({[s]} ∪ dom (entries t))).
        { apply Hsub, elem_of_difference. by split. }
        apply elem_of_difference in Hin as [_ Hn]. apply Hn, elem_of_union.
        left. by apply elem_of_singleton.
Qed.

Lemma foldl_propagate_measure (exit : AbstractState) (ss : list nat) :
  within (variables g) exit ->
  forall t : tracker,
    (forall s, s ∈ ss -> s ∈ reachable_ids g) -> well_formed g t ->
    well_formed g (foldl (propagate exit) t ss) /\
    not_larger g (foldl (propagate exit) t ss) t.
Proof.
  intros Hexit. induction ss as [| s ss IH]; intros t Hss Hwf; cbn.
  - split; [exact Hwf | apply not_larger_refl].
  - destruct (propagate_measure exit t s) as [Hwf1 Hle1];
      [apply Hss; by left | exact Hexit | exact Hwf |].
    destruct (IH (propagate exit t s)) as [Hwf2 Hle2];
      [intros s' Hs'; apply Hss; by right | exact Hwf1 |].
    split; [exact Hwf2 |]. eapply not_larger_trans; eassumption.
Qed.

Lemma succs_reachable (b : nat) (blk : BasicBlock) (s : nat) :
  blocks g !! b = Some blk -> s ∈ succs blk -> s ∈ reachable_ids g.
Proof.
  intros Hb Hs. unfold reachable_ids. apply elem_of_union. right.
  apply elem_of_list_to_set, list_elem_of_In, in_concat.
  exists (succs blk). split; [| by apply list_elem_of_In].
  apply list_elem_of_In, list_elem_of_fmap. exists blk.
  split; [reflexivity |]. by apply list_elem_of_lookup_2 with b.
Qed.

Lemma stmts_variables (b : nat) (blk : BasicBlock) (s : Stmt) :
  blocks g !! b = Some blk -> s ∈ stmts blk -> stmt_assigns s ⊆ variables g.
Proof.
  intros Hb Hs v Hv. unfold variables. apply elem_of_union_list.
  exists (stmt_assigns s). split; [| exact Hv].
  apply list_elem_of_fmap. exists s. split; [reflexivity |].
  apply list_elem_of_In, in_concat.
  exists (stmts blk). split; [| by apply list_elem_of_In].
  apply list_elem_of_In, list_elem_of_fmap. exists blk.
  split; [reflexivity |]. by apply list_elem_of_lookup_2 with b.
Qed.

(** Every round of the iteration lowers the measure. *)
Lemma step_measure (t t' : tracker) :
  step sizes g t = Some t' -> well_formed g t ->
  well_formed g t' /\ smaller g t' t.
Proof.
  unfold step. intros Hstep Hwf.
  destruct (worklist t) as [| b rest] eqn:Hwl; [discriminate |].
  set (t0 := {| entries := entries t; worklist := rest |}) in *.
  assert (Hwf0 : well_formed g t0) by exact Hwf.
  assert (Hpop : unreached g t0 = unreached g t /\ weight g t0 < weight g t).
  { unfold unreached, weight. cbn. rewrite Hwl. cbn. split; [reflexivity | lia]. }
  assert (Hcase : not_larger g t' t0 /\ well_formed g t').
  { destruct (blocks g !! b) as [blk |] eqn:Hblk;
      [destruct (entries t !! b) as [St |] eqn:HSt |];
      injection Hstep as <-; try (split; [apply not_larger_refl | exact Hwf0]).
    destruct (foldl_propagate_measure (exit_state sizes blk St) (succs blk)) with t0
      as [Hwf' Hle']; [| | exact Hwf0 | by split].
    - apply within_exit_state; [| by apply (proj2 Hwf) with b].
      intros s Hs. by apply stmts_variables with b blk.
    - intros s Hs. by apply succs_reachable with b blk. }
  destruct Hcase as [Hle Hwf']. split; [exact Hwf' |].
  unfold smaller, not_larger in *. lia.
Qed.

(** The iteration terminates from every well-formed state. *)
Lemma iterate_terminates :
  forall (u w : nat) (t : tracker),
    unreached g t = u -> weight g t = w -> well_formed g t ->
    exists fuel result, iterate fuel sizes g t = Some result.
Proof.
  induction u as [u IHu] using lt_wf_ind.
  induction w as [w IHw] using lt_wf_ind.
  intros t Hu Hw Hwf.
  destruct (step sizes g t) as [t' |] eqn:Hstep.
  - destruct (step_measure t t' Hstep Hwf) as [Hwf' [Hlt | [Heq Hlt]]].
    + destruct (IHu (unreached g t') ltac:(lia) (weight g t') t' eq_refl eq_refl Hwf')
        as (fuel & result & Hrun).
      exists (S fuel), result. cbn. by rewrite Hstep.
    + destruct (IHw (weight g t') ltac:(lia) t' ltac:(lia) eq_refl Hwf')
        as (fuel & result & Hrun).
      exists (S fuel), result. cbn. by rewrite Hstep.
  - exists 0, (entries t). cbn. by rewrite Hstep.
Qed.

Lemma initial_well_formed : well_formed g (initial g).
Proof.
  unfold well_formed, initial, reachable_ids. cbn. split.
  - rewrite dom_singleton_L. apply union_subseteq_l.
  - intros b St HSt. apply lookup_singleton_Some in HSt as [_ <-].
    unfold within, empty_state. cbn. rewrite dom_empty_L.
    split; [| split]; apply empty_subseteq.
Qed.

(** More fuel does not change a result. *)
Lemma iterate_more_fuel (fuel : nat) :
  forall (t : tracker) (result : gmap nat AbstractState) (extra : nat),
    iterate fuel sizes g t = Some result ->
    iterate (fuel + extra) sizes g t = Some result.
Proof.
  induction fuel as [| fuel IH]; intros t result extra; cbn.
  - destruct (step sizes g t) eqn:Hstep; [discriminate |].
    intros <-. destruct extra; cbn; by rewrite Hstep.
  - destruct (step sizes g t) as [t' |]; [apply IH | done].
Qed.

End WorklistMeasure.

(** C6. For every flow graph, that is, every finite list of basic blocks
    with an entry block, the worklist iteration of the abstract state
    tracker terminates: some number of rounds empties the worklist and yields
    the entry states, and every larger bound on the number of rounds yields
    the same result.  No assumption is made on the shape of the graph
    (loops included): a join that changes an entry state lowers its rank,
    the entry states speak of the variables of the graph only, and only
    finitely many blocks can be reached. *)
Theorem worklist_iteration_terminates (sizes : gmap string Z) (g : Checker.FlowGraph) :
  exists (fuel : nat) (result : gmap nat Checker.AbstractState),
    forall extra : nat, Checker.analyse (fuel + extra) sizes g = Some result.
Proof.
  destruct (iterate_terminates sizes g _ _ (Checker.initial g) eq_refl eq_refl
              (initial_well_formed g)) as (fuel & result & Hrun).
  exists fuel, result. intros extra. unfold Checker.analyse.
  by apply iterate_more_fuel.
Qed.

(* ===================================================================== *)
(** * Part 3: further properties of the samples                           *)
(* ===================================================================== *)

(** ** sign_check.c: [work] *)

(** X1. [work] returns the sign of the value it draws: 0 for zero, 1 for a
    positive and -1 for a negative value; so the assertion
    [assert(work() != 0)] of [main] can only fail on the value 0. *)
Theorem work_is_sign (nondet : Z) :
  SignCheck.work nondet = Z.sgn nondet /\
  (SignCheck.work nondet = 0 <-> nondet = 0).
Proof.
  unfold SignCheck.work, SignCheck.is_zero, SignCheck.is_positive.
  destruct (Z.eqb_spec nondet 0) as [-> | Hnz]; [by split |].
  destruct (Z.geb_spec nondet 0) as [Hge | Hlt]; cbn; split; lia.
Qed.

(** ** clock.c, timer.c and main.c: what the calls do to the heap *)

Section TimerEffects.
Import Timer.

Variable wall : nat -> Z.

(** The loop, in full: the heap is left as it is, [time] is called once per
    iteration, and the clock is set to the value of the last call. *)
Lemma countdown_effect clock time_str tick_rate size :
  forall fuel remaining w,
    heap w !! clock = Some (Live size) ->
    heap w !! time_str = Some Freed ->
    Z.to_nat remaining = fuel ->
    countdown wall fuel clock time_str remaining tick_rate w =
      {| heap := heap w;
         unix_time :=
           match fuel with
           | O => unix_time w
           | S k => <[clock := wall (time_calls w + k)%nat]> (unix_time w)
           end;
         time_calls := (time_calls w + fuel)%nat;
         violations :=
           violations w ++ repeat (UseAfterFree ("timer.c", 16%nat) time_str) fuel |}.
Proof.
  induction fuel as [| fuel IH]; intros remaining w Hclock Hstr Hfuel; cbn.
  - destruct w; cbn. by rewrite app_nil_r, Nat.add_0_r.
  - destruct (Z.gtb_spec remaining 0) as [Hpos | Hnpos]; [| lia].
    unfold set_unix_time, time. cbn.
    rewrite (use_live _ clock size) by exact Hclock. cbn.
    rewrite use_freed by exact Hstr. cbn.
    rewrite (IH (remaining - 1)); cbn; [| exact Hclock | exact Hstr | lia].
    f_equal.
    + destruct fuel as [| k]; [by rewrite Nat.add_0_r |].
      rewrite insert_insert_eq. do 2 f_equal. lia.
    + lia.
    + by rewrite <- app_assoc.
Qed.

Lemma get_formatted_time_effect clock size w :
  heap w !! clock = Some (Live size) ->
  clock_get_formatted_time clock w =
    (fresh (dom (heap w)),
     {| heap := <[fresh (dom (heap w)) := Live 26]> (heap w);
        unix_time := unix_time w; time_calls := time_calls w;
        violations := violations w |}).
Proof.
  intros Hclock. unfold clock_get_formatted_time, malloc.
  set (p := fresh (dom (heap w))).
  assert (Hfresh : heap w !! p = None) by (apply not_elem_of_dom, is_fresh).
  assert (Hne : p <> clock) by congruence.
  set (w1 := perform (AMalloc (26 * 1) p) w).
  assert (Hw1 : w1 = {| heap := <[p := Live 26]> (heap w);
                        unix_time := unix_time w; time_calls := time_calls w;
                        violations := violations w |}).
  { subst w1. unfold perform. cbn. by rewrite app_nil_r. }
  rewrite (use_live _ clock size) by (rewrite Hw1; cbn; by rewrite lookup_insert_ne).
  rewrite (use_live _ p 26) by (rewrite Hw1; cbn; by rewrite lookup_insert_eq).
  by rewrite Hw1.
Qed.

Lemma timer_tick_effect clock seconds tick_rate size w :
  heap w !! clock = Some (Live size) ->
  timer_tick wall clock seconds tick_rate w =
    {| heap := <[fresh (dom (heap w)) := Freed]> (heap w);
       unix_time :=
         match Z.to_nat seconds with
         | O => unix_time w
         | S k => <[clock := wall (time_calls w + k)%nat]> (unix_time w)
         end;
       time_calls := (time_calls w + Z.to_nat seconds)%nat;
       violations :=
         violations w
         ++ DoubleFree ("timer.c", 12%nat) (fresh (dom (heap w)))
         :: repeat (UseAfterFree ("timer.c", 16%nat) (fresh (dom (heap w))))
                   (Z.to_nat seconds) |}.
Proof.
  intros Hclock. unfold timer_tick.
  rewrite (get_formatted_time_effect clock size w Hclock).
  set (p := fresh (dom (heap w))).
  assert (Hfresh : heap w !! p = None) by (apply not_elem_of_dom, is_fresh).
  assert (Hne : p <> clock) by congruence.
  unfold free, perform. cbn. rewrite lookup_insert_eq. cbn.
  rewrite lookup_insert_eq. cbn. rewrite insert_insert_eq, app_nil_r.
  rewrite (countdown_effect clock p tick_rate size); cbn;
    [| by rewrite lookup_insert_ne | by rewrite lookup_insert_eq | reflexivity].
  f_equal. by rewrite <- app_assoc.
Qed.

End TimerEffects.

(** X2. [clock_get_formatted_time], called with a live [clock], returns a
    block that did not exist before and is live with 26 bytes on return; it
    commits no violation and leaves every other block as it was.  The block
    is the caller's to release. *)
Theorem clock_get_formatted_time_allocates (clock : Timer.ptr) (size : Z)
    (w : Timer.world) :
  Timer.heap w !! clock = Some (Timer.Live size) ->
  let r := Timer.clock_get_formatted_time clock w in
  Timer.heap w !! r.1 = None /\
  Timer.heap r.2 !! r.1 = Some (Timer.Live 26) /\
  (forall q, q <> r.1 -> Timer.heap r.2 !! q = Timer.heap w !! q) /\
  Timer.violations r.2 = Timer.violations w.
Proof.
  intros Hclock. cbv zeta. rewrite (get_formatted_time_effect clock size w Hclock).
  cbn. split; [apply not_elem_of_dom, is_fresh |].
  split; [by rewrite lookup_insert_eq |]. split; [| reflexivity].
  intros q Hq. by rewrite lookup_insert_ne.
Qed.

Lemma clock_get_formatted_time_allocates_witness :
  let w := {| Timer.heap := {[ 0%nat := Timer.Live 8 ]}; Timer.unix_time := ∅;
              Timer.time_calls := 0; Timer.violations := [] |} in
  Timer.heap w !! 0%nat = Some (Timer.Live 8) /\
  Timer.heap (Timer.clock_get_formatted_time 0%nat w).2 !! 1%nat
    = Some (Timer.Live 26).
Proof.
  intros w. split; [reflexivity |].
  exact (proj1 (proj2 (clock_get_formatted_time_allocates 0%nat 8 w eq_refl))).
Defined.

(** X3. [timer_tick], called with a live [clock], changes the status of no
    block that existed before the call: [clock] in particular is still live
    afterwards, and the one block the call allocates is released when it
    returns.  It calls [time] once per iteration, and with [seconds >= 1] the
    clock holds the value of the last of these calls. *)
Theorem timer_tick_frame (wall : nat -> Z) (clock : Timer.ptr)
    (seconds tick_rate size : Z) (w : Timer.world) :
  Timer.heap w !! clock = Some (Timer.Live size) ->
  let w' := Timer.timer_tick wall clock seconds tick_rate w in
  (forall q, is_Some (Timer.heap w !! q) -> Timer.heap w' !! q = Timer.heap w !! q) /\
  Timer.heap w' !! clock = Some (Timer.Live size) /\
  (forall q, Timer.heap w !! q = None ->
             Timer.heap w' !! q = None \/ Timer.heap w' !! q = Some Timer.Freed) /\
  Timer.time_calls w' = (Timer.time_calls w + Z.to_nat seconds)%nat /\
  (1 <= seconds ->
   Timer.unix_time w' !! clock =
     Some (wall (Timer.time_calls w + Z.to_nat seconds - 1)%nat)).
Proof.
  intros Hclock. cbv zeta. rewrite (timer_tick_effect wall clock seconds tick_rate size w Hclock).
  cbn. set (p := fresh (dom (Timer.heap w))).
  assert (Hfresh : Timer.heap w !! p = None) by (apply not_elem_of_dom, is_fresh).
  assert (Hframe : forall q, is_Some (Timer.heap w !! q) ->
            <[p := Timer.Freed]> (Timer.heap w) !! q = Timer.heap w !! q).
  { intros q [x Hq]. rewrite lookup_insert_ne; [reflexivity | congruence]. }
  split; [exact Hframe |]. split; [rewrite Hframe; [exact Hclock | by eexists] |].
  split; [| split; [reflexivity |]].
  - intros q Hq. destruct (decide (q = p)) as [-> | Hne].
    + right. by rewrite lookup_insert_eq.
    + left. by rewrite lookup_insert_ne.
  - intros Hsec. destruct (Z.to_nat seconds) as [| k] eqn:Hk; [lia |].
    rewrite lookup_insert_eq. do 2 f_equal. lia.
Qed.

Lemma timer_tick_frame_witness :
  let w := {| Timer.heap := {[ 0%nat := Timer.Live 8 ]}; Timer.unix_time := ∅;
              Timer.time_calls := 0; Timer.violations := [] |} in
  Timer.heap w !! 0%nat = Some (Timer.Live 8) /\
  Timer.heap (Timer.timer_tick (fun k => Z.of_nat k) 0%nat 2 1 w) !! 0%nat
    = Some (Timer.Live 8).
Proof.
  intros w. split; [reflexivity |].
  exact (proj1 (proj2 (timer_tick_frame (fun k => Z.of_nat k) 0%nat 2 1 8 w eq_refl))).
Defined.

Section TimerMainProperties.
Import Timer TimerMain.

Variable wall : nat -> Z.

Lemma clock_init_effect clock size w :
  heap w !! clock = Some (Live size) ->
  clock_init wall clock w =
    {| heap := heap w;
       unix_time := <[clock := wall (time_calls w)]> (unix_time w);
       time_calls := S (time_calls w);
       violations := violations w |}.
Proof.
  intros Hclock. unfold clock_init, time, set_unix_time.
  rewrite (use_live _ clock size) by exact Hclock. reflexivity.
Qed.

Lemma main_effect seconds tick_rate w :
  let clock := fresh (dom (heap w)) in
  let time_str := fresh (dom (<[clock := Live sizeof_Clock]> (heap w))) in
  main wall 3 seconds tick_rate w =
    (0,
     {| heap := <[time_str := Freed]> (<[clock := Live sizeof_Clock]> (heap w));
        unix_time :=
          match Z.to_nat seconds with
          | O => <[clock := wall (time_calls w)]> (unix_time w)
          | S k => <[clock := wall (S (time_calls w) + k)%nat]>
                     (<[clock := wall (time_calls w)]> (unix_time w))
          end;
        time_calls := (S (time_calls w) + Z.to_nat seconds)%nat;
        violations :=
          violations w
          ++ DoubleFree ("timer.c", 12%nat) time_str
          :: repeat (UseAfterFree ("timer.c", 16%nat) time_str) (Z.to_nat seconds) |}).
Proof.
  intros clock time_str. unfold main, malloc. cbn [negb Z.eqb Pos.eqb].
  fold clock. unfold perform. cbn [heap_step]. cbn [heap unix_time time_calls violations].
  rewrite app_nil_r.
  rewrite (clock_init_effect clock sizeof_Clock)
    by (cbn; by rewrite lookup_insert_eq).
  cbn [heap unix_time time_calls violations].
  rewrite (timer_tick_effect wall clock seconds tick_rate sizeof_Clock)
    by (cbn; by rewrite lookup_insert_eq).
  reflexivity.
Qed.

End TimerMainProperties.

(** X4. [main] of the timer returns 1 and touches nothing when [argc] is
    not 3.  With [argc = 3] it returns 0, and at exit the [Clock] block it
    allocated is still live, whatever [atoi] returned: the block is never
    released.  The only violations of the whole run are those of
    [timer_tick]: one double free at timer.c:12 and one use after free at
    timer.c:16 per second of the countdown. *)
Theorem timer_main_leaks_clock (wall : nat -> Z) (argc seconds tick_rate : Z)
    (w : Timer.world) :
  let clock := fresh (dom (Timer.heap w)) in
  let time_str := fresh (dom (<[clock := Timer.Live TimerMain.sizeof_Clock]> (Timer.heap w))) in
  let r := TimerMain.main wall argc seconds tick_rate w in
  (argc <> 3 -> r = (1, w)) /\
  (argc = 3 ->
   r.1 = 0 /\
   Timer.heap w !! clock = None /\
   Timer.heap r.2 !! clock = Some (Timer.Live TimerMain.sizeof_Clock) /\
   Timer.heap r.2 !! time_str = Some Timer.Freed /\
   (forall q, is_Some (Timer.heap w !! q) -> Timer.heap r.2 !! q = Timer.heap w !! q) /\
   Timer.violations r.2 =
     Timer.violations w
     ++ Timer.DoubleFree ("timer.c", 12%nat) time_str
     :: repeat (Timer.UseAfterFree ("timer.c", 16%nat) time_str) (Z.to_nat seconds)).
Proof.
  intros clock time_str r. split.
  - intros Hargc. subst r. unfold TimerMain.main.
    by destruct (Z.eqb_spec argc 3) as [-> | _].
  - intros ->. subst r. rewrite main_effect. cbn [fst snd].
    fold clock. fold time_str. cbn [Timer.heap Timer.violations].
    assert (Hc : Timer.heap w !! clock = None) by (apply not_elem_of_dom, is_fresh).
    assert (Ht : <[clock := Timer.Live TimerMain.sizeof_Clock]> (Timer.heap w) !! time_str = None)
      by (apply not_elem_of_dom, is_fresh).
    assert (Hne : time_str <> clock).
    { intros Heq. rewrite Heq, lookup_insert_eq in Ht. discriminate. }
    split; [reflexivity |]. split; [exact Hc |].
    split; [by rewrite lookup_insert_ne, lookup_insert_eq |].
    split; [by rewrite lookup_insert_eq |]. split; [| reflexivity].
    intros q [x Hq].
    assert (q <> clock) by congruence.
    assert (q <> time_str).
    { intros ->. rewrite lookup_insert_ne in Ht by congruence. congruence. }
    by rewrite !lookup_insert_ne.
Qed.

Lemma timer_main_leaks_clock_witness :
  let w := {| Timer.heap := ∅; Timer.unix_time := ∅;
              Timer.time_calls := 0; Timer.violations := [] |} in
  3 = 3 /\
  Timer.heap (TimerMain.main (fun _ => 0) 3 2 1 w).2 !! 0%nat
    = Some (Timer.Live TimerMain.sizeof_Clock).
Proof.
  intros w. split; [reflexivity |].
  exact (proj1 (proj2 (proj2 (proj2 (timer_main_leaks_clock (fun _ => 0) 3 2 1 w)
                                 eq_refl)))).
Defined.

(** ** bubble_sort.c: what the passes do to the array *)

Section BubbleSortOrder.
Import Mem BubbleSort Ordered.
Local Open Scope nat_scope.

(** Exchanging two neighbours. *)
Lemma swap_lookup (l : list Z) (i : nat) (a b : Z) :
  l !! i = Some a -> l !! S i = Some b ->
  let l' := <[S i := a]> (<[i := b]> l) in
  l' !! i = Some b /\ l' !! S i = Some a /\
  (forall p, p <> i -> p <> S i -> l' !! p = l !! p).
Proof.
  intros Ha Hb. cbv zeta.
  pose proof (lookup_lt_Some _ _ _ Ha). pose proof (lookup_lt_Some _ _ _ Hb).
  split; [| split].
  - rewrite list_lookup_insert_ne by lia. apply list_lookup_insert_eq. lia.
  - apply list_lookup_insert_eq. rewrite length_insert. lia.
  - intros p Hp1 Hp2. by rewrite !list_lookup_insert_ne.
Qed.

Lemma swap_permutation (l : list Z) (i : nat) (a b : Z) :
  l !! i = Some a -> l !! S i = Some b ->
  <[S i := a]> (<[i := b]> l) ≡ₚ l.
Proof.
  revert i. induction l as [| x l IH]; intros i Ha Hb; [discriminate |].
  destruct i as [| i].
  - destruct l as [| y l]; [discriminate |]. cbn in Ha, Hb.
    injection Ha as ->. injection Hb as ->. cbn. apply perm_swap.
  - cbn in Ha, Hb. cbn. apply perm_skip. by apply IH.
Qed.

(** One comparison inside the array, as a step of a pass. *)
Lemma pass_step (k j : nat) (l : list Z) (a b : Z) :
  1 <= k -> l !! j = Some a -> l !! S j = Some b ->
  sorted_from k l -> top_at (Nat.min j (k - 1)) l ->
  let l' := if (a >? b)%Z then <[S j := a]> (<[j := b]> l) else l in
  sorted_from k l' /\ top_at (Nat.min (S j) (k - 1)) l'.
Proof.
  intros Hk Ha Hb Hsorted Htop. cbv zeta.
  destruct (decide (S j <= k - 1)) as [Hin | Hout].
  - rewrite Nat.min_l in Htop by lia. rewrite Nat.min_l by lia.
    destruct (Z.gtb_spec a b) as [Hgt | Hle].
    + destruct (swap_lookup l j a b Ha Hb) as (Hj & HSj & Hother).
      split.
      * intros p q x y Hpq Hkq Hp Hq.
        rewrite Hother in Hq by lia.
        destruct (decide (p = j)) as [-> | Hpj];
          [| destruct (decide (p = S j)) as [-> | HpSj]].
        -- rewrite Hj in Hp. injection Hp as <-.
           apply (Hsorted (S j) q b y); [lia | lia | exact Hb | exact Hq].
        -- rewrite HSj in Hp. injection Hp as <-.
           apply (Hsorted j q a y); [lia | lia | exact Ha | exact Hq].
        -- rewrite Hother in Hp by lia. by apply (Hsorted p q).
      * intros p x y Hp Hx Hy. rewrite HSj in Hy. injection Hy as <-.
        destruct (decide (p = j)) as [-> | Hpj].
        -- rewrite Hj in Hx. injection Hx as <-. lia.
        -- rewrite Hother in Hx by lia.
           apply (Htop p x a); [lia | exact Hx | exact Ha].
    + split; [exact Hsorted |].
      intros p x y Hp Hx Hy. rewrite Hb in Hy. injection Hy as <-.
      destruct (decide (p = j)) as [-> | Hpj].
      * rewrite Ha in Hx. injection Hx as <-. lia.
      * pose proof (Htop p x a ltac:(lia) Hx Ha). lia.
  - rewrite Nat.min_r in Htop by lia. rewrite Nat.min_r by lia.
    pose proof (Hsorted j (S j) a b ltac:(lia) ltac:(lia) Ha Hb) as Hab.
    destruct (Z.gtb_spec a b); [lia |]. by split.
Qed.

Lemma pass_done (k : nat) (l : list Z) :
  1 <= k -> sorted_from k l -> top_at (k - 1) l -> sorted_from (k - 1) l.
Proof.
  intros Hk Hsorted Htop p q x y Hpq Hkq Hp Hq.
  destruct (decide (q = k - 1)) as [-> | Hne].
  - by apply (Htop p x y).
  - apply (Hsorted p q x y); [lia | lia | exact Hp | exact Hq].
Qed.

Variable junk : nat -> Z.
Variable arr0 : list Z.

(** The values read past the end never make the comparison hold. *)
Hypothesis junk_large : forall k x, x ∈ arr0 -> (x <= junk k)%Z.

Lemma compare_and_swap_pass (j : Z) (l : list Z) (log : list oob) :
  (0 <= j < Z.of_nat (length l))%Z -> l ≡ₚ arr0 ->
  exists a, l !! Z.to_nat j = Some a /\
    ((j + 1 < Z.of_nat (length l))%Z ->
     exists b, l !! S (Z.to_nat j) = Some b /\
       (compare_and_swap junk j l log).1 =
         if (a >? b)%Z then <[S (Z.to_nat j) := a]> (<[Z.to_nat j := b]> l) else l) /\
    ((j + 1 = Z.of_nat (length l))%Z -> (compare_and_swap junk j l log).1 = l).
Proof.
  intros Hj Hperm. unfold compare_and_swap, bind.
  destruct (load_in_bounds junk 7 "arr" l j log) as (a & Ha & ->); [lia |].
  assert (Haj : l !! Z.to_nat j = Some a).
  { unfold index in Ha. by destruct (Z.ltb_spec j 0); [lia |]. }
  exists a. split; [exact Haj |]. split.
  - intros Hin.
    destruct (load_in_bounds junk 7 "arr" l (j + 1) log) as (b & Hb & ->); [lia |].
    assert (Hbj : l !! S (Z.to_nat j) = Some b).
    { unfold index in Hb. destruct (Z.ltb_spec (j + 1) 0); [lia |].
      by replace (Z.to_nat (j + 1)) with (S (Z.to_nat j)) in Hb by lia. }
    exists b. split; [exact Hbj |].
    destruct (a >? b)%Z; [| reflexivity].
    destruct (load_in_bounds junk 8 "arr" l j log) as (t & Ht & ->); [lia |].
    destruct (load_in_bounds junk 9 "arr" l (j + 1) log) as (v & Hv & ->); [lia |].
    rewrite store_in_bounds by lia.
    rewrite store_in_bounds by (rewrite length_insert; lia). cbn.
    replace (Z.to_nat (j + 1)) with (S (Z.to_nat j)) by lia. congruence.
  - intros Hlast. rewrite load_past_end by lia.
    assert (Hle : (a <= junk (length log))%Z).
    { apply junk_large. rewrite <- Hperm. by apply list_elem_of_lookup_2 with (Z.to_nat j). }
    destruct (Z.gtb_spec a (junk (length log))); [lia | reflexivity].
Qed.

(** One pass of the inner loop extends the sorted part by one element. *)
Lemma inner_loop_pass (k : nat) (l : list Z) (log : list oob) :
  1 <= k <= length l -> l ≡ₚ arr0 -> sorted_from k l ->
  let l' := (inner_loop junk (Z.of_nat (length l)) l log).1 in
  l' ≡ₚ arr0 /\ sorted_from (k - 1) l'.
Proof.
  intros Hk Hperm Hsorted. cbv zeta. unfold inner_loop.
  pose (I := fun (j : Z) (a : list Z) (_ : list oob) =>
    a ≡ₚ arr0 /\ sorted_from k a /\ top_at (Nat.min (Z.to_nat j) (k - 1)) a).
  assert (HI : let r := for_loop (Z.to_nat (Z.of_nat (length l)))
                          (fun j => (j <? Z.of_nat (length l))%Z) 0%Z
                          (compare_and_swap junk) l log in
               I (Z.of_nat (length l)) r.1 r.2).
  { apply (for_loop_lt_invariant I 0%Z (Z.of_nat (length l))); [| lia | lia |].
    - intros j a lg Hj (Hpa & Hsa & Hta).
      assert (Hlen : length a = length l) by (by rewrite Hpa, Hperm).
      destruct (compare_and_swap_pass j a lg) as (x & Hx & Hin & Hlast);
        [lia | exact Hpa |].
      destruct (decide (j + 1 = Z.of_nat (length a))%Z) as [Heq | Hne].
      + rewrite (Hlast Heq). split; [exact Hpa |]. split; [exact Hsa |].
        replace (Nat.min (Z.to_nat (j + 1)) (k - 1)) with (Nat.min (Z.to_nat j) (k - 1))
          by lia. exact Hta.
      + destruct Hin as (y & Hy & ->); [lia |].
        destruct (pass_step k (Z.to_nat j) a x y) as [Hs' Ht']; try assumption; [lia |].
        unfold I. cbn [fst snd].
        replace (Z.to_nat (j + 1)) with (S (Z.to_nat j)) by lia.
        split; [| by split].
        destruct (x >? y)%Z; [| exact Hpa]. by rewrite swap_permutation.
    - split; [exact Hperm |]. split; [exact Hsorted |].
      intros p x y Hp. cbn in Hp. lia. }
  destruct HI as (Hp' & Hs' & Ht').
  split; [exact Hp' |]. apply pass_done; [lia | exact Hs' |].
  replace (Nat.min (Z.to_nat (Z.of_nat (length l))) (k - 1)) with (k - 1) in Ht' by lia.
  exact Ht'.
Qed.

Lemma buggy_bubble_sort_sorts_aux :
  let r := (buggy_bubble_sort junk arr0 (Z.of_nat (length arr0)) []).1 in
  r ≡ₚ arr0 /\ sorted r.
Proof.
  cbv zeta. unfold buggy_bubble_sort. set (n := length arr0).
  pose (I := fun (i : Z) (a : list Z) (_ : list oob) =>
    a ≡ₚ arr0 /\ sorted_from (n - Z.to_nat i) a).
  assert (HI : let r := for_loop (Z.to_nat (Z.of_nat n)) (fun i => (i <? Z.of_nat n)%Z) 0%Z
                          (fun _ a => inner_loop junk (Z.of_nat n) a) arr0 [] in
               I (Z.of_nat n) r.1 r.2).
  { apply (for_loop_lt_invariant I 0%Z (Z.of_nat n)); [| lia | lia |].
    - intros i a lg Hi (Hpa & Hsa).
      assert (Hlen : length a = n) by (by rewrite Hpa).
      rewrite <- Hlen.
      destruct (inner_loop_pass (length a - Z.to_nat i) a lg) as [Hp' Hs'];
        [lia | exact Hpa | by rewrite Hlen |].
      split; [exact Hp' |].
      replace (n - Z.to_nat (i + 1)) with (length a - Z.to_nat i - 1) by lia.
      exact Hs'.
    - split; [reflexivity |]. intros p q x y Hpq Hq Hp Hy.
      apply lookup_lt_Some in Hy. cbn in Hq. lia. }
  destruct HI as [Hp Hs]. split; [exact Hp |].
  unfold sorted. by replace (n - Z.to_nat (Z.of_nat n)) with 0 in Hs by lia.
Qed.

End BubbleSortOrder.

(** X5. When every value read past the end of the array is at least as
    large as every element (so that the comparison of line 7 never holds at
    [j = n - 1]), [buggy_bubble_sort] sorts: the final array is a permutation
    of the initial one and is in ascending order. *)
Theorem buggy_bubble_sort_sorts (junk : nat -> Z) (arr : list Z) :
  (forall k x, x ∈ arr -> x <= junk k) ->
  let r := (BubbleSort.buggy_bubble_sort junk arr (Z.of_nat (length arr)) []).1 in
  r ≡ₚ arr /\
  (forall p q x y, (p < q)%nat -> r !! p = Some x -> r !! q = Some y -> x <= y).
Proof.
  intros Hjunk. destruct (buggy_bubble_sort_sorts_aux junk arr Hjunk) as [Hperm Hsorted].
  split; [exact Hperm |]. intros p q x y Hpq Hp Hq.
  apply (Hsorted p q x y); [exact Hpq | lia | exact Hp | exact Hq].
Qed.

Lemma buggy_bubble_sort_sorts_witness :
  (forall k x, x ∈ [5; 3; 2; 4; 1] -> x <= (fun _ : nat => CInt.INT_MAX) k) /\
  (BubbleSort.main (fun _ => CInt.INT_MAX) []).1 ≡ₚ [5; 3; 2; 4; 1].
Proof.
  assert (H : forall (k : nat) x, x ∈ [5; 3; 2; 4; 1] -> x <= CInt.INT_MAX).
  { intros k x Hx. unfold CInt.INT_MAX.
    repeat (apply elem_of_cons in Hx as [-> | Hx]; [lia |]).
    by apply not_elem_of_nil in Hx. }
  split; [exact H |].
  exact (proj1 (buggy_bubble_sort_sorts (fun _ => CInt.INT_MAX) [5; 3; 2; 4; 1] H)).
Defined.

(** ** dijkstra_safe.c: what [minDistance] returns *)

Section MinDistanceResult.
Import Mem DijkstraSafe.

Variable junk : nat -> Z.

(** The state of the loop of [minDistance] before iteration [v]: either no
    vertex below [v] is unprocessed and the state is the initial one, or
    [min_index] is the last unprocessed vertex below [v] of minimal
    distance and [min] is its distance. *)
Lemma safe_minDistance_loop dist sptSet log :
  Z.of_nat (length dist) = V -> Z.of_nat (length sptSet) = V ->
  Forall (fun d => d <= CInt.INT_MAX) dist ->
  let r := for_loop (Z.to_nat V) (fun v => v <? V) 0
             (minDistance_step junk dist sptSet) (CInt.INT_MAX, -1) log in
  (r.1.2 = -1 /\ forall w, 0 <= w < V -> index sptSet w <> Some 0) \/
  (0 <= r.1.2 < V /\ index sptSet r.1.2 = Some 0 /\ index dist r.1.2 = Some r.1.1 /\
   forall w dw, 0 <= w < V -> index sptSet w = Some 0 -> index dist w = Some dw ->
     r.1.1 <= dw /\ (r.1.2 < w -> r.1.1 < dw)).
Proof.
  intros Hd Hs Hmax.
  pose (I := fun (v : Z) (st : Z * Z) (_ : list oob) =>
    (st.2 = -1 /\ st.1 = CInt.INT_MAX /\
     forall w, 0 <= w < v -> index sptSet w <> Some 0) \/
    (0 <= st.2 < v /\ index sptSet st.2 = Some 0 /\ index dist st.2 = Some st.1 /\
     forall w dw, 0 <= w < v -> index sptSet w = Some 0 -> index dist w = Some dw ->
       st.1 <= dw /\ (st.2 < w -> st.1 < dw))).
  assert (HI : let r := for_loop (Z.to_nat V) (fun v => v <? V) 0
                  (minDistance_step junk dist sptSet) (CInt.INT_MAX, -1) log in
               I V r.1 r.2).
  { apply (for_loop_lt_invariant I 0 V); [| unfold V; lia | reflexivity |].
    - intros v st lg Hv HI.
      destruct (safe_minDistance_step junk dist sptSet v st lg Hd Hs Hv)
        as (s & d & Hsv & Hdv & ->).
      cbn [fst snd].
      pose proof (index_Forall _ _ _ _ Hmax Hdv) as Hdmax. cbn in Hdmax.
      destruct (Z.eqb_spec s 0) as [-> | Hs0]; cbn [andb].
      + destruct (Z.leb_spec d st.1) as [Hle | Hgt].
        * right. cbn [fst snd]. split; [lia |]. split; [exact Hsv |].
          split; [exact Hdv |]. intros w dw Hw Hw0 Hwd.
          destruct (Z.eq_dec w v) as [-> | Hne].
          -- rewrite Hdv in Hwd. injection Hwd as <-. lia.
          -- destruct HI as [(_ & _ & Hnone) | (_ & _ & _ & Hmin)].
             ++ exfalso. apply (Hnone w); [lia | exact Hw0].
             ++ destruct (Hmin w dw ltac:(lia) Hw0 Hwd). lia.
        * destruct HI as [(_ & Hinit & _) | (Hrange & Hi0 & Hid & Hmin)]; [lia |].
          right. split; [lia |]. split; [exact Hi0 |]. split; [exact Hid |].
          intros w dw Hw Hw0 Hwd.
          destruct (Z.eq_dec w v) as [-> | Hne].
          -- rewrite Hdv in Hwd. injection Hwd as <-. lia.
          -- apply Hmin; [lia | exact Hw0 | exact Hwd].
      + destruct HI as [(Hidx & Hinit & Hnone) | (Hrange & Hi0 & Hid & Hmin)].
        * left. split; [exact Hidx |]. split; [exact Hinit |].
          intros w Hw. destruct (Z.eq_dec w v) as [-> | Hne]; [congruence |].
          apply Hnone. lia.
        * right. split; [lia |]. split; [exact Hi0 |]. split; [exact Hid |].
          intros w dw Hw Hw0 Hwd.
          destruct (Z.eq_dec w v) as [-> | Hne]; [congruence |].
          apply Hmin; [lia | exact Hw0 | exact Hwd].
    - left. cbn [fst snd]. split; [reflexivity |]. split; [reflexivity |]. lia. }
  cbv zeta in HI. unfold I in HI.
  destruct HI as [(Hidx & _ & Hnone) | Hright]; [left; by split | by right].
Qed.

End MinDistanceResult.

(** X6. When every vertex is already processed, [minDistance] of
    dijkstra_safe.c finds no candidate and returns its initial [-1], which
    is not a valid index. *)
Theorem minDistance_all_processed (junk : nat -> Z) (dist sptSet : list Z)
    (log : list Mem.oob) :
  Z.of_nat (length dist) = DijkstraSafe.V ->
  Z.of_nat (length sptSet) = DijkstraSafe.V ->
  Forall (fun s => s <> 0) sptSet ->
  DijkstraSafe.minDistance junk dist sptSet log = (-1, log).
Proof.
  intros Hd Hs Hall. unfold DijkstraSafe.minDistance, Mem.bind.
  assert (HI : let r := Mem.for_loop (Z.to_nat DijkstraSafe.V)
                          (fun v => v <? DijkstraSafe.V) 0
                          (DijkstraSafe.minDistance_step junk dist sptSet)
                          (CInt.INT_MAX, -1) log in
               r.1 = (CInt.INT_MAX, -1) /\ r.2 = log).
  { apply (for_loop_lt_invariant
             (fun _ st lg => st = (CInt.INT_MAX, -1) /\ lg = log) 0 DijkstraSafe.V);
      [| unfold DijkstraSafe.V; lia | reflexivity | by split].
    intros v st lg Hv [-> ->].
    destruct (safe_minDistance_step junk dist sptSet v (CInt.INT_MAX, -1) log Hd Hs Hv)
      as (s & d & Hsv & _ & ->).
    pose proof (index_Forall _ _ _ _ Hall Hsv) as Hne. cbn in Hne.
    by destruct (Z.eqb_spec s 0). }
  destruct (Mem.for_loop _ _ _ _ _ log) as [st lg]. cbn in HI.
  destruct HI as [-> ->]. reflexivity.
Qed.

Lemma minDistance_all_processed_witness :
  Z.of_nat (length [0; 10; 50; 30; 60]) = DijkstraSafe.V /\
  Forall (fun s => s <> 0) [1; 1; 1; 1; 1] /\
  DijkstraSafe.minDistance (fun _ => 0) [0; 10; 50; 30; 60] [1; 1; 1; 1; 1] [] = (-1, []).
Proof.
  assert (H : Forall (fun s => s <> 0) [1; 1; 1; 1; 1]).
  { repeat (apply Forall_cons; split; [lia |]). apply Forall_nil_2. }
  split; [reflexivity |]. split; [exact H |].
  exact (minDistance_all_processed (fun _ => 0) [0; 10; 50; 30; 60] [1; 1; 1; 1; 1] []
           eq_refl eq_refl H).
Defined.

(** X7. When some vertex is unprocessed and no distance is above
    [INT_MAX], [minDistance] of dijkstra_safe.c makes no out-of-bounds
    access (the record is left as it was) and returns a vertex
    [0 <= u < V]: an unprocessed one whose distance is minimal among the
    unprocessed ones; among several of minimal distance it returns the last
    (the comparison is [<=]). *)
Theorem minDistance_picks_minimum (junk : nat -> Z) (dist sptSet : list Z)
    (log : list Mem.oob) :
  Z.of_nat (length dist) = DijkstraSafe.V ->
  Z.of_nat (length sptSet) = DijkstraSafe.V ->
  Forall (fun d => d <= CInt.INT_MAX) dist ->
  (exists w, 0 <= w < DijkstraSafe.V /\ Mem.index sptSet w = Some 0) ->
  exists u,
    DijkstraSafe.minDistance junk dist sptSet log = (u, log) /\
    0 <= u < DijkstraSafe.V /\
    Mem.index sptSet u = Some 0 /\
    exists du, Mem.index dist u = Some du /\
      forall w dw, Mem.index sptSet w = Some 0 -> Mem.index dist w = Some dw ->
        du <= dw /\ (u < w -> du < dw).
Proof.
  intros Hd Hs Hmax Hex.
  destruct (safe_minDistance junk dist sptSet log Hd Hs Hmax Hex) as [Hlog Hrange].
  destruct Hex as (w0 & Hw0 & Hw0z).
  cbv zeta in Hlog, Hrange.
  exists (DijkstraSafe.minDistance junk dist sptSet log).1.
  split.
  { destruct (DijkstraSafe.minDistance junk dist sptSet log) as [u lg].
    cbn in Hlog. by subst lg. }
  split; [exact Hrange |].
  unfold DijkstraSafe.minDistance, Mem.bind.
  pose proof (safe_minDistance_loop junk dist sptSet log Hd Hs Hmax) as Hloop.
  cbv zeta in Hloop.
  destruct (Mem.for_loop _ _ _ _ _ log) as [st lg]. cbn in *.
  destruct Hloop as [[_ Hnone] | (_ & Hzero & Hdist & Hmin)].
  - exfalso. by apply (Hnone w0).
  - split; [exact Hzero |]. exists st.1. split; [exact Hdist |].
    intros w dw Hwz Hwd. apply Hmin; [| exact Hwz | exact Hwd].
    apply index_Some_range in Hwz. lia.
Qed.

Lemma minDistance_picks_minimum_witness :
  Z.of_nat (length [0; 7; 3; 3; 9]) = DijkstraSafe.V /\
  Z.of_nat (length [1; 0; 0; 0; 0]) = DijkstraSafe.V /\
  Forall (fun d => d <= CInt.INT_MAX) [0; 7; 3; 3; 9] /\
  (exists w, 0 <= w < DijkstraSafe.V /\ Mem.index [1; 0; 0; 0; 0] w = Some 0) /\
  exists u,
    DijkstraSafe.minDistance (fun _ => 0) [0; 7; 3; 3; 9] [1; 0; 0; 0; 0] [] = (u, []) /\
    0 <= u < DijkstraSafe.V /\
    Mem.index [1; 0; 0; 0; 0] u = Some 0 /\
    exists du, Mem.index [0; 7; 3; 3; 9] u = Some du /\
      forall w dw, Mem.index [1; 0; 0; 0; 0] w = Some 0 ->
        Mem.index [0; 7; 3; 3; 9] w = Some dw ->
        du <= dw /\ (u < w -> du < dw).
Proof.
  assert (H1 : Z.of_nat (length [0; 7; 3; 3; 9]) = DijkstraSafe.V) by reflexivity.
  assert (H2 : Z.of_nat (length [1; 0; 0; 0; 0]) = DijkstraSafe.V) by reflexivity.
  assert (H3 : Forall (fun d => d <= CInt.INT_MAX) [0; 7; 3; 3; 9]).
  { unfold CInt.INT_MAX. repeat (apply Forall_cons; split; [lia |]). apply Forall_nil_2. }
  assert (H4 : exists w, 0 <= w < DijkstraSafe.V /\ Mem.index [1; 0; 0; 0; 0] w = Some 0).
  { exists 1. split; [unfold DijkstraSafe.V; lia | reflexivity]. }
  split; [exact H1 |]. split; [exact H2 |]. split; [exact H3 |]. split; [exact H4 |].
  exact (minDistance_picks_minimum (fun _ => 0) [0; 7; 3; 3; 9] [1; 0; 0; 0; 0] []
           H1 H2 H3 H4).
Defined.

(** ** dijkstra_safe.c: the distance of the source *)

Section DijkstraSafeSourceProperties.
Import Mem DijkstraSafe DijkstraSafeSource.

Variable junk : nat -> Z.
Variable graph : list (list Z).

Hypothesis graph_rows : Z.of_nat (length graph) = V.
Hypothesis graph_cols : Forall (fun row => Z.of_nat (length row) = V) graph.

Ltac inside :=
  match goal with
  | |- context [load junk ?l ?n ?a ?i ?log] =>
      let H := fresh in
      destruct (load_in_bounds junk l n a i log) as (? & _ & H); [lia |];
      rewrite H; clear H; cbv beta iota
  | |- context [load2 junk ?l ?n ?m ?i ?k ?log] =>
      let H := fresh in
      destruct (load2_in_bounds junk l n m i k log graph_rows graph_cols) as (? & H);
        [lia | lia |];
      rewrite H; clear H; cbv beta iota
  end.

(** [relax] stores to [dist[v]] only, and only when [v] is unprocessed. *)
Lemma safe_relax_effect sptSet u v dist log :
  Z.of_nat (length dist) = V -> Z.of_nat (length sptSet) = V ->
  0 <= u < V -> 0 <= v < V ->
  let r := relax junk graph sptSet u v dist log in
  r.1 = dist \/
  (index sptSet v = Some 0 /\ exists x, r.1 = <[Z.to_nat v := x]> dist).
Proof.
  intros Hd Hs Hu Hv. unfold relax, bind.
  destruct (load_in_bounds junk 46 "sptSet" sptSet v log) as (s & Hsv & ->); [lia |].
  cbv beta iota.
  destruct (Z.eqb_spec s 0) as [-> | Hs0]; [| by left].
  inside. destruct (negb _); [| by left].
  inside. destruct (negb _); [| by left].
  do 3 inside. destruct (_ <? _); [| by left].
  do 2 inside. rewrite store_in_bounds by lia. cbn.
  right. split; [exact Hsv |]. by eexists.
Qed.

Lemma safe_relax_keeps_processed sptSet u v dist log w :
  Z.of_nat (length dist) = V -> Z.of_nat (length sptSet) = V ->
  0 <= u < V -> 0 <= v < V -> 0 <= w < V ->
  index sptSet w <> Some 0 ->
  index (relax junk graph sptSet u v dist log).1 w = index dist w.
Proof.
  intros Hd Hs Hu Hv Hw Hproc.
  destruct (safe_relax_effect sptSet u v dist log Hd Hs Hu Hv) as [-> | (Hv0 & x & ->)];
    [reflexivity |].
  assert (Hne : w <> v) by congruence.
  unfold index. destruct (Z.ltb_spec w 0); [reflexivity |].
  rewrite list_lookup_insert_ne; [reflexivity | lia].
Qed.

Lemma safe_relax_loop_keeps_processed sptSet u dist log w :
  Z.of_nat (length dist) = V -> Z.of_nat (length sptSet) = V ->
  Forall (fun d => d <= CInt.INT_MAX) dist ->
  0 <= u < V -> 0 <= w < V ->
  index sptSet w <> Some 0 ->
  index (for_loop (Z.to_nat V) (fun v => v <? V) 0
           (relax junk graph sptSet u) dist log).1 w = index dist w.
Proof.
  intros Hd Hs Hmax Hu Hw Hproc.
  apply (for_loop_lt_invariant
           (fun _ d _ => Z.of_nat (length d) = V /\ index d w = index dist w) 0 V);
    [| unfold V; lia | reflexivity | by split].
  intros v d lg Hv [Hdl Hdw]. split.
  - destruct (safe_relax_effect sptSet u v d lg Hdl Hs Hu Hv) as [-> | (_ & x & ->)];
      [exact Hdl | by rewrite length_insert].
  - by rewrite safe_relax_keeps_processed.
Qed.

(** [minDistance], in full: no access outside the arrays, and the vertex
    returned is unprocessed and of minimal distance. *)
Lemma safe_minDistance_full dist sptSet log :
  Z.of_nat (length dist) = V -> Z.of_nat (length sptSet) = V ->
  Forall (fun d => d <= CInt.INT_MAX) dist ->
  (exists w, 0 <= w < V /\ index sptSet w = Some 0) ->
  exists u du,
    minDistance junk dist sptSet log = (u, log) /\ 0 <= u < V /\
    index sptSet u = Some 0 /\ index dist u = Some du /\
    forall w dw, index sptSet w = Some 0 -> index dist w = Some dw -> du <= dw.
Proof.
  intros Hd Hs Hmax Hex.
  destruct (safe_minDistance junk dist sptSet log Hd Hs Hmax Hex) as [Hlog Hrange].
  destruct Hex as (w0 & Hw0 & Hw0z).
  pose proof (safe_minDistance_loop junk dist sptSet log Hd Hs Hmax) as Hloop.
  unfold minDistance, bind in *. cbv zeta in Hloop.
  destruct (for_loop _ _ _ _ _ log) as [st lg]. cbn in *. subst lg.
  destruct Hloop as [[_ Hnone] | (_ & Hzero & Hdist & Hmin)].
  - exfalso. by apply (Hnone w0).
  - exists st.2, st.1. split; [reflexivity |]. split; [exact Hrange |].
    split; [exact Hzero |]. split; [exact Hdist |].
    intros w dw Hwz Hwd.
    assert (Hw : 0 <= w < V) by (apply index_Some_range in Hwz; lia).
    by destruct (Hmin w dw Hw Hwz Hwd).
Qed.

Variable src : Z.
Hypothesis src_range : 0 <= src < V.

Lemma safe_visit_source count st log :
  0 <= count < V - 1 -> source_settled src count st ->
  source_settled src (count + 1) (visit junk graph count st log).1.
Proof.
  intros Hcount (Hd & Hs & Hmax & Hproc & Hsrc & Hfirst & Hlater).
  unfold visit, bind.
  destruct (unprocessed_exists st.2) as [w Hw]; [lia |].
  destruct (safe_minDistance_full st.1 st.2 log Hd Hs Hmax)
    as (u & du & -> & Hu & Hu0 & Hdu & Hmin).
  { exists (Z.of_nat w). pose proof (lookup_lt_Some _ _ _ Hw). split; [lia |].
    unfold index. destruct (Z.ltb_spec (Z.of_nat w) 0); [lia |].
    by rewrite Nat2Z.id. }
  rewrite store_in_bounds by lia.
  set (sptSet' := <[Z.to_nat u := 1]> st.2).
  assert (Hs' : Z.of_nat (length sptSet') = V) by (subst sptSet'; by rewrite length_insert).
  assert (Hsrc' : index sptSet' src <> Some 0).
  { subst sptSet'. unfold index. destruct (Z.ltb_spec src 0); [lia |].
    destruct (Z.eq_dec u src) as [-> | Hne].
    - rewrite list_lookup_insert_eq by lia. discriminate.
    - rewrite list_lookup_insert_ne by lia.
      destruct (Z.eq_dec count 0) as [-> | Hc].
      + exfalso. destruct (Hfirst eq_refl) as [Hdist Hspt].
        assert (Hsrc0 : index st.2 src = Some 0).
        { rewrite Hspt. unfold index. destruct (Z.ltb_spec src 0); [lia |].
          apply lookup_replicate_2. lia. }
        pose proof (Hmin src 0 Hsrc0 Hsrc) as Hle.
        rewrite Hdist in Hdu. unfold index in Hdu.
        destruct (Z.ltb_spec u 0); [lia |].
        rewrite list_lookup_insert_ne in Hdu by lia.
        apply lookup_replicate_1 in Hdu as [Hdu _]. unfold CInt.INT_MAX in Hdu. lia.
      + pose proof (Hlater ltac:(lia)) as Hl. unfold index in Hl.
        by destruct (Z.ltb_spec src 0); [lia |]. }
  destruct (safe_relax_loop junk graph sptSet' u st.1 log graph_rows graph_cols Hd Hs' Hmax Hu)
    as (_ & Hlen' & Hmax').
  pose proof (safe_relax_loop_keeps_processed sptSet' u st.1 log src Hd Hs' Hmax Hu
                src_range Hsrc') as Hkeep.
  destruct (for_loop _ _ _ _ st.1 log) as [dist' lg]. cbn in Hlen', Hmax', Hkeep.
  unfold ret. cbn [fst snd]. unfold source_settled. cbn [fst snd].
  split; [exact Hlen' |]. split; [exact Hs' |]. split; [exact Hmax' |].
  split; [| split; [by rewrite Hkeep | split; [lia | by intros _]]].
  pose proof (processed_insert st.2 (Z.to_nat u) 1). subst sptSet'. lia.
Qed.

Lemma safe_dijkstra_source :
  let d := (dijkstra junk graph src []).1 in
  Z.of_nat (length d) = V /\ index d src = Some 0.
Proof.
  cbv zeta. unfold dijkstra, bind. rewrite safe_init_loop. cbn [fst snd].
  rewrite store_in_bounds by (rewrite length_replicate; unfold V in *; lia).
  assert (HI : let r := for_loop (Z.to_nat (V - 1)) (fun count => count <? V - 1) 0
                  (visit junk graph)
                  (<[Z.to_nat src := 0]> (replicate (Z.to_nat V) CInt.INT_MAX),
                   replicate (Z.to_nat V) 0) [] in
               source_settled src (V - 1) r.1).
  { apply (for_loop_lt_invariant (fun count st _ => source_settled src count st) 0 (V - 1));
      [| unfold V; lia | reflexivity |].
    - intros count st lg Hc Hst. by apply safe_visit_source.
    - unfold source_settled. cbn [fst snd].
      split; [rewrite length_insert, length_replicate; unfold V; lia |].
      split; [rewrite length_replicate; unfold V; lia |].
      split; [apply Forall_insert; [apply Forall_replicate; lia | unfold CInt.INT_MAX; lia] |].
      split; [vm_compute; lia |].
      split; [| split; [by intros _ | lia]].
      unfold index. destruct (Z.ltb_spec src 0); [lia |].
      apply list_lookup_insert_eq. rewrite length_replicate. unfold V in *. lia. }
  destruct (for_loop _ _ _ (visit junk graph) _ _) as [st lg].
  cbv zeta in HI. cbn [fst snd] in HI.
  destruct HI as (Hd & _ & _ & _ & Hsrc & _).
  destruct (printSolution junk st.1 lg) as [[] lp]. cbn. by split.
Qed.

End DijkstraSafeSourceProperties.

(** X8. On a [V] by [V] matrix and with [0 <= src < V], [dijkstra] of
    dijkstra_safe.c ends with [V] distances, and the distance of the source
    is 0, whatever the weights are (negative weights and overflowing sums
    included): the source is the first vertex processed, and the distance of
    a processed vertex is never stored to again. *)
Theorem dijkstra_safe_source_distance (junk : nat -> Z) (graph : list (list Z)) (src : Z) :
  Z.of_nat (length graph) = DijkstraSafe.V ->
  Forall (fun row => Z.of_nat (length row) = DijkstraSafe.V) graph ->
  0 <= src < DijkstraSafe.V ->
  let d := (DijkstraSafe.dijkstra junk graph src []).1 in
  Z.of_nat (length d) = DijkstraSafe.V /\ Mem.index d src = Some 0.
Proof.
  intros Hg Hrows Hsrc. by apply safe_dijkstra_source.
Qed.

Lemma dijkstra_safe_source_distance_witness :
  Z.of_nat (length DijkstraSafe.main_graph) = DijkstraSafe.V /\
  0 <= 0 < DijkstraSafe.V /\
  Mem.index (DijkstraSafe.main (fun _ => 0) []).1 0 = Some 0.
Proof.
  assert (Hrows : Forall (fun row => Z.of_nat (length row) = DijkstraSafe.V)
                    DijkstraSafe.main_graph).
  { unfold DijkstraSafe.main_graph. repeat (apply Forall_cons; split; [reflexivity |]).
    apply Forall_nil_2. }
  assert (Hsrc : 0 <= 0 < DijkstraSafe.V) by (unfold DijkstraSafe.V; lia).
  split; [reflexivity |]. split; [exact Hsrc |].
  exact (proj2 (dijkstra_safe_source_distance (fun _ => 0) DijkstraSafe.main_graph 0
                  eq_refl Hrows Hsrc)).
Defined.

(** ** str_copy.c: when [strncpy] leaves its arrays *)

Section StrCopyFaultsProperties.
Import StrCopy StrCopyFaults.
Local Open Scope nat_scope.

Variable smem : list byte.

Lemma write_outside (mem : list byte) (p : nat) (c : byte) :
  length mem <= p -> write mem p c = None.
Proof. intros Hp. unfold write. by rewrite decide_False by lia. Qed.

Lemma write_inside (mem : list byte) (p : nat) (c : byte) :
  p < length mem -> write mem p c = Some (<[p := c]> mem).
Proof. intros Hp. unfold write. by rewrite decide_True by lia. Qed.

Lemma strncpy_None (k : nat) (mem : list byte) (p sp : nat) :
  strncpy mem smem p sp k = None <-> overruns smem k mem p sp.
Proof.
  unfold strncpy, overruns. destruct (copy_loop smem k mem p sp) as [st |]; cbn; [| done].
  destruct (StrCopy.n st) as [| m]; [done |].
  destruct (pad_loop m (StrCopy.dmem st) (StrCopy.dst st)); cbn; done.
Qed.

Lemma pad_loop_overrun :
  forall (m : nat) (mem : list byte) (p : nat),
    p <= length mem -> length mem < p + m -> pad_loop m mem p = None.
Proof.
  induction m as [| m IH]; intros mem p Hp Hroom; [lia |].
  cbn [pad_loop]. destruct (decide (p < length mem)) as [Hin | Hout].
  - rewrite write_inside by exact Hin. cbn.
    apply IH; rewrite length_insert; lia.
  - by rewrite write_outside by lia.
Qed.

Lemma strncpy_overrun (rest : list byte) :
  forall (k : nat) (s mem : list byte) (p sp : nat),
    drop sp smem = s ++ NUL :: rest ->
    Forall (fun c => c <> NUL) s ->
    p <= length mem -> length mem < p + k ->
    overruns smem k mem p sp.
Proof.
  induction k as [| k IH]; intros s mem p sp Hsrc Hs Hp Hroom; [lia |].
  unfold overruns. cbn [copy_loop].
  destruct s as [| c s].
  - destruct (string_at_head smem sp NUL rest rest Hsrc) as [-> _]. cbn.
    destruct (decide (p < length mem)) as [Hin | Hout];
      [| by rewrite write_outside by lia].
    rewrite write_inside by exact Hin. cbn.
    apply pad_loop_overrun; rewrite length_insert; lia.
  - destruct (string_at_head smem sp c (s ++ NUL :: rest) rest Hsrc) as [-> Hnext]. cbn.
    destruct (decide (p < length mem)) as [Hin | Hout];
      [| by rewrite write_outside by lia].
    rewrite write_inside by exact Hin. cbn.
    apply Forall_cons in Hs as [Hc Hs].
    destruct (Byte.eqb c NUL) eqn:Hcn; [by apply Byte.byte_dec_bl in Hcn |].
    apply (IH s (<[p := c]> mem) (p + 1) (sp + 1) Hnext Hs);
      rewrite length_insert; lia.
Qed.

(** A source that ends before a NUL and before [k] characters. *)
Lemma copy_loop_unterminated :
  forall (s : list byte) (k : nat) (mem : list byte) (p sp : nat),
    drop sp smem = s -> Forall (fun c => c <> NUL) s -> length s < k ->
    copy_loop smem k mem p sp = None.
Proof.
  induction s as [| c s IH]; intros k mem p sp Hsrc Hs Hk;
    (destruct k as [| k]; [cbn in Hk; lia |]); cbn [copy_loop].
  - assert (Hend : smem !! sp = None).
    { replace sp with (sp + 0) by lia. rewrite <- lookup_drop. by rewrite Hsrc. }
    by rewrite Hend.
  - assert (Hhead : smem !! sp = Some c).
    { replace sp with (sp + 0) by lia. rewrite <- lookup_drop. by rewrite Hsrc. }
    assert (Hnext : drop (sp + 1) smem = s) by (by rewrite <- drop_drop, Hsrc).
    rewrite Hhead. cbn. destruct (write mem p c) as [mem' |]; [| reflexivity]. cbn.
    apply Forall_cons in Hs as [Hc Hs].
    destruct (Byte.eqb c NUL) eqn:Hcn; [by apply Byte.byte_dec_bl in Hcn |].
    apply IH; [exact Hnext | exact Hs | cbn in Hk; lia].
Qed.

(** As many characters as are left, none of them NUL, are copied inside
    a destination that has room for them. *)
Lemma copy_loop_all (post : list byte) :
  forall (s pre hole : list byte) (sp : nat),
    drop sp smem = s -> Forall (fun c => c <> NUL) s ->
    length hole = length s ->
    copy_loop smem (length s) (pre ++ hole ++ post) (length pre) sp =
      Some (State (pre ++ s ++ post) (length pre + length s) (sp + length s) 0).
Proof.
  induction s as [| c s IH]; intros pre hole sp Hsrc Hs Hhole.
  - destruct hole; [| discriminate]. cbn. by rewrite !Nat.add_0_r.
  - destruct hole as [| h hole]; [discriminate |].
    destruct (string_at_head smem sp c s [] Hsrc) as [Hhead Hnext].
    cbn [length copy_loop]. rewrite Hhead. cbn.
    change (pre ++ h :: hole ++ post) with (pre ++ h :: (hole ++ post)).
    rewrite write_hole. cbn.
    apply Forall_cons in Hs as [Hc Hs].
    destruct (Byte.eqb c NUL) eqn:Hcn; [by apply Byte.byte_dec_bl in Hcn |].
    pose proof (IH (pre ++ [c]) hole (sp + 1) Hnext Hs ltac:(cbn in Hhole; lia)) as Hrun.
    rewrite length_app in Hrun. cbn [length] in Hrun.
    rewrite <- !app_assoc in Hrun. cbn [app] in Hrun. rewrite Hrun.
    f_equal. f_equal; lia.
Qed.

End StrCopyFaultsProperties.

(** X9. For a NUL-terminated string at [src] and a pointer [dst] into (or
    one past) its array, [strncpy] stays inside the array of [dst] exactly
    when the array has [n] characters of room from [dst] on: it always
    writes [n] characters, so a destination with less room is overrun
    however short the string is. *)
Theorem strncpy_needs_room (mem smem : list byte) (p sp k : nat) (s rest : list byte) :
  drop sp smem = s ++ StrCopy.NUL :: rest ->
  Forall (fun c => c <> StrCopy.NUL) s ->
  (p <= length mem)%nat ->
  (is_Some (StrCopy.strncpy mem smem p sp k) <-> (p + k <= length mem)%nat).
Proof.
  intros Hsrc Hs Hp. split.
  - intros [r Hr]. destruct (decide (p + k <= length mem)%nat) as [Hle | Hgt]; [exact Hle |].
    assert (Hnone : StrCopy.strncpy mem smem p sp k = None).
    { apply strncpy_None. apply (strncpy_overrun smem rest k s); [done | done | done | lia]. }
    congruence.
  - intros Hroom. destruct (strncpy_spec mem smem p sp k s rest Hsrc Hs Hroom) as [-> _].
    by eexists.
Qed.

Lemma strncpy_needs_room_witness :
  drop 0 [x68; x69; x00] = [x68; x69] ++ StrCopy.NUL :: [] /\
  StrCopy.strncpy [x2e; x2e; x2e; x2e] [x68; x69; x00] 0 0 5 = None.
Proof.
  split; [reflexivity |].
  assert (Hs : Forall (fun c => c <> StrCopy.NUL) [x68; x69]).
  { repeat (apply Forall_cons; split; [discriminate |]). apply Forall_nil_2. }
  pose proof (strncpy_needs_room [x2e; x2e; x2e; x2e] [x68; x69; x00] 0 0 5
                [x68; x69] [] eq_refl Hs ltac:(cbn; lia)) as [Hto _].
  destruct (StrCopy.strncpy [x2e; x2e; x2e; x2e] [x68; x69; x00] 0 0 5) as [r |];
    [| reflexivity].
  exfalso. specialize (Hto ltac:(by eexists)). cbn in Hto. lia.
Defined.

(** X10. When the array of [src] ends before any NUL, with [L] characters
    left in it, fewer than [n], [strncpy] has no result, whatever the
    destination is; and when the destination has room for these [L]
    characters, the invalid access is the read of [src[L]], one past the
    end of the source array: the [L] characters are copied inside the
    destination (with [n = L] the first loop ends there), and the next
    test of the loop reads [src[L]], outside the array, and fails there
    whatever the destination is. *)
Theorem strncpy_unterminated_source (mem smem : list byte) (p sp k : nat) :
  Forall (fun c => c <> StrCopy.NUL) (drop sp smem) ->
  (length (drop sp smem) < k)%nat ->
  StrCopy.strncpy mem smem p sp k = None /\
  smem !! (sp + length (drop sp smem))%nat = None /\
  (forall (m : nat) (dmem : list byte) (d : nat),
      StrCopy.copy_loop smem (S m) dmem d (sp + length (drop sp smem)) = None) /\
  ((p + length (drop sp smem) <= length mem)%nat ->
   StrCopy.copy_loop smem (length (drop sp smem)) mem p sp =
     Some (StrCopy.State
             (take p mem ++ drop sp smem ++ drop (p + length (drop sp smem)) mem)
             (p + length (drop sp smem)) (sp + length (drop sp smem)) 0)).
Proof.
  intros Hs Hk.
  assert (Hread : smem !! (sp + length (drop sp smem))%nat = None).
  { apply lookup_ge_None_2. rewrite length_drop. lia. }
  split; [| split; [exact Hread | split]].
  - unfold StrCopy.strncpy.
    by rewrite (copy_loop_unterminated smem (drop sp smem) k mem p sp eq_refl Hs Hk).
  - intros m dmem d. cbn [StrCopy.copy_loop]. by rewrite Hread.
  - intros Hroom.
    destruct (split_at mem p (length (drop sp smem)) Hroom) as (Hmem & Hpre & Hhole).
    pose proof (copy_loop_all smem (drop (p + length (drop sp smem)) mem)
                  (drop sp smem) (take p mem)
                  (take (length (drop sp smem)) (drop p mem)) sp
                  eq_refl Hs Hhole) as Hrun.
    rewrite <- Hmem, Hpre in Hrun. exact Hrun.
Qed.

Lemma strncpy_unterminated_source_witness :
  Forall (fun c => c <> StrCopy.NUL) (drop 0 [x68; x69]) /\
  (length (drop 0 [x68; x69]) < 3)%nat /\
  StrCopy.strncpy [x2e; x2e; x2e; x2e] [x68; x69] 0 0 3 = None /\
  [x68; x69] !! 2%nat = None /\
  StrCopy.copy_loop [x68; x69] 1 [x68; x69; x2e; x2e] 2 2 = None /\
  StrCopy.copy_loop [x68; x69] 2 [x2e; x2e; x2e; x2e] 0 0 =
    Some (StrCopy.State [x68; x69; x2e; x2e] 2 2 0).
Proof.
  assert (Hs : Forall (fun c => c <> StrCopy.NUL) (drop 0 [x68; x69])).
  { repeat (apply Forall_cons; split; [discriminate |]). apply Forall_nil_2. }
  assert (Hk : (length (drop 0 [x68; x69]) < 3)%nat) by (cbn; lia).
  split; [exact Hs |]. split; [exact Hk |].
  destruct (strncpy_unterminated_source [x2e; x2e; x2e; x2e] [x68; x69] 0 0 3 Hs Hk)
    as (Hnone & Hread & Hnext & Hcopy).
  split; [exact Hnone |]. split; [exact Hread |].
  split; [exact (Hnext 0%nat [x68; x69; x2e; x2e] 2%nat) |].
  apply Hcopy. cbn. lia.
Defined.

(** ** [factorial] of samples/optimize-code/fact_01.c *)

Section FactorialProperties.
Import Factorial.

Lemma wrap_mul_l (a b : Z) : CInt.wrap (CInt.wrap a * b) = CInt.wrap (a * b).
Proof.
  unfold CInt.wrap. f_equal.
  replace ((a + 2147483648) mod 4294967296 - 2147483648)
    with ((a + 2147483648) mod 4294967296 + (-2147483648)) by lia.
  rewrite Z.mul_add_distr_r.
  rewrite <- Z.add_assoc.
  rewrite Zplus_mod, Zmult_mod, Z.mod_mod by lia.
  rewrite <- Zmult_mod, <- Zplus_mod.
  f_equal. lia.
Qed.

Lemma wrap_small (z : Z) : CInt.in_range z -> CInt.wrap z = z.
Proof.
  unfold CInt.in_range, CInt.INT_MIN, CInt.INT_MAX, CInt.wrap. intros H.
  rewrite Z.mod_small by lia. lia.
Qed.

Lemma factorial_loop_spec (m : nat) (r : Z) :
  factorial_loop m (Z.of_nat m) (CInt.wrap r) =
  CInt.wrap (r * Z.of_nat (fact m)).
Proof.
  revert r. induction m as [|m IH]; intros r.
  - cbn [factorial_loop fact]. f_equal. lia.
  - cbn [factorial_loop].
    replace (Z.of_nat (S m) >? 0) with true by (symmetry; apply Z.gtb_lt; lia).
    unfold mul. rewrite wrap_mul_l.
    replace (Z.of_nat (S m) - 1) with (Z.of_nat m) by lia.
    rewrite IH. f_equal.
    change (fact (S m)) with (S m * fact m)%nat. lia.
Qed.

Lemma factorial_spec (n : Z) :
  factorial n = CInt.wrap (Z.of_nat (fact (Z.to_nat n))).
Proof.
  unfold factorial. destruct (n <=? 0) eqn:Hn.
  - apply Z.leb_le in Hn. replace (Z.to_nat n) with O by lia. reflexivity.
  - apply Z.leb_gt in Hn.
    pose proof (factorial_loop_spec (Z.to_nat n) 1) as H.
    rewrite Z2Nat.id in H by lia.
    change (CInt.wrap 1) with 1 in H. rewrite H. f_equal. lia.
Qed.

Lemma fact_S_Z (m : nat) :
  Z.of_nat (fact (S m)) = Z.of_nat (S m) * Z.of_nat (fact m).
Proof. change (fact (S m)) with (S m * fact m)%nat. lia. Qed.

Lemma fact_12_Z : Z.of_nat (fact 12) = 479001600.
Proof. rewrite !fact_S_Z. change (fact 0) with 1%nat. lia. Qed.

Lemma fact_13_Z : Z.of_nat (fact 13) = 6227020800.
Proof. rewrite fact_S_Z, fact_12_Z. lia. Qed.

End FactorialProperties.

(** X11.  [factorial n] is the factorial of [n] reduced to 32 bits, for
    every [n] (1 for a negative [n]).  It is the factorial itself exactly
    for [n <= 12]: up to there no product overflows, which is how [main]
    gets 3628800 for 10, and from 13 on the factorial does not fit an
    [int]. *)
Theorem factorial_is_fact (n : Z) :
  Factorial.factorial n = CInt.wrap (Z.of_nat (fact (Z.to_nat n))) /\
  (Factorial.factorial n = Z.of_nat (fact (Z.to_nat n)) <-> n <= 12).
Proof.
  split; [apply factorial_spec|].
  rewrite factorial_spec. split.
  - intros H. destruct (Z_le_gt_dec n 12) as [|Hn]; [assumption|exfalso].
    assert (fact 13 <= fact (Z.to_nat n))%nat as Hf by (apply fact_le; lia).
    apply Nat2Z.inj_le in Hf. rewrite fact_13_Z in Hf.
    pose proof (wrap_range (Z.of_nat (fact (Z.to_nat n)))) as Hw.
    unfold CInt.in_range, CInt.INT_MIN, CInt.INT_MAX in Hw. lia.
  - intros Hn. apply wrap_small.
    assert (fact (Z.to_nat n) <= fact 12)%nat as H by (apply fact_le; lia).
    apply Nat2Z.inj_le in H. rewrite fact_12_Z in H.
    unfold CInt.in_range, CInt.INT_MIN, CInt.INT_MAX. lia.
Qed.

(** ** [get_from_index] of samples/optimize-code/ll.c *)

Section LinkedListProperties.
Import LinkedListSample.

Lemma walk_chain (h : gmap nat LinkedList) (nodes : list nat) :
  forall (m : nat) (p : nat),
    chain h p nodes ->
    p <> NULL ->
    walk m h p (Z.of_nat m) = Some (default NULL (nodes !! m)).
Proof.
  induction nodes as [|q rest IH]; intros m p Hc Hp.
  - cbn in Hc. contradiction.
  - destruct Hc as (-> & Hq & node & Hnode & Hrest).
    destruct m as [|m].
    + reflexivity.
    + cbn [walk].
      replace (Z.of_nat (S m) >? 0) with true by (symmetry; apply Z.gtb_lt; lia).
      rewrite Hnode. cbn.
      replace (Z.of_nat (S m) - 1) with (Z.of_nat m) by lia.
      destruct (decide (next node = NULL)) as [Hn|Hn].
      * destruct rest as [|q' rest'].
        -- reflexivity.
        -- destruct Hrest as (Hq' & Hnn & _). congruence.
      * apply IH; assumption.
Qed.

Lemma walk_closed (h : gmap nat LinkedList) :
  closed h ->
  forall (m : nat) (p : nat) (i : Z),
    is_Some (h !! p) ->
    exists q, walk m h p i = Some q /\ (q = NULL \/ is_Some (h !! q)).
Proof.
  intros Hcl. induction m as [|m IH]; intros p i Hp.
  - exists p. split; [reflexivity|by right].
  - cbn [walk]. destruct (i >? 0).
    + destruct Hp as [node Hnode]. rewrite Hnode. cbn.
      destruct (decide (next node = NULL)) as [Hn|Hn].
      * exists NULL. split; [reflexivity|by left].
      * apply IH. destruct (Hcl p node Hnode) as [?|?]; [contradiction|assumption].
    + exists p. split; [reflexivity|by right].
Qed.

End LinkedListProperties.

(** X12.  On a NULL-terminated list, [get_from_index] returns the address
    of the node at position [index], and [NULL] when [index] is negative or
    not less than the length of the list (in particular on the empty list);
    it reads through no pointer that is not a node of the list. *)
Theorem get_from_index_nth (h : gmap nat LinkedListSample.LinkedList)
    (root : nat) (nodes : list nat) (index : Z)
    (Hchain : LinkedListSample.chain h root nodes) :
  LinkedListSample.get_from_index h root index =
  Some (if index <? 0 then LinkedListSample.NULL
        else default LinkedListSample.NULL (nodes !! Z.to_nat index)).
Proof.
  unfold LinkedListSample.get_from_index.
  destruct (index <? 0) eqn:Hi; [reflexivity|].
  apply Z.ltb_ge in Hi. cbn [orb].
  destruct (bool_decide_reflect (root = LinkedListSample.NULL)) as [Hr|Hr].
  - destruct nodes as [|q rest].
    + by rewrite lookup_nil.
    + destruct Hchain as (-> & Hq & _). contradiction.
  - pose proof (walk_chain h nodes (Z.to_nat index) root Hchain Hr) as H.
    rewrite Z2Nat.id in H by lia. exact H.
Qed.

Lemma get_from_index_nth_witness :
  let h : gmap nat LinkedListSample.LinkedList :=
    <[4%nat := {| LinkedListSample.value := 7; LinkedListSample.next := 9%nat |}]>
    (<[9%nat := {| LinkedListSample.value := 8; LinkedListSample.next := 0%nat |}]> ∅) in
  LinkedListSample.chain h 4%nat [4%nat; 9%nat] /\
  LinkedListSample.get_from_index h 4%nat 1 = Some 9%nat /\
  LinkedListSample.get_from_index h 4%nat 2 = Some LinkedListSample.NULL.
Proof.
  intros h.
  assert (LinkedListSample.chain h 4%nat [4%nat; 9%nat]) as Hc.
  { cbn. split; [reflexivity|]. split; [discriminate|].
    eexists. split; [reflexivity|]. cbn.
    split; [reflexivity|]. split; [discriminate|].
    eexists. split; [reflexivity|]. reflexivity. }
  split; [exact Hc|]. split.
  - exact (get_from_index_nth h 4%nat [4%nat; 9%nat] 1 Hc).
  - exact (get_from_index_nth h 4%nat [4%nat; 9%nat] 2 Hc).
Defined.

(** X13.  On a heap whose stored pointers are all [NULL] or nodes,
    [get_from_index] from [NULL] or from a node reads through no invalid
    pointer and returns [NULL] or a node of the heap, for every [index];
    the list may share nodes or be cyclic. *)
Theorem get_from_index_no_invalid_read (h : gmap nat LinkedListSample.LinkedList)
    (root : nat) (index : Z)
    (Hclosed : LinkedListSample.closed h)
    (Hroot : root = LinkedListSample.NULL \/ is_Some (h !! root)) :
  exists q, LinkedListSample.get_from_index h root index = Some q /\
            (q = LinkedListSample.NULL \/ is_Some (h !! q)).
Proof.
  unfold LinkedListSample.get_from_index.
  destruct ((index <? 0) || bool_decide (root = LinkedListSample.NULL)) eqn:Hc.
  - exists LinkedListSample.NULL. split; [reflexivity|by left].
  - apply orb_false_iff in Hc as [_ Hr]. apply bool_decide_eq_false in Hr.
    destruct Hroot as [?|Hroot]; [contradiction|].
    by apply walk_closed.
Qed.

Lemma get_from_index_no_invalid_read_witness :
  let h : gmap nat LinkedListSample.LinkedList :=
    <[4%nat := {| LinkedListSample.value := 7; LinkedListSample.next := 9%nat |}]>
    (<[9%nat := {| LinkedListSample.value := 8; LinkedListSample.next := 4%nat |}]> ∅) in
  LinkedListSample.closed h /\
  (4%nat = LinkedListSample.NULL \/ is_Some (h !! 4%nat)) /\
  exists q, LinkedListSample.get_from_index h 4%nat 5 = Some q /\
            (q = LinkedListSample.NULL \/ is_Some (h !! q)).
Proof.
  intros h.
  assert (LinkedListSample.closed h) as Hcl.
  { intros p node Hp. right. unfold h in *.
    destruct (decide (p = 4%nat)) as [->|H4].
    - rewrite lookup_insert in Hp. 
      rewrite decide_True in Hp by reflexivity. injection Hp as <-. cbn. eexists. reflexivity.
    - rewrite lookup_insert_ne in Hp by congruence.
      destruct (decide (p = 9%nat)) as [->|H9].
      + rewrite lookup_insert in Hp. 
        rewrite decide_True in Hp by reflexivity. injection Hp as <-. cbn. eexists. reflexivity.
      + rewrite lookup_insert_ne in Hp by congruence.
        rewrite lookup_empty in Hp. discriminate. }
  assert (4%nat = LinkedListSample.NULL \/ is_Some (h !! 4%nat)) as Hr.
  { right. eexists. reflexivity. }
  split; [exact Hcl|]. split; [exact Hr|].
  exact (get_from_index_no_invalid_read h 4%nat 5 Hcl Hr).
Defined.

(** ** The heap and the trees of samples/huffman.c *)

Section HuffmanHeapProperties.
Import Mem Huffman HuffmanHeap HuffmanTree.

Lemma uint_small (z : Z) : 0 <= z < 4294967296 -> uint z = z.
Proof. intros H. unfold uint. apply Z.mod_small. lia. Qed.

Lemma index_app_nat {A} (l rest : list A) (j : nat) (x : A) :
  l !! j = Some x -> index (l ++ rest) (Z.of_nat j) = Some x.
Proof.
  intros H. unfold index.
  destruct (Z.ltb_spec (Z.of_nat j) 0); [lia|].
  rewrite Nat2Z.id. by apply lookup_app_l_Some.
Qed.

Lemma update_app_nat {A} (l rest : list A) (j : nat) (v : A) :
  (j < length l)%nat ->
  update (l ++ rest) (Z.of_nat j) v = Some (<[j := v]> l ++ rest).
Proof.
  intros H. unfold update.
  rewrite length_app.
  destruct (Z.leb_spec 0 (Z.of_nat j)); [|lia].
  destruct (Z.ltb_spec (Z.of_nat j) (Z.of_nat (length l + length rest))); [|lia].
  cbn. rewrite Nat2Z.id. by rewrite insert_app_l.
Qed.

Lemma freq_key (p : MinHeapNode) : p <> NULL -> freq p = Some (key p).
Proof. destruct p; [congruence|reflexivity]. Qed.

Lemma freq_at_lookup (l rest : list MinHeapNode) (j : nat) (x : MinHeapNode) :
  x <> NULL -> l !! j = Some x ->
  freq_at (l ++ rest) (Z.of_nat j) = Some (key x).
Proof.
  intros Hx Hj. unfold freq_at. rewrite (index_app_nat _ _ _ _ Hj). cbn.
  by apply freq_key.
Qed.

Lemma freq_at_app (l rest : list MinHeapNode) (j : nat) (x : MinHeapNode) :
  Forall (fun p => p <> NULL) l -> l !! j = Some x ->
  freq_at (l ++ rest) (Z.of_nat j) = Some (key x).
Proof.
  intros Hl Hj. apply freq_at_lookup; [|assumption].
  exact (Forall_lookup_1 _ _ _ _ Hl Hj).
Qed.

Lemma insert_head_permutation {A} (l : list A) (j : nat) (y a : A) :
  l !! j = Some y -> y :: <[j := a]> l ≡ₚ a :: l.
Proof.
  revert j. induction l as [|b t IH]; intros j Hj; [discriminate|].
  destruct j as [|j].
  - injection Hj as ->. apply perm_swap.
  - cbn in Hj. cbn. rewrite perm_swap. rewrite (IH _ Hj). apply perm_swap.
Qed.

Lemma exchange_permutation {A} (l : list A) (i j : nat) (x y : A) :
  l !! i = Some x -> l !! j = Some y -> <[j := x]> (<[i := y]> l) ≡ₚ l.
Proof.
  revert i j. induction l as [|b t IH]; intros i j Hi Hj; [discriminate|].
  destruct i as [|i], j as [|j]; cbn in Hi, Hj; cbn.
  - by injection Hi as ->.
  - injection Hi as ->. by apply insert_head_permutation.
  - injection Hj as ->. by apply insert_head_permutation.
  - apply perm_skip. by apply IH.
Qed.

Lemma swapMinHeapNode_app (l rest : list MinHeapNode) (i j : nat) (x y : MinHeapNode) :
  l !! i = Some x -> l !! j = Some y ->
  swapMinHeapNode (l ++ rest) (Z.of_nat i) (Z.of_nat j) =
  Some (<[j := x]> (<[i := y]> l) ++ rest).
Proof.
  intros Hi Hj. unfold swapMinHeapNode.
  rewrite (index_app_nat _ _ _ _ Hi), (index_app_nat _ _ _ _ Hj). cbn.
  rewrite update_app_nat by (by eapply lookup_lt_Some). cbn.
  apply update_app_nat. rewrite length_insert. by eapply lookup_lt_Some.
Qed.

(** One of the two comparisons of [minHeapify]. *)
Lemma smallest_step (l rest : list MinHeapNode) (sz : Z) (c s : nat)
    (x : MinHeapNode) :
  sz = Z.of_nat (length l) -> Z.of_nat (length l) < 1073741824 ->
  Forall (fun p => p <> NULL) l ->
  (c <= 2 * length l)%nat ->
  l !! s = Some x ->
  (if uint (Z.of_nat c) <? sz then
     lf ← freq_at (l ++ rest) (Z.of_nat c);
     sf ← freq_at (l ++ rest) (Z.of_nat s);
     Some (if lf <? sf then Z.of_nat c else Z.of_nat s)
   else Some (Z.of_nat s)) =
  Some (Z.of_nat (match l !! c with
                  | Some y => if key y <? key x then c else s
                  | None => s
                  end)).
Proof.
  intros -> Hlen Hl Hc Hs.
  rewrite uint_small by lia.
  destruct (Z.ltb_spec (Z.of_nat c) (Z.of_nat (length l))) as [Hlt|Hge].
  - destruct (lookup_lt_is_Some_2 l c) as [y Hy]; [lia|].
    rewrite Hy, (freq_at_app _ _ _ _ Hl Hy), (freq_at_app _ _ _ _ Hl Hs). cbn.
    by destruct (key y <? key x).
  - rewrite lookup_ge_None_2 by lia. reflexivity.
Qed.

Lemma minHeapify_spec (rest : list MinHeapNode) (lo : nat) :
  forall (fuel : nat) (k : nat) (l : list MinHeapNode) (h : MinHeap),
    size h = Z.of_nat (length l) -> array h = l ++ rest ->
    Forall (fun p => p <> NULL) l ->
    Z.of_nat (length l) < 1073741824 ->
    (lo <= k)%nat -> (k < length l)%nat -> (length l - k <= fuel)%nat ->
    heap_except lo k l ->
    exists l', minHeapify fuel h (Z.of_nat k) = Some (set_array h (l' ++ rest)) /\
               l' ≡ₚ l /\ heap_from lo l'.
Proof.
  induction fuel as [|fuel IH]; intros k l h Hsize Harr Hl Hlen Hlo Hk Hfuel [HA HB];
    [lia|].
  destruct (lookup_lt_is_Some_2 l k Hk) as [x Hx].
  cbn [minHeapify].
  rewrite !wrap_small
    by (unfold CInt.in_range, CInt.INT_MIN, CInt.INT_MAX; lia).
  replace (2 * Z.of_nat k + 1) with (Z.of_nat (2 * k + 1)) by lia.
  replace (2 * Z.of_nat k + 2) with (Z.of_nat (2 * k + 2)) by lia.
  rewrite Harr.
  rewrite (smallest_step l rest _ (2 * k + 1) k x Hsize Hlen Hl ltac:(lia) Hx).
  cbn [mbind option_bind].
  set (s1 := match l !! (2 * k + 1)%nat with
             | Some y => if key y <? key x then (2 * k + 1)%nat else k
             | None => k
             end).
  assert (exists x1, l !! s1 = Some x1 /\ key x1 <= key x /\
            (s1 = k \/ s1 = (2 * k + 1)%nat) /\
            (s1 = k -> x1 = x) /\
            (s1 <> k -> key x1 < key x) /\
            (forall y, l !! (2 * k + 1)%nat = Some y -> key x1 <= key y))
    as (x1 & Hx1 & Hx1x & Hs1 & Hs1k & Hs1n & Hx1l).
  { unfold s1. destruct (l !! (2 * k + 1)%nat) as [y|] eqn:Hy.
    - destruct (Z.ltb_spec (key y) (key x)).
      + exists y. repeat split; try lia; auto. intros y' [= ->]. lia.
      + exists x. repeat split; try lia; auto. intros y' [= ->]. lia.
    - exists x. repeat split; try lia; auto. discriminate. }
  rewrite (smallest_step l rest _ (2 * k + 2) s1 x1 Hsize Hlen Hl ltac:(lia) Hx1).
  cbn [mbind option_bind].
  set (s2 := match l !! (2 * k + 2)%nat with
             | Some y => if key y <? key x1 then (2 * k + 2)%nat else s1
             | None => s1
             end).
  assert (exists m, l !! s2 = Some m /\ key m <= key x /\
            (s2 = k \/ child s2 k) /\
            (s2 = k -> m = x) /\
            (s2 <> k -> key m < key x) /\
            (forall c y, child c k -> l !! c = Some y -> key m <= key y))
    as (m & Hm & Hmx & Hs2 & Hs2k & Hs2n & Hmin).
  { unfold s2. destruct (l !! (2 * k + 2)%nat) as [y|] eqn:Hy.
    - destruct (Z.ltb_spec (key y) (key x1)).
      + exists y. split; [assumption|]. split; [lia|].
        split; [right; right; reflexivity|]. split; [lia|]. split; [lia|].
        intros c y' [->| ->] Hc.
        * specialize (Hx1l _ Hc). lia.
        * rewrite Hy in Hc. injection Hc as ->. lia.
      + exists x1. split; [assumption|]. split; [lia|].
        split; [destruct Hs1 as [->| ->]; [by left|right; left; reflexivity]|].
        split; [assumption|].
        split.
        * assumption.
        * intros c y' [->| ->] Hc.
          -- by apply Hx1l.
          -- rewrite Hy in Hc. injection Hc as ->. assumption.
    - exists x1. split; [assumption|]. split; [lia|].
      split; [destruct Hs1 as [->| ->]; [by left|right; left; reflexivity]|].
      split; [assumption|].
      split.
      * assumption.
      * intros c y' [->| ->] Hc.
        -- by apply Hx1l.
        -- rewrite Hy in Hc. discriminate. }
  clearbody s2. clear s1 x1 Hx1 Hx1x Hs1 Hs1k Hs1n Hx1l.
  destruct (Z.eqb_spec (Z.of_nat s2) (Z.of_nat k)) as [Heq|Hne]; cbn [negb].
  - (* the node at [k] is not larger than its children *)
    apply Nat2Z.inj in Heq. subst s2. specialize (Hs2k eq_refl). subst m.
    exists l. split; [|split; [reflexivity|]].
    + f_equal. destruct h. cbn in *. by subst.
    + intros p c a b Hp Hc Ha Hb.
      destruct (decide (p = k)) as [->|Hpk].
      * rewrite Hx in Ha. injection Ha as <-. by eapply Hmin.
      * by eapply HA.
  - (* exchange with the smaller child and go on below *)
    assert (s2 <> k) as Hs2k' by congruence.
    destruct Hs2 as [?|Hchild]; [contradiction|].
    specialize (Hs2n Hs2k').
    pose proof (lookup_lt_Some _ _ _ Hm) as Hs2len.
    rewrite (swapMinHeapNode_app l rest s2 k m x Hm Hx). cbn [mbind option_bind].
    set (l1 := <[k := m]> (<[s2 := x]> l)).
    assert (l1 ≡ₚ l) as Hperm by (by apply exchange_permutation).
    assert (length l1 = length l) as Hlen1 by (unfold l1; by rewrite !length_insert).
    assert (l1 !! k = Some m) as Hl1k.
    { unfold l1. apply list_lookup_insert_eq. rewrite length_insert. lia. }
    assert (l1 !! s2 = Some x) as Hl1s.
    { unfold l1. rewrite list_lookup_insert_ne by congruence.
      apply list_lookup_insert_eq. lia. }
    assert (forall j, j <> k -> j <> s2 -> l1 !! j = l !! j) as Hl1o.
    { intros j H1 H2. unfold l1. by rewrite !list_lookup_insert_ne by congruence. }
    destruct (IH s2 l1 (set_array h (l1 ++ rest))) as (l' & Hrun & Hperm' & Hheap').
    + cbn. lia.
    + reflexivity.
    + by rewrite Hperm.
    + lia.
    + unfold child in Hchild. lia.
    + lia.
    + unfold child in Hchild. lia.
    + split.
      * intros p c a b Hp Hps Hc Ha Hb.
        destruct (decide (p = k)) as [->|Hpk].
        -- assert (c <> k) as Hck by (unfold child in Hc; lia).
           rewrite Hl1k in Ha. injection Ha as <-.
           destruct (decide (c = s2)) as [->|Hcs].
           ++ rewrite Hl1s in Hb. injection Hb as <-. lia.
           ++ rewrite Hl1o in Hb by assumption. by eapply Hmin.
        -- rewrite Hl1o in Ha by assumption.
           destruct (decide (c = s2)) as [->|Hcs].
           ++ exfalso. unfold child in Hc, Hchild. lia.
           ++ destruct (decide (c = k)) as [->|Hck].
              ** rewrite Hl1k in Hb. injection Hb as <-.
                 by eapply (HB p s2).
              ** rewrite Hl1o in Hb by assumption. by eapply (HA p c).
      * intros q c a b Hq Hkq Hc Ha Hb.
        assert (q = k) as -> by (unfold child in Hkq, Hchild; lia).
        rewrite Hl1k in Ha. injection Ha as <-.
        rewrite Hl1o in Hb by (unfold child in Hc, Hchild; lia).
        eapply (HA s2 c); eauto. unfold child in Hchild. lia.
    + exists l'. split; [|split].
      * rewrite Hrun. reflexivity.
      * by rewrite Hperm'.
      * assumption.
Qed.


Lemma set_array_same (h : MinHeap) : set_array h (array h) = h.
Proof. by destruct h. Qed.

Lemma child_parent (c : nat) : (0 < c)%nat -> exists p, child c p.
Proof.
  intros Hc. destruct (Nat.Even_or_Odd c) as [[p ->]|[p ->]].
  - exists (p - 1)%nat. right. lia.
  - exists p. left. lia.
Qed.

(** The root of a heap has the least frequency. *)
Lemma heap_root_min (l : list MinHeapNode) (m : MinHeapNode) :
  min_heap l -> l !! 0%nat = Some m ->
  forall j y, l !! j = Some y -> key m <= key y.
Proof.
  intros Hheap Hm j. induction (lt_wf j) as [j _ IH]. intros y Hy.
  destruct j as [|j].
  - rewrite Hm in Hy. injection Hy as <-. lia.
  - destruct (child_parent (S j) ltac:(lia)) as [p Hp].
    assert (p < S j)%nat as Hlt by (unfold child in Hp; lia).
    destruct (lookup_lt_is_Some_2 l p) as [x Hx].
    { apply lookup_lt_Some in Hy. lia. }
    specialize (IH p Hlt x Hx).
    pose proof (Hheap p (S j) x y ltac:(lia) Hp Hx Hy). lia.
Qed.

Lemma build_loop_spec (rest : list MinHeapNode) :
  forall (fuel : nat) (k : nat) (l : list MinHeapNode) (h : MinHeap),
    size h = Z.of_nat (length l) -> array h = l ++ rest ->
    Forall (fun p => p <> NULL) l ->
    Z.of_nat (length l) < 1073741824 ->
    (k < length l)%nat -> (k + 2 <= fuel)%nat ->
    heap_from (S k) l ->
    exists l', build_loop fuel h (Z.of_nat k) = Some (set_array h (l' ++ rest)) /\
               l' ≡ₚ l /\ min_heap l'.
Proof.
  induction fuel as [|fuel IH]; intros k l h Hsize Harr Hl Hlen Hk Hfuel Hheap; [lia|].
  cbn [build_loop].
  destruct (Z.geb_spec (Z.of_nat k) 0) as [_|?]; [|lia].
  destruct (minHeapify_spec rest k (S (Z.to_nat (size h))) k l h)
    as (l1 & Hrun & Hperm & Hheap1); try assumption; try lia.
  { split.
    - intros p c x y Hp Hpk Hc Hx Hy. eapply (Hheap p c); eauto. lia.
    - intros q c x y Hq Hkq. unfold child in Hkq. lia. }
  rewrite Hrun. cbn [mbind option_bind].
  destruct k as [|k].
  - exists l1. split; [|by split].
    destruct fuel as [|fuel]; [lia|]. reflexivity.
  - replace (Z.of_nat (S k) - 1) with (Z.of_nat k) by lia.
    destruct (IH k l1 (set_array h (l1 ++ rest))) as (l2 & Hrun2 & Hperm2 & Hheap2).
    + cbn. rewrite Hperm. assumption.
    + reflexivity.
    + by rewrite Hperm.
    + by rewrite Hperm.
    + rewrite Hperm. lia.
    + lia.
    + assumption.
    + exists l2. split; [|split].
      * rewrite Hrun2. reflexivity.
      * by rewrite Hperm2.
      * assumption.
Qed.

Lemma buildMinHeap_spec (rest l : list MinHeapNode) (h : MinHeap) :
  size h = Z.of_nat (length l) -> array h = l ++ rest ->
  Forall (fun p => p <> NULL) l ->
  Z.of_nat (length l) < 1073741824 ->
  exists l', buildMinHeap h = Some (set_array h (l' ++ rest)) /\
             l' ≡ₚ l /\ min_heap l'.
Proof.
  intros Hsize Harr Hl Hlen. unfold buildMinHeap. rewrite Hsize.
  destruct l as [|x l0].
  - exists []. split; [|split; [reflexivity|]].
    + rewrite <- Harr, set_array_same. reflexivity.
    + intros p c ? ? _ _ H. discriminate.
  - set (l := x :: l0) in *.
    assert (0 < length l)%nat as Hpos by (cbn; lia).
    clearbody l.
    rewrite uint_small by lia.
    rewrite wrap_small by (unfold CInt.in_range, CInt.INT_MIN, CInt.INT_MAX; lia).
    unfold parent.
    rewrite wrap_small by (unfold CInt.in_range, CInt.INT_MIN, CInt.INT_MAX; lia).
    set (i := Z.quot (Z.of_nat (length l) - 1 - 1) 2).
    assert (0 <= i /\ i < Z.of_nat (length l) /\ Z.of_nat (length l) - 3 <= 2 * i)
      as (Hi0 & Hi1 & Hi2).
    { unfold i. Z.to_euclidean_division_equations; lia. }
    clearbody i.
    rewrite <- (Z2Nat.id i) by lia.
    apply build_loop_spec; try assumption; try lia.
    intros p c a b Hp Hc Ha Hb. apply lookup_lt_Some in Hb.
    unfold child in Hc. lia.
Qed.

Lemma extractMin_spec (rest : list MinHeapNode) (m : MinHeapNode)
    (t : list MinHeapNode) (h : MinHeap) :
  size h = Z.of_nat (length (m :: t)) -> array h = (m :: t) ++ rest ->
  Forall (fun p => p <> NULL) (m :: t) ->
  Z.of_nat (length (m :: t)) < 1073741824 ->
  min_heap (m :: t) ->
  exists l' rest',
    extractMin h = Some (m, set_size (set_array h (l' ++ rest')) (Z.of_nat (length l'))) /\
    l' ≡ₚ t /\ min_heap l' /\ length (l' ++ rest') = length (array h).
Proof.
  intros Hsize Harr Hl Hlen Hheap. unfold extractMin.
  rewrite Harr, Hsize.
  change (index ((m :: t) ++ rest) 0) with (Some m). cbn [mbind option_bind].
  rewrite uint_small by (cbn [length] in *; lia).
  destruct t as [|b t0 _] using rev_ind.
  - (* the last node leaves the heap *)
    cbn. exists [], (m :: rest). split; [|split; [reflexivity|split]].
    + reflexivity.
    + intros p c ? ? _ _ H. discriminate.
    + reflexivity.
  - set (t := t0 ++ [b]) in *.
    assert (index ((m :: t) ++ rest) (Z.of_nat (length (m :: t)) - 1) = Some b) as Hlast.
    { replace (Z.of_nat (length (m :: t)) - 1) with (Z.of_nat (S (length t0)))
        by (unfold t; cbn [length]; rewrite length_app; cbn [length]; lia).
      apply index_app_nat. cbn. unfold t. apply list_lookup_middle. reflexivity. }
    rewrite Hlast. cbn [mbind option_bind].
    change (update ((m :: t) ++ rest) 0 b) with (Some ((b :: t) ++ rest)).
    cbn [mbind option_bind].
    set (l1 := b :: t0).
    assert ((b :: t) ++ rest = l1 ++ (b :: rest)) as Hsplit.
    { unfold l1, t. cbn. by rewrite <- app_assoc. }
    assert (length l1 = length t) as Hlen1.
    { unfold l1, t. rewrite length_app. cbn. lia. }
    assert (Forall (fun p => p <> NULL) l1) as Hl1.
    { apply Forall_cons in Hl as [_ Ht]. unfold t in Ht.
      apply Forall_app in Ht as [Ht0 Hb]. apply Forall_cons in Hb as [Hb _].
      unfold l1. by apply Forall_cons. }
    set (h1 := set_size (set_array h ((b :: t) ++ rest)) (Z.of_nat (length (m :: t)) - 1)).
    assert (size h1 = Z.of_nat (length l1)) as Hsize1.
    { unfold h1. cbn [size set_size]. rewrite Hlen1. cbn [length]. lia. }
    destruct (minHeapify_spec (b :: rest) 0 (S (Z.to_nat (size h1))) 0 l1 h1)
      as (l' & Hrun & Hperm & Hheap'); try assumption.
    + rewrite Hlen1. cbn [length] in Hlen. lia.
    + lia.
    + unfold l1. cbn. lia.
    + rewrite Hsize1. lia.
    + split.
      * intros p c x y _ Hp Hc Hx Hy.
        assert (c <> 0)%nat as Hc0 by (unfold child in Hc; lia).
        assert ((m :: t) !! p = Some x) as Hx'.
        { destruct p as [|p]; [congruence|]. cbn in Hx. cbn. unfold t.
          by apply lookup_app_l_Some. }
        assert ((m :: t) !! c = Some y) as Hy'.
        { destruct c as [|c]; [congruence|]. cbn in Hy. cbn. unfold t.
          by apply lookup_app_l_Some. }
        apply (Hheap p c x y); [lia|assumption..].
      * intros q c x y _ Hq. unfold child in Hq. lia.
    + exists l', (b :: rest). split; [|split; [|split]].
      * change (minHeapify (S (Z.to_nat (size h1))) h1 0) with
          (minHeapify (S (Z.to_nat (size h1))) h1 (Z.of_nat 0)) in *.
        rewrite Hrun. cbn [mbind option_bind]. do 3 f_equal.
        unfold h1, set_size, set_array. cbn [size capacity array]. f_equal.
        rewrite Hperm, Hlen1. cbn [length]. lia.
      * rewrite Hperm. unfold l1, t. by rewrite Permutation_cons_append.
      * assumption.
      * rewrite !length_app, Hperm, Hlen1. cbn [length]. lia.
Qed.


Lemma parent_child (i p : nat) :
  Z.of_nat i < 1073741824 -> child i p -> parent (Z.of_nat i) = Z.of_nat p.
Proof.
  intros Hi Hc. unfold parent.
  rewrite wrap_small by (unfold CInt.in_range, CInt.INT_MIN, CInt.INT_MAX; lia).
  unfold child in Hc. Z.to_euclidean_division_equations; lia.
Qed.

(** The loop of [insertMinHeap] moves a hole at [i] up: the array with the
    new node [x] in the hole is in heap order below the hole. *)
Lemma insert_loop_spec (rest : list MinHeapNode) (x : MinHeapNode) :
  x <> NULL ->
  forall (fuel : nat) (i : nat) (a : list MinHeapNode),
    (i < length a)%nat -> Z.of_nat (length a) < 1073741824 ->
    (i < fuel)%nat ->
    (forall p c u v, child c p -> c <> i ->
       a !! p = Some u -> a !! c = Some v -> key u <= key v) ->
    (forall c v, child c i -> a !! c = Some v -> key x < key v) ->
    (forall q c u v, child i q -> child c i ->
       a !! q = Some u -> a !! c = Some v -> key u <= key v) ->
    (forall j v, j <> i -> a !! j = Some v -> v <> NULL) ->
    exists a' i',
      insert_loop fuel (a ++ rest) (Z.of_nat i) x = Some (a' ++ rest, Z.of_nat i') /\
      (i' < length a')%nat /\
      min_heap (<[i' := x]> a') /\
      <[i' := x]> a' ≡ₚ <[i := x]> a.
Proof.
  intros Hx.
  induction fuel as [|fuel IH]; intros i a Hi Hlen Hfuel H1 H2 H3 H4; [lia|].
  cbn [insert_loop].
  destruct (Z.eqb_spec (Z.of_nat i) 0) as [Hi0|Hi0].
  - (* the hole is at the root *)
    exists a, i. split; [reflexivity|]. split; [assumption|]. split; [|reflexivity].
    assert (i = 0)%nat as -> by lia.
    intros p c u v _ Hc Hu Hv.
    assert (c <> 0)%nat as Hc0 by (unfold child in Hc; lia).
    rewrite list_lookup_insert_ne in Hv by congruence.
    destruct (decide (p = 0)%nat) as [->|Hp].
    + rewrite list_lookup_insert_eq in Hu by assumption. injection Hu as <-.
      specialize (H2 c v Hc Hv). lia.
    + rewrite list_lookup_insert_ne in Hu by congruence.
      by eapply (H1 p c).
  - destruct (child_parent i ltac:(lia)) as [p Hp].
    assert (p < i)%nat as Hpi by (unfold child in Hp; lia).
    destruct (lookup_lt_is_Some_2 a p ltac:(lia)) as [ap Hap].
    assert (ap <> NULL) as Hapn by (eapply (H4 p); [lia|eassumption]).
    rewrite (parent_child i p) by (assumption || lia).
    rewrite (freq_key x Hx). cbn [mbind option_bind].
    rewrite (freq_at_lookup a rest p ap Hapn Hap). cbn [mbind option_bind].
    destruct (Z.ltb_spec (key x) (key ap)) as [Hlt|Hge].
    + (* the parent moves down into the hole *)
      rewrite (index_app_nat _ _ _ _ Hap). cbn [mbind option_bind].
      rewrite update_app_nat by assumption. cbn [mbind option_bind].
      set (a1 := <[i := ap]> a).
      assert (a1 !! i = Some ap) as Ha1i by (by apply list_lookup_insert_eq).
      assert (forall j, j <> i -> a1 !! j = a !! j) as Ha1o.
      { intros j Hj. unfold a1. by rewrite list_lookup_insert_ne by congruence. }
      destruct (IH p a1) as (a' & i' & Hrun & Hi' & Hheap & Hperm).
      * unfold a1. rewrite length_insert. lia.
      * unfold a1. by rewrite length_insert.
      * lia.
      * intros q c u v Hc Hcp Hu Hv.
        destruct (decide (c = i)) as [->|Hci].
        -- assert (q = p) as -> by (unfold child in Hc, Hp; lia).
           rewrite Ha1o in Hu by lia. rewrite Ha1i in Hv.
           rewrite Hap in Hu. injection Hu as <-. injection Hv as <-. lia.
        -- rewrite Ha1o in Hv by assumption.
           destruct (decide (q = i)) as [->|Hqi].
           ++ rewrite Ha1i in Hu. injection Hu as <-.
              by eapply (H3 p c).
           ++ rewrite Ha1o in Hu by assumption. by eapply (H1 q c).
      * intros c v Hc Hv.
        destruct (decide (c = i)) as [->|Hci].
        -- rewrite Ha1i in Hv. by injection Hv as <-.
        -- rewrite Ha1o in Hv by assumption.
           pose proof (H1 p c ap v Hc Hci Hap Hv). lia.
      * intros q c u v Hq Hc Hu Hv.
        rewrite Ha1o in Hu by (unfold child in Hq; lia).
        pose proof (H1 q p u ap Hq ltac:(lia) Hu Hap) as Hqp.
        destruct (decide (c = i)) as [->|Hci].
        -- rewrite Ha1i in Hv. by injection Hv as <-.
        -- rewrite Ha1o in Hv by assumption.
           pose proof (H1 p c ap v Hc Hci Hap Hv). lia.
      * intros j v Hj Hv.
        destruct (decide (j = i)) as [->|Hji].
        -- rewrite Ha1i in Hv. by injection Hv as <-.
        -- rewrite Ha1o in Hv by assumption. by eapply (H4 j).
      * exists a', i'. split; [assumption|]. split; [assumption|].
        split; [assumption|].
        rewrite Hperm. unfold a1.
        replace (<[i := ap]> a) with (<[i := ap]> (<[i := x]> a))
          by apply list_insert_insert_eq.
        apply exchange_permutation.
        -- by apply list_lookup_insert_eq.
        -- rewrite list_lookup_insert_ne by lia. assumption.
    + (* the new node stays in the hole *)
      exists a, i. split; [reflexivity|]. split; [assumption|]. split; [|reflexivity].
      intros q c u v _ Hc Hu Hv.
      destruct (decide (c = i)) as [->|Hci].
      * assert (q = p) as -> by (unfold child in Hc, Hp; lia).
        rewrite list_lookup_insert_eq in Hv by assumption. injection Hv as <-.
        rewrite list_lookup_insert_ne in Hu by lia.
        rewrite Hap in Hu. injection Hu as <-. lia.
      * rewrite list_lookup_insert_ne in Hv by congruence.
        destruct (decide (q = i)) as [->|Hqi].
        -- rewrite list_lookup_insert_eq in Hu by assumption. injection Hu as <-.
           specialize (H2 c v Hc Hv). lia.
        -- rewrite list_lookup_insert_ne in Hu by congruence.
           by eapply (H1 q c).
Qed.

Lemma insertMinHeap_spec (rest l : list MinHeapNode) (g x : MinHeapNode) (h : MinHeap) :
  size h = Z.of_nat (length l) -> array h = l ++ g :: rest ->
  Forall (fun p => p <> NULL) l ->
  Z.of_nat (length l) + 1 < 1073741824 ->
  min_heap l -> x <> NULL ->
  exists l',
    insertMinHeap h x =
      Some (set_array (set_size h (Z.of_nat (length l'))) (l' ++ rest)) /\
    l' ≡ₚ x :: l /\ min_heap l'.
Proof.
  intros Hsize Harr Hl Hlen Hheap Hx. unfold insertMinHeap.
  cbn [size set_size array]. rewrite Hsize, Harr.
  rewrite (uint_small (Z.of_nat (length l) + 1)) by lia.
  rewrite uint_small by lia.
  rewrite wrap_small by (unfold CInt.in_range, CInt.INT_MIN, CInt.INT_MAX; lia).
  replace (Z.of_nat (length l) + 1 - 1) with (Z.of_nat (length l)) by lia.
  rewrite Nat2Z.id.
  replace (l ++ g :: rest) with ((l ++ [g]) ++ rest) by (by rewrite <- app_assoc).
  destruct (insert_loop_spec rest x Hx (S (length l)) (length l) (l ++ [g]))
    as (a' & i' & Hrun & Hi' & Hheap' & Hperm).
  - rewrite length_app. cbn. lia.
  - rewrite length_app. cbn [length]. lia.
  - lia.
  - intros p c u v Hc Hci Hu Hv.
    assert (c < length l)%nat as Hcl.
    { apply lookup_lt_Some in Hv. rewrite length_app in Hv. cbn in Hv. lia. }
    rewrite lookup_app_l in Hv by assumption.
    rewrite lookup_app_l in Hu by (unfold child in Hc; lia).
    by eapply (Hheap p c); [lia|..].
  - intros c v Hc Hv. apply lookup_lt_Some in Hv. rewrite length_app in Hv.
    cbn in Hv. unfold child in Hc. lia.
  - intros q c u v _ Hc _ Hv. apply lookup_lt_Some in Hv. rewrite length_app in Hv.
    cbn in Hv. unfold child in Hc. lia.
  - intros j v Hj Hv.
    assert (j < length l)%nat as Hjl.
    { apply lookup_lt_Some in Hv. rewrite length_app in Hv. cbn in Hv. lia. }
    rewrite lookup_app_l in Hv by assumption.
    exact (Forall_lookup_1 _ _ _ _ Hl Hv).
  - rewrite Hrun. cbn [mbind option_bind].
    rewrite update_app_nat by assumption. cbn [mbind option_bind].
    assert (<[i' := x]> a' ≡ₚ x :: l) as Hperm'.
    { rewrite Hperm.
      replace (<[length l := x]> (l ++ [g])) with (l ++ [x]).
      - symmetry. apply Permutation_cons_append.
      - rewrite insert_app_r_alt by lia. by rewrite Nat.sub_diag. }
    exists (<[i' := x]> a'). split; [|by split].
    do 2 f_equal. unfold set_array, set_size. cbn [size capacity array].
    f_equal. rewrite Hperm'. cbn [length]. lia.
Qed.


Lemma index_nat {A} (l : list A) (j : nat) (x : A) :
  l !! j = Some x -> index l (Z.of_nat j) = Some x.
Proof.
  intros H. rewrite <- (app_nil_r l). by apply index_app_nat.
Qed.

Lemma update_nat {A} (l : list A) (j : nat) (v : A) :
  (j < length l)%nat -> update l (Z.of_nat j) v = Some (<[j := v]> l).
Proof.
  intros H. pose proof (update_app_nat l [] j v H) as Hu.
  by rewrite !app_nil_r in Hu.
Qed.

Lemma fill_loop_spec (data freq : list Z) (sz : Z) :
  forall (blank filled : list MinHeapNode) (fuel : nat),
    Z.of_nat (length filled + length blank) = sz ->
    (length filled + length blank <= length data)%nat ->
    (length filled + length blank <= length freq)%nat ->
    (length blank < fuel)%nat ->
    fill_loop fuel data freq sz (filled ++ blank) (Z.of_nat (length filled)) =
    Some (filled ++ zip_with (fun d f => newNode d (uint f))
                    (take (length blank) (drop (length filled) data))
                    (take (length blank) (drop (length filled) freq))).
Proof.
  induction blank as [|g blank IH]; intros filled fuel Hsz Hdata Hfreq Hfuel;
    (destruct fuel as [|fuel]; [lia|]); cbn [fill_loop length] in *.
  - destruct (Z.ltb_spec (Z.of_nat (length filled)) sz); [lia|]. reflexivity.
  - destruct (Z.ltb_spec (Z.of_nat (length filled)) sz); [|lia].
    destruct (lookup_lt_is_Some_2 data (length filled) ltac:(lia)) as [d Hd].
    destruct (lookup_lt_is_Some_2 freq (length filled) ltac:(lia)) as [f Hf].
    rewrite (index_nat _ _ _ Hd), (index_nat _ _ _ Hf). cbn [mbind option_bind].
    replace (filled ++ g :: blank) with ((filled ++ [g]) ++ blank)
      by (by rewrite <- app_assoc).
    rewrite update_app_nat by (rewrite length_app; cbn; lia).
    cbn [mbind option_bind].
    rewrite insert_app_r_alt by lia. rewrite Nat.sub_diag. cbn [insert list_insert].
    replace (Z.of_nat (length filled) + 1)
      with (Z.of_nat (length (filled ++ [newNode d (uint f)])))
      by (rewrite length_app; cbn; lia).
    rewrite IH; rewrite ?length_app; cbn [length]; try lia.
    rewrite (drop_S _ _ _ Hd), (drop_S _ _ _ Hf). cbn [take zip_with].
    rewrite <- app_assoc. cbn.
    by replace (length filled + 1)%nat with (S (length filled)) by lia.
Qed.

Lemma huffman_tree_not_null (p : MinHeapNode) : huffman_tree p -> p <> NULL.
Proof. by destruct p. Qed.

Lemma huffman_trees_not_null (l : list MinHeapNode) :
  Forall huffman_tree l -> Forall (fun p => p <> NULL) l.
Proof. intros H. eapply Forall_impl; [exact H|]. exact huffman_tree_not_null. Qed.

Lemma input_nodes_trees (data freq : list Z) (n : nat) :
  Forall huffman_tree (input_nodes data freq n).
Proof.
  unfold input_nodes. generalize (take n data), (take n freq).
  induction l as [|d ds IH]; intros [|f fs]; cbn; try constructor.
  - by left.
  - apply IH.
Qed.

Lemma input_nodes_leaves (data freq : list Z) (n : nat) :
  input_nodes data freq n ≫= leaves = input_leaves data freq n.
Proof.
  unfold input_nodes, input_leaves. generalize (take n data), (take n freq).
  induction l as [|d ds IH]; intros [|f fs]; cbn; try reflexivity.
  f_equal. apply IH.
Qed.

Lemma input_nodes_length (data freq : list Z) (n : nat) :
  (n <= length data)%nat -> (n <= length freq)%nat ->
  length (input_nodes data freq n) = n.
Proof.
  intros Hd Hf. unfold input_nodes.
  rewrite length_zip_with, !length_take. lia.
Qed.

Lemma createAndBuildMinHeap_spec (data freq : list Z) (n : nat) :
  Z.of_nat n < 1073741824 ->
  (n <= length data)%nat -> (n <= length freq)%nat ->
  exists l,
    createAndBuildMinHeap data freq (Z.of_nat n) =
      Some {| size := Z.of_nat n; capacity := Z.of_nat n; array := l |} /\
    l ≡ₚ input_nodes data freq n /\ min_heap l.
Proof.
  intros Hn Hd Hf. unfold createAndBuildMinHeap, createMinHeap.
  rewrite uint_small by lia. cbn [array]. rewrite Nat2Z.id.
  pose proof (fill_loop_spec data freq (Z.of_nat n) (replicate n NULL) [] (S n)) as H.
  rewrite length_replicate in H. cbn [length app drop] in H.
  change (Z.of_nat 0) with 0 in H.
  rewrite H by lia. clear H. cbn [mbind option_bind].
  fold (input_nodes data freq n).
  set (h := set_size _ _).
  destruct (buildMinHeap_spec [] (input_nodes data freq n) h) as (l & Hrun & Hperm & Hheap).
  - unfold h. cbn. by rewrite input_nodes_length.
  - unfold h. cbn. by rewrite app_nil_r.
  - apply huffman_trees_not_null, input_nodes_trees.
  - by rewrite input_nodes_length.
  - exists l. split; [|by split].
    rewrite Hrun. rewrite app_nil_r. reflexivity.
Qed.

Lemma merge_loop_spec :
  forall (fuel : nat) (l rest : list MinHeapNode) (h : MinHeap),
    size h = Z.of_nat (length l) -> array h = l ++ rest ->
    Z.of_nat (length (array h)) < 1073741824 ->
    min_heap l -> Forall huffman_tree l ->
    (1 <= length l <= fuel)%nat ->
    exists root rest' c,
      merge_loop fuel h = Some {| size := 1; capacity := c; array := root :: rest' |} /\
      Z.of_nat (length (root :: rest')) < 1073741824 /\
      huffman_tree root /\ leaves root ≡ₚ l ≫= leaves.
Proof.
  induction fuel as [|fuel IH]; intros l rest h Hsize Harr Hlen Hheap Htrees Hfuel; [lia|].
  cbn [merge_loop]. unfold isSizeOne. rewrite Hsize.
  destruct l as [|m1 t]; [cbn in Hfuel; lia|].
  destruct (Z.eqb_spec (Z.of_nat (length (m1 :: t))) 1) as [Hone|Hmore]; cbn [negb].
  - (* one tree is left *)
    destruct t; [|cbn in Hone; lia].
    exists m1, rest, (capacity h). split; [|split; [|split]].
    + destruct h. cbn in *. by subst.
    + rewrite Harr in Hlen. exact Hlen.
    + by apply Forall_cons in Htrees as [? _].
    + cbn. by rewrite app_nil_r.
  - pose proof (huffman_trees_not_null _ Htrees) as Hnn.
    assert (Z.of_nat (length (m1 :: t)) <= Z.of_nat (length (array h))) as Hle.
    { rewrite Harr, length_app. lia. }
    destruct (extractMin_spec rest m1 t h Hsize Harr Hnn ltac:(lia) Hheap)
      as (l1 & rest1 & Hrun1 & Hperm1 & Hheap1 & Hlen1).
    rewrite Hrun1. cbn [mbind option_bind].
    set (h1 := set_size (set_array h (l1 ++ rest1)) (Z.of_nat (length l1))) in *.
    assert (Forall huffman_tree l1) as Htrees1.
    { rewrite Hperm1. by apply Forall_cons in Htrees as [_ ?]. }
    destruct l1 as [|m2 t2].
    { apply Permutation_length in Hperm1. cbn in Hperm1, Hmore. lia. }
    pose proof (huffman_trees_not_null _ Htrees1) as Hnn1.
    assert (Z.of_nat (length (m2 :: t2)) = Z.of_nat (length t)) as Hlt
      by (by rewrite Hperm1).
    destruct (extractMin_spec rest1 m2 t2 h1 eq_refl eq_refl Hnn1
                ltac:(cbn [length] in *; lia) Hheap1)
      as (l2 & rest2 & Hrun2 & Hperm2 & Hheap2 & Hlen2).
    rewrite Hrun2. cbn [mbind option_bind].
    set (h2 := set_size (set_array h1 (l2 ++ rest2)) (Z.of_nat (length l2))) in *.
    assert (Forall huffman_tree l2) as Htrees2.
    { rewrite Hperm2. by apply Forall_cons in Htrees1 as [_ ?]. }
    pose proof (huffman_trees_not_null _ Htrees2) as Hnn2.
    apply Forall_cons in Htrees as [Hm1 Ht].
    apply Forall_cons in Htrees1 as [Hm2 Ht2].
    rewrite (freq_key m1), (freq_key m2) by (by apply huffman_tree_not_null).
    cbn [mbind option_bind].
    set (top := Node 36 (uint (key m1 + key m2)) m1 m2).
    assert (length (l2 ++ rest2) = length (array h)) as Hlen2'.
    { rewrite Hlen2. unfold h1. cbn [array set_size set_array]. exact Hlen1. }
    assert (length l2 = length t2) as Hl2 by (by rewrite Hperm2).
    destruct rest2 as [|g rest2].
    { rewrite length_app in Hlen2'. cbn [length] in *. lia. }
    destruct (insertMinHeap_spec rest2 l2 g top h2) as (l3 & Hrun3 & Hperm3 & Hheap3);
      try assumption; try reflexivity.
    { rewrite length_app in Hlen2'. cbn [length] in *. lia. }
    { discriminate. }
    rewrite Hrun3. cbn [mbind option_bind].
    assert (length l3 = S (length l2)) as Hl3 by (by rewrite Hperm3).
    destruct (IH l3 rest2 (set_array (set_size h2 (Z.of_nat (length l3))) (l3 ++ rest2)))
      as (root & rest' & c & Hrun & Hbound & Hroot & Hleaves).
    + reflexivity.
    + reflexivity.
    + cbn [array set_array]. rewrite length_app in *. cbn [length] in *. lia.
    + assumption.
    + rewrite Hperm3. apply Forall_cons. split; [|assumption].
      cbn. right. by repeat split.
    + cbn [length] in *. lia.
    + exists root, rest', c. split; [assumption|]. split; [assumption|].
      split; [assumption|].
      rewrite Hleaves, Hperm3, !bind_cons, <- Hperm1, bind_cons, Hperm2.
      assert (leaves top = leaves m1 ++ leaves m2) as ->.
      { cbn. destruct m1; [by cbn in Hm1|reflexivity]. }
      by rewrite <- app_assoc.
Qed.

Lemma buildHuffmanTree_spec (data freq : list Z) (n : nat) :
  (1 <= n)%nat -> Z.of_nat n < 1073741824 ->
  (n <= length data)%nat -> (n <= length freq)%nat ->
  exists root,
    buildHuffmanTree data freq (Z.of_nat n) = Some root /\
    huffman_tree root /\ leaves root ≡ₚ input_leaves data freq n.
Proof.
  intros Hn1 Hn Hd Hf. unfold buildHuffmanTree.
  destruct (createAndBuildMinHeap_spec data freq n Hn Hd Hf) as (l & Hrun & Hperm & Hheap).
  rewrite Hrun. cbn [mbind option_bind Huffman.size].
  pose proof (input_nodes_length data freq n Hd Hf) as Hlen.
  assert (length l = n) as Hl by (by rewrite Hperm).
  destruct (merge_loop_spec (S (Z.to_nat (Z.of_nat n))) l []
              {| size := Z.of_nat n; capacity := Z.of_nat n; array := l |})
    as (root & rest' & c & Hrun' & Hbound & Hroot & Hleaves).
  - cbn. by rewrite Hl.
  - cbn. by rewrite app_nil_r.
  - cbn. by rewrite Hl.
  - assumption.
  - rewrite Hperm. apply input_nodes_trees.
  - lia.
  - rewrite Hrun'. cbn [mbind option_bind].
    destruct (extractMin_spec rest' root [] {| size := 1; capacity := c; array := root :: rest' |})
      as (l' & rest'' & Hrun'' & _).
    + reflexivity.
    + reflexivity.
    + apply Forall_cons. split; [by apply huffman_tree_not_null|constructor].
    + cbn. lia.
    + intros p c' ? ? _ Hc Hx Hy. apply lookup_lt_Some in Hy. cbn in Hy.
      unfold child in Hc. lia.
    + rewrite Hrun''. cbn. exists root. split; [reflexivity|]. split; [assumption|].
      by rewrite Hleaves, Hperm, input_nodes_leaves.
Qed.


(** *** The frequency of the root *)

Lemma uint_uint (z : Z) : uint (uint z) = uint z.
Proof. unfold uint. by rewrite Z.mod_mod. Qed.

Lemma uint_add (a b : Z) : uint (uint a + uint b) = uint (a + b).
Proof. unfold uint. by rewrite <- Zplus_mod. Qed.

Lemma foldr_add_from (l : list Z) (z : Z) :
  foldr Z.add z l = foldr Z.add 0 l + z.
Proof. induction l as [|a t IH]; cbn; lia. Qed.

Lemma huffman_tree_weight (p : MinHeapNode) :
  huffman_tree p -> uint (key p) = uint (foldr Z.add 0 (leaves p).*2).
Proof.
  induction p as [|d f l IHl r IHr]; [intros []|].
  intros [[-> ->]|(-> & Hl & Hr)].
  - cbn. f_equal. lia.
  - assert (is_null l && is_null r = false) as Hnull.
    { destruct l; [by cbn in Hl|reflexivity]. }
    cbn [leaves]. rewrite Hnull.
    change (key (Node d (uint (key l + key r)) l r)) with (uint (key l + key r)).
    rewrite uint_uint, fmap_app, foldr_app, foldr_add_from.
    by rewrite <- uint_add, (IHl Hl), (IHr Hr), uint_add.
Qed.

Lemma foldr_add_permutation (l1 l2 : list Z) :
  l1 ≡ₚ l2 -> foldr Z.add 0 l1 = foldr Z.add 0 l2.
Proof. induction 1; cbn; lia. Qed.

Lemma input_leaves_weight (data freq : list Z) (n : nat) :
  (n <= length data)%nat ->
  uint (foldr Z.add 0 (input_leaves data freq n).*2) =
  uint (foldr Z.add 0 (take n freq)).
Proof.
  unfold input_leaves. revert data freq.
  induction n as [|n IH]; intros data freq Hd; [reflexivity|].
  destruct data as [|d data]; [cbn in Hd; lia|].
  destruct freq as [|f freq]; [reflexivity|].
  cbn [take zip_with fmap list_fmap foldr snd].
  rewrite <- uint_add, uint_uint, (IH data freq) by (cbn in Hd; lia).
  by rewrite uint_add.
Qed.

Lemma huffman_tree_key_uint (p : MinHeapNode) :
  huffman_tree p -> Forall (fun x => uint x.2 = x.2) (leaves p) ->
  uint (key p) = key p.
Proof.
  destruct p as [|d f l r]; [intros []|].
  intros [[-> ->]|(-> & _ & _)] Hleaves.
  - cbn in Hleaves. by apply Forall_cons in Hleaves as [? _].
  - apply uint_uint.
Qed.

Lemma input_leaves_uint (data freq : list Z) (n : nat) :
  Forall (fun x => uint x.2 = x.2) (input_leaves data freq n).
Proof.
  unfold input_leaves. generalize (take n data), (take n freq).
  induction l as [|d ds IH]; intros [|f fs]; cbn; try constructor.
  - apply uint_uint.
  - apply IH.
Qed.

Lemma input_leaves_data (data freq : list Z) (n : nat) :
  (n <= length data)%nat -> (n <= length freq)%nat ->
  (input_leaves data freq n).*1 = take n data.
Proof.
  unfold input_leaves. revert data freq.
  induction n as [|n IH]; intros data freq Hd Hf; [reflexivity|].
  destruct data as [|d data]; [cbn in Hd; lia|].
  destruct freq as [|f freq]; [cbn in Hf; lia|].
  cbn. f_equal. apply IH; cbn in *; lia.
Qed.

(** *** The codes [printCodes] prints *)

Lemma mapM_index_take (arr : list Z) (top : nat) :
  (top <= length arr)%nat ->
  mapM (index arr) (seqZ 0 (Z.of_nat top)) = Some (take top arr).
Proof.
  intros Htop. apply mapM_Some_2, Forall2_same_length_lookup_2.
  - rewrite length_seqZ, length_take. lia.
  - intros i x y Hx Hy. apply lookup_seqZ in Hx as [-> Hi].
    rewrite lookup_take_Some in Hy. destruct Hy as [Hy _].
    rewrite Z.add_0_l. by apply index_nat.
Qed.

Lemma codes_fst (p : MinHeapNode) : (codes p).*1 = (leaves p).*1.
Proof.
  induction p as [|d f l IHl r IHr]; [reflexivity|].
  cbn. destruct (is_null l && is_null r); [reflexivity|].
  rewrite !fmap_app, <- !list_fmap_compose, <- IHl, <- IHr.
  f_equal; apply list_fmap_ext; by intros ? [].
Qed.

Lemma huffman_tree_height (p : MinHeapNode) :
  huffman_tree p -> (1 <= height p <= length (leaves p))%nat.
Proof.
  induction p as [|d f l IHl r IHr]; [intros []|].
  intros [[-> ->]|(_ & Hl & Hr)].
  - cbn. lia.
  - specialize (IHl Hl). specialize (IHr Hr).
    assert (is_null l && is_null r = false) as Hnull.
    { destruct l; [by cbn in Hl|reflexivity]. }
    cbn [leaves height]. rewrite Hnull, length_app. lia.
Qed.

Lemma printCodes_spec (p : MinHeapNode) :
  forall (arr : list Z) (top : nat),
    p <> NULL -> (top + height p <= length arr + 1)%nat ->
    exists arr',
      printCodes p arr (Z.of_nat top) =
        Some (prod_map id (app (take top arr)) <$> codes p, arr') /\
      length arr' = length arr /\ take top arr' = take top arr.
Proof.
  induction p as [|d f l IHl r IHr]; intros arr top Hp Hh; [congruence|].
  cbn [printCodes height] in *.
  assert (exists arr1,
    match l with
    | NULL => Some ([], arr)
    | Node _ _ _ _ =>
        arr ← update arr (Z.of_nat top) 0; printCodes l arr (Z.of_nat top + 1)
    end = Some (prod_map id (app (take top arr)) <$> (prod_map id (cons 0) <$> codes l), arr1)
    /\ length arr1 = length arr /\ take top arr1 = take top arr)
    as (arr1 & -> & Hlen1 & Htake1).
  { destruct l as [|dl fl ll rl] eqn:El; [by exists arr|]. rewrite <- El in *.
    assert (1 <= height l)%nat by (subst l; cbn; lia).
    rewrite update_nat by lia. cbn [mbind option_bind].
    replace (Z.of_nat top + 1) with (Z.of_nat (S top)) by lia.
    destruct (IHl (<[top := 0]> arr) (S top)) as (arr' & Hrun & Hlen & Htake).
    - subst l. discriminate.
    - rewrite length_insert. lia.
    - exists arr'. rewrite Hrun. rewrite length_insert in Hlen.
      split; [|split; [assumption|]].
      + do 2 f_equal. rewrite <- list_fmap_compose.
        apply list_fmap_ext. intros _ [dc c] _. cbn. f_equal.
        rewrite (take_S_r _ _ 0) by (apply list_lookup_insert_eq; lia).
        rewrite take_insert_ge by lia. by rewrite <- app_assoc.
      + apply (f_equal (take top)) in Htake.
        rewrite !take_take, Nat.min_l in Htake by lia.
        rewrite Htake. apply take_insert_ge. lia. }
  cbn [mbind option_bind].
  assert (exists arr2,
    match r with
    | NULL => Some ([], arr1)
    | Node _ _ _ _ =>
        arr ← update arr1 (Z.of_nat top) 1; printCodes r arr (Z.of_nat top + 1)
    end = Some (prod_map id (app (take top arr)) <$> (prod_map id (cons 1) <$> codes r), arr2)
    /\ length arr2 = length arr /\ take top arr2 = take top arr)
    as (arr2 & -> & Hlen2 & Htake2).
  { destruct r as [|dr fr lr rr] eqn:Er; [by exists arr1|]. rewrite <- Er in *.
    assert (1 <= height r)%nat by (subst r; cbn; lia).
    rewrite update_nat by lia. cbn [mbind option_bind].
    replace (Z.of_nat top + 1) with (Z.of_nat (S top)) by lia.
    destruct (IHr (<[top := 1]> arr1) (S top)) as (arr' & Hrun & Hlen & Htake).
    - subst r. discriminate.
    - rewrite length_insert. lia.
    - exists arr'. rewrite Hrun. rewrite length_insert in Hlen.
      split; [|split; [lia|]].
      + do 2 f_equal. rewrite <- list_fmap_compose.
        apply list_fmap_ext. intros _ [dc c] _. cbn. f_equal.
        rewrite (take_S_r _ _ 1) by (apply list_lookup_insert_eq; lia).
        rewrite take_insert_ge by lia. rewrite Htake1. by rewrite <- app_assoc.
      + apply (f_equal (take top)) in Htake.
        rewrite !take_take, Nat.min_l in Htake by lia.
        rewrite Htake, take_insert_ge by lia. assumption. }
  cbn [mbind option_bind isLeaf left right].
  exists arr2. split; [|by split].
  destruct (is_null l && is_null r) eqn:Hleaf.
  - rewrite mapM_index_take by lia. cbn [mbind option_bind].
    apply andb_true_iff in Hleaf as [Hl Hr].
    destruct l; [|discriminate]. destruct r; [|discriminate].
    cbn. rewrite Htake2, app_nil_r. reflexivity.
  - cbn [codes]. rewrite Hleaf. by rewrite fmap_app.
Qed.

Lemma lookup_codes_below (b : Z) (cs : list (Z * list Z)) (k : nat)
    (x : Z * list Z) :
  (prod_map id (cons b) <$> cs) !! k = Some x ->
  exists c, cs !! k = Some (x.1, c) /\ x.2 = b :: c.
Proof.
  rewrite list_lookup_fmap. destruct (cs !! k) as [[d c]|]; [|discriminate].
  intros [= <-]. by exists c.
Qed.

Lemma codes_prefix_free (p : MinHeapNode) : prefix_free (codes p).
Proof.
  induction p as [|d f l IHl r IHr]; intros i j x y Hij Hx Hy.
  - discriminate.
  - cbn [codes] in Hx, Hy. destruct (is_null l && is_null r).
    + apply lookup_lt_Some in Hx, Hy. cbn in Hx, Hy. lia.
    + apply lookup_app_Some in Hx, Hy.
      destruct Hx as [Hx|[Hil Hx]], Hy as [Hy|[Hjl Hy]];
        apply lookup_codes_below in Hx as (cx & Hx & ->);
        apply lookup_codes_below in Hy as (cy & Hy & ->); intros Hpre.
      * apply prefix_cons_inv_2 in Hpre.
        by apply (IHl i j _ _ Hij Hx Hy).
      * by apply prefix_cons_inv_1 in Hpre.
      * by apply prefix_cons_inv_1 in Hpre.
      * apply prefix_cons_inv_2 in Hpre.
        refine (IHr _ _ _ _ _ Hx Hy Hpre). lia.
Qed.

End HuffmanHeapProperties.

(** *** The operations of the heap *)

Section HuffmanHeapOperations.
Import Mem Huffman HuffmanHeap.

Lemma heap_from_except (k : nat) (l : list MinHeapNode) :
  heap_from (S k) l -> heap_except k k l.
Proof.
  intros Hheap. split.
  - intros p c x y Hp Hpk Hc Hx Hy. eapply (Hheap p c); eauto. lia.
  - intros q c x y Hq Hkq. unfold child in Hkq. lia.
Qed.

Lemma insert_loop_past_end (x : MinHeapNode) :
  forall (fuel : nat) (arr : list MinHeapNode) (i : Z) (r : list MinHeapNode * Z),
    Z.of_nat (length arr) <= i ->
    insert_loop fuel arr i x = Some r -> r = (arr, i).
Proof.
  destruct fuel as [|fuel]; intros arr i r Hi; [discriminate|].
  cbn [insert_loop]. destruct (i =? 0); [congruence|].
  destruct (freq x) as [f|]; [|discriminate]. cbn [mbind option_bind].
  destruct (freq_at arr (parent i)) as [pf|]; [|discriminate].
  cbn [mbind option_bind].
  destruct (f <? pf); [|congruence].
  destruct (index arr (parent i)) as [p|]; [|discriminate].
  cbn [mbind option_bind].
  rewrite update_outside by lia. discriminate.
Qed.

End HuffmanHeapOperations.

(** X14.  On a heap of fewer than 2^30 nodes, [minHeapify] at [idx]
    extends the heap order by one index: if the order holds from
    [idx + 1] on, then it holds from [idx] on afterwards, the heap holds
    the same nodes, and no access is invalid; [size - idx] calls are
    enough.  (From 2^30 nodes on, [2 * idx + 2] can leave the range of
    [int].) *)
Theorem minHeapify_restores_heap (minHeap : Huffman.MinHeap)
    (l : list Huffman.MinHeapNode) (idx fuel : nat)
    (Hholds : HuffmanHeap.holds minHeap l)
    (Hlen : Z.of_nat (length l) < 1073741824)
    (Hidx : (idx < length l)%nat)
    (Hheap : HuffmanHeap.heap_from (S idx) l)
    (Hfuel : (length l - idx <= fuel)%nat) :
  exists minHeap' l',
    Huffman.minHeapify fuel minHeap (Z.of_nat idx) = Some minHeap' /\
    HuffmanHeap.holds minHeap' l' /\ l' ≡ₚ l /\
    HuffmanHeap.heap_from idx l' /\
    length (Huffman.array minHeap') = length (Huffman.array minHeap).
Proof.
  destruct Hholds as (Hsize & Hnn & rest & Harr).
  destruct (minHeapify_spec rest idx fuel idx l minHeap Hsize Harr Hnn Hlen
              ltac:(lia) Hidx Hfuel (heap_from_except idx l Hheap))
    as (l' & Hrun & Hperm & Hheap').
  exists (Huffman.set_array minHeap (l' ++ rest)), l'.
  split; [assumption|]. split; [|split; [assumption|split; [assumption|]]].
  - split; [|split].
    + cbn. by rewrite Hperm.
    + by rewrite Hperm.
    + by exists rest.
  - cbn. by rewrite Harr, !length_app, Hperm.
Qed.

Lemma minHeapify_restores_heap_witness :
  let n5 := Huffman.newNode 97 5 in
  let n9 := Huffman.newNode 98 9 in
  let h := {| Huffman.size := 2; Huffman.capacity := 3;
              Huffman.array := [n9; n5; Huffman.NULL] |} in
  HuffmanHeap.holds h [n9; n5] /\
  Z.of_nat (length [n9; n5]) < 1073741824 /\
  (0 < length [n9; n5])%nat /\
  HuffmanHeap.heap_from 1 [n9; n5] /\
  (length [n9; n5] - 0 <= 2)%nat /\
  exists minHeap' l',
    Huffman.minHeapify 2 h 0 = Some minHeap' /\
    HuffmanHeap.holds minHeap' l' /\ l' ≡ₚ [n9; n5] /\
    HuffmanHeap.heap_from 0 l' /\
    length (Huffman.array minHeap') = length (Huffman.array h).
Proof.
  intros n5 n9 h.
  assert (HuffmanHeap.holds h [n9; n5]) as H1.
  { split; [reflexivity|]. split.
    - repeat constructor; discriminate.
    - by exists [Huffman.NULL]. }
  assert (Z.of_nat (length [n9; n5]) < 1073741824) as H2 by (cbn; lia).
  assert (0 < length [n9; n5])%nat as H3 by (cbn; lia).
  assert (HuffmanHeap.heap_from 1 [n9; n5]) as H4.
  { intros p c x y Hp Hc Hx Hy. apply lookup_lt_Some in Hy. cbn in Hy.
    unfold HuffmanHeap.child in Hc. lia. }
  assert (length [n9; n5] - 0 <= 2)%nat as H5 by (cbn; lia).
  split; [exact H1|]. split; [exact H2|]. split; [exact H3|].
  split; [exact H4|]. split; [exact H5|].
  exact (minHeapify_restores_heap h [n9; n5] 0 2 H1 H2 H3 H4 H5).
Defined.

(** X15.  [buildMinHeap] puts any array of nodes in heap order: afterwards
    the heap holds the same nodes, no node has a larger frequency than
    its children, and no access is invalid. *)
Theorem buildMinHeap_builds_heap (minHeap : Huffman.MinHeap)
    (l : list Huffman.MinHeapNode)
    (Hholds : HuffmanHeap.holds minHeap l)
    (Hlen : Z.of_nat (length l) < 1073741824) :
  exists minHeap' l',
    Huffman.buildMinHeap minHeap = Some minHeap' /\
    HuffmanHeap.holds minHeap' l' /\ l' ≡ₚ l /\ HuffmanHeap.min_heap l'.
Proof.
  destruct Hholds as (Hsize & Hnn & rest & Harr).
  destruct (buildMinHeap_spec rest l minHeap Hsize Harr Hnn Hlen)
    as (l' & Hrun & Hperm & Hheap).
  exists (Huffman.set_array minHeap (l' ++ rest)), l'.
  split; [assumption|]. split; [|by split].
  split; [|split].
  - cbn. by rewrite Hperm.
  - by rewrite Hperm.
  - by exists rest.
Qed.

Lemma buildMinHeap_builds_heap_witness :
  let n5 := Huffman.newNode 97 5 in
  let n9 := Huffman.newNode 98 9 in
  let n2 := Huffman.newNode 99 2 in
  let h := {| Huffman.size := 3; Huffman.capacity := 3;
              Huffman.array := [n9; n5; n2] |} in
  HuffmanHeap.holds h [n9; n5; n2] /\
  Z.of_nat (length [n9; n5; n2]) < 1073741824 /\
  exists minHeap' l',
    Huffman.buildMinHeap h = Some minHeap' /\
    HuffmanHeap.holds minHeap' l' /\ l' ≡ₚ [n9; n5; n2] /\
    HuffmanHeap.min_heap l'.
Proof.
  intros n5 n9 n2 h.
  assert (HuffmanHeap.holds h [n9; n5; n2]) as H1.
  { split; [reflexivity|]. split.
    - repeat constructor; discriminate.
    - by exists []. }
  assert (Z.of_nat (length [n9; n5; n2]) < 1073741824) as H2 by (cbn; lia).
  split; [exact H1|]. split; [exact H2|].
  exact (buildMinHeap_builds_heap h [n9; n5; n2] H1 H2).
Defined.

(** X16.  On a heap in heap order that is not empty and has fewer than
    2^30 nodes, [extractMin] returns a node of least frequency and leaves
    the other nodes in heap order, in an array of the same length, with no
    invalid access. *)
Theorem extractMin_returns_minimum (minHeap : Huffman.MinHeap)
    (l : list Huffman.MinHeapNode)
    (Hholds : HuffmanHeap.holds minHeap l)
    (Hlen : Z.of_nat (length l) < 1073741824)
    (Hheap : HuffmanHeap.min_heap l)
    (Hnonempty : l <> []) :
  exists m minHeap' l',
    Huffman.extractMin minHeap = Some (m, minHeap') /\
    HuffmanHeap.holds minHeap' l' /\ l ≡ₚ m :: l' /\
    HuffmanHeap.min_heap l' /\
    (forall y, y ∈ l -> HuffmanHeap.key m <= HuffmanHeap.key y) /\
    length (Huffman.array minHeap') = length (Huffman.array minHeap).
Proof.
  destruct Hholds as (Hsize & Hnn & rest & Harr).
  destruct l as [|m t]; [congruence|].
  destruct (extractMin_spec rest m t minHeap Hsize Harr Hnn Hlen Hheap)
    as (l' & rest' & Hrun & Hperm & Hheap' & Hlen').
  eexists m, _, l'. split; [exact Hrun|].
  split; [|split; [by rewrite Hperm|split; [assumption|split; [|exact Hlen']]]].
  - split; [reflexivity|]. split.
    + rewrite Hperm. by apply Forall_cons in Hnn as [_ ?].
    + by exists rest'.
  - intros y Hy. apply list_elem_of_lookup_1 in Hy as [j Hj].
    by apply (heap_root_min (m :: t) m Hheap eq_refl j).
Qed.

Lemma extractMin_returns_minimum_witness :
  let n5 := Huffman.newNode 97 5 in
  let n9 := Huffman.newNode 98 9 in
  let h := {| Huffman.size := 2; Huffman.capacity := 3;
              Huffman.array := [n5; n9; Huffman.NULL] |} in
  HuffmanHeap.holds h [n5; n9] /\
  Z.of_nat (length [n5; n9]) < 1073741824 /\
  HuffmanHeap.min_heap [n5; n9] /\
  [n5; n9] <> [] /\
  exists m minHeap' l',
    Huffman.extractMin h = Some (m, minHeap') /\
    HuffmanHeap.holds minHeap' l' /\ [n5; n9] ≡ₚ m :: l' /\
    HuffmanHeap.min_heap l' /\
    (forall y, y ∈ [n5; n9] -> HuffmanHeap.key m <= HuffmanHeap.key y) /\
    length (Huffman.array minHeap') = length (Huffman.array h).
Proof.
  intros n5 n9 h.
  assert (HuffmanHeap.holds h [n5; n9]) as H1.
  { split; [reflexivity|]. split.
    - repeat constructor; discriminate.
    - by exists [Huffman.NULL]. }
  assert (Z.of_nat (length [n5; n9]) < 1073741824) as H2 by (cbn; lia).
  assert (HuffmanHeap.min_heap [n5; n9]) as H3.
  { intros p c x y _ Hc Hx Hy.
    destruct p as [|p].
    - destruct Hc as [->| ->]; cbn in Hx, Hy; [|discriminate].
      injection Hx as <-. injection Hy as <-. cbn. lia.
    - apply lookup_lt_Some in Hy. cbn in Hy. unfold HuffmanHeap.child in Hc. lia. }
  assert ([n5; n9] <> []) as H4 by discriminate.
  split; [exact H1|]. split; [exact H2|]. split; [exact H3|]. split; [exact H4|].
  exact (extractMin_returns_minimum h [n5; n9] H1 H2 H3 H4).
Defined.

(** X17.  [extractMin] does not check that the heap has a node.  On an
    empty heap whose array has at most 4294967295 elements, the [unsigned]
    [size - 1] wraps around to 4294967295 and [array[size - 1]] is outside
    the array; when the array has an element, the read of [array[0]]
    before it is inside, so that this is the first invalid access, and
    when the array has none, [array[0]] is outside as well.  [extractMin]
    has no result. *)
Theorem extractMin_empty_heap (minHeap : Huffman.MinHeap)
    (Hsize : Huffman.size minHeap = 0)
    (Hlen : Z.of_nat (length (Huffman.array minHeap)) <= 4294967295) :
  Huffman.uint (Huffman.size minHeap - 1) = 4294967295 /\
  Mem.index (Huffman.array minHeap) (Huffman.uint (Huffman.size minHeap - 1)) = None /\
  (Huffman.array minHeap <> [] -> is_Some (Mem.index (Huffman.array minHeap) 0)) /\
  (Huffman.array minHeap = [] -> Mem.index (Huffman.array minHeap) 0 = None) /\
  Huffman.extractMin minHeap = None.
Proof.
  rewrite Hsize. change (Huffman.uint (0 - 1)) with 4294967295.
  assert (Hlast : Mem.index (Huffman.array minHeap) 4294967295 = None)
    by (by apply index_past_end).
  split; [reflexivity |]. split; [exact Hlast |]. split; [| split].
  - intros Hne. destruct (Huffman.array minHeap) as [| x arr]; [congruence |].
    by exists x.
  - by intros ->.
  - unfold Huffman.extractMin. rewrite Hsize.
    destruct (Mem.index (Huffman.array minHeap) 0); [| reflexivity].
    cbn [mbind option_bind].
    change (Huffman.uint (0 - 1)) with 4294967295.
    by rewrite Hlast.
Qed.

Lemma extractMin_empty_heap_witness :
  let h := Huffman.createMinHeap 3 in
  Huffman.size h = 0 /\
  Z.of_nat (length (Huffman.array h)) <= 4294967295 /\
  Huffman.uint (Huffman.size h - 1) = 4294967295 /\
  Mem.index (Huffman.array h) (Huffman.uint (Huffman.size h - 1)) = None /\
  (Huffman.array h <> [] -> is_Some (Mem.index (Huffman.array h) 0)) /\
  (Huffman.array h = [] -> Mem.index (Huffman.array h) 0 = None) /\
  Huffman.extractMin h = None.
Proof.
  intros h.
  assert (Huffman.size h = 0) as H1 by reflexivity.
  assert (Z.of_nat (length (Huffman.array h)) <= 4294967295)
    as H2 by (by vm_compute).
  split; [exact H1|]. split; [exact H2|].
  exact (extractMin_empty_heap h H1 H2).
Defined.

(** X18.  With room for one more node in the array, and fewer than 2^30
    nodes with the new one, [insertMinHeap] adds a node that is not [NULL]
    to a heap in heap order and keeps the order, with no invalid access. *)
Theorem insertMinHeap_keeps_heap (minHeap : Huffman.MinHeap)
    (l : list Huffman.MinHeapNode) (minHeapNode : Huffman.MinHeapNode)
    (Hholds : HuffmanHeap.holds minHeap l)
    (Hroom : (length l < length (Huffman.array minHeap))%nat)
    (Hlen : Z.of_nat (length l) + 1 < 1073741824)
    (Hheap : HuffmanHeap.min_heap l)
    (Hnode : minHeapNode <> Huffman.NULL) :
  exists minHeap' l',
    Huffman.insertMinHeap minHeap minHeapNode = Some minHeap' /\
    HuffmanHeap.holds minHeap' l' /\ l' ≡ₚ minHeapNode :: l /\
    HuffmanHeap.min_heap l' /\
    length (Huffman.array minHeap') = length (Huffman.array minHeap).
Proof.
  destruct Hholds as (Hsize & Hnn & rest & Harr).
  destruct rest as [|g rest].
  { rewrite Harr, app_nil_r in Hroom. lia. }
  destruct (insertMinHeap_spec rest l g minHeapNode minHeap Hsize Harr Hnn Hlen Hheap Hnode)
    as (l' & Hrun & Hperm & Hheap').
  eexists _, l'. split; [exact Hrun|].
  split; [|split; [assumption|split; [assumption|]]].
  - split; [reflexivity|]. split.
    + rewrite Hperm. by apply Forall_cons.
    + by exists rest.
  - cbn. rewrite Harr, !length_app, Hperm. cbn. lia.
Qed.

Lemma insertMinHeap_keeps_heap_witness :
  let n5 := Huffman.newNode 97 5 in
  let n9 := Huffman.newNode 98 9 in
  let n2 := Huffman.newNode 99 2 in
  let h := {| Huffman.size := 2; Huffman.capacity := 3;
              Huffman.array := [n5; n9; Huffman.NULL] |} in
  HuffmanHeap.holds h [n5; n9] /\
  (length [n5; n9] < length (Huffman.array h))%nat /\
  Z.of_nat (length [n5; n9]) + 1 < 1073741824 /\
  HuffmanHeap.min_heap [n5; n9] /\
  n2 <> Huffman.NULL /\
  exists minHeap' l',
    Huffman.insertMinHeap h n2 = Some minHeap' /\
    HuffmanHeap.holds minHeap' l' /\ l' ≡ₚ n2 :: [n5; n9] /\
    HuffmanHeap.min_heap l' /\
    length (Huffman.array minHeap') = length (Huffman.array h).
Proof.
  intros n5 n9 n2 h.
  assert (HuffmanHeap.holds h [n5; n9]) as H1.
  { split; [reflexivity|]. split.
    - repeat constructor; discriminate.
    - by exists [Huffman.NULL]. }
  assert (length [n5; n9] < length (Huffman.array h))%nat as H2 by (cbn; lia).
  assert (Z.of_nat (length [n5; n9]) + 1 < 1073741824) as H3 by (cbn; lia).
  assert (HuffmanHeap.min_heap [n5; n9]) as H4.
  { intros p c x y _ Hc Hx Hy.
    destruct p as [|p].
    - destruct Hc as [->| ->]; cbn in Hx, Hy; [|discriminate].
      injection Hx as <-. injection Hy as <-. cbn. lia.
    - apply lookup_lt_Some in Hy. cbn in Hy. unfold HuffmanHeap.child in Hc. lia. }
  assert (n2 <> Huffman.NULL) as H5 by discriminate.
  split; [exact H1|]. split; [exact H2|]. split; [exact H3|].
  split; [exact H4|]. split; [exact H5|].
  exact (insertMinHeap_keeps_heap h [n5; n9] n2 H1 H2 H3 H4 H5).
Defined.

(** X19.  [insertMinHeap] does not check the capacity.  When the array is
    full, with fewer than 2147483647 elements, [insertMinHeap] has no
    result: the [int] [i] of line 80 is the old size, every write to
    [array[i]], the one of line 82 as well as the one of line 85, is one
    past the end of the array, and the loop writes nowhere else before it.
    When moreover the new node is not [NULL] and the array is full of
    nodes, the reads of the loop test, [minHeapNode->freq] and
    [array[(i - 1) / 2]->freq], are valid, so that the invalid access is
    the write to [array[size]]. *)
Theorem insertMinHeap_full_heap (minHeap : Huffman.MinHeap)
    (minHeapNode : Huffman.MinHeapNode)
    (Hfull : Huffman.size minHeap = Z.of_nat (length (Huffman.array minHeap)))
    (Hlen : Z.of_nat (length (Huffman.array minHeap)) < 2147483647) :
  Huffman.insertMinHeap minHeap minHeapNode = None /\
  CInt.wrap (Huffman.uint (Huffman.uint (Huffman.size minHeap + 1) - 1)) =
    Huffman.size minHeap /\
  (forall v, Mem.update (Huffman.array minHeap) (Huffman.size minHeap) v = None) /\
  (forall fuel r,
     Huffman.insert_loop fuel (Huffman.array minHeap) (Huffman.size minHeap)
       minHeapNode = Some r ->
     r = (Huffman.array minHeap, Huffman.size minHeap)) /\
  (minHeapNode <> Huffman.NULL -> is_Some (Huffman.freq minHeapNode)) /\
  (Forall (fun p => p <> Huffman.NULL) (Huffman.array minHeap) ->
   Huffman.size minHeap <> 0 ->
   is_Some (Huffman.freq_at (Huffman.array minHeap)
              (Huffman.parent (Huffman.size minHeap)))).
Proof.
  assert (Hi : CInt.wrap (Huffman.uint (Huffman.uint (Huffman.size minHeap + 1) - 1)) =
               Huffman.size minHeap).
  { rewrite Hfull.
    rewrite (uint_small (Z.of_nat (length (Huffman.array minHeap)) + 1)) by lia.
    rewrite uint_small by lia.
    rewrite wrap_small by (unfold CInt.in_range, CInt.INT_MIN, CInt.INT_MAX; lia).
    lia. }
  assert (Hwrite : forall v,
            Mem.update (Huffman.array minHeap) (Huffman.size minHeap) v = None).
  { intros v. apply update_outside. lia. }
  assert (Hloop : forall fuel r,
            Huffman.insert_loop fuel (Huffman.array minHeap) (Huffman.size minHeap)
              minHeapNode = Some r ->
            r = (Huffman.array minHeap, Huffman.size minHeap)).
  { intros fuel r. apply insert_loop_past_end. lia. }
  split; [| split; [exact Hi | split; [exact Hwrite | split; [exact Hloop | split]]]].
  - unfold Huffman.insertMinHeap.
    cbn [Huffman.size Huffman.set_size Huffman.array]. rewrite Hi.
    destruct (Huffman.insert_loop _ _ _ _) as [r |] eqn:Hrun; [| reflexivity].
    apply Hloop in Hrun. subst r.
    cbn [mbind option_bind]. by rewrite Hwrite.
  - intros Hnode. exists (HuffmanHeap.key minHeapNode). by apply freq_key.
  - intros Hnodes Hpos.
    assert (Hparent : 0 <= Huffman.parent (Huffman.size minHeap)
                      < Z.of_nat (length (Huffman.array minHeap))).
    { unfold Huffman.parent.
      rewrite wrap_small by (unfold CInt.in_range, CInt.INT_MIN, CInt.INT_MAX; lia).
      Z.to_euclidean_division_equations; lia. }
    destruct (index_in_bounds (Huffman.array minHeap) _ Hparent) as [p Hp].
    exists (HuffmanHeap.key p). unfold Huffman.freq_at. rewrite Hp. cbn.
    apply freq_key. exact (index_Forall _ _ _ _ Hnodes Hp).
Qed.

Lemma insertMinHeap_full_heap_witness :
  let n5 := Huffman.newNode 97 5 in
  let n9 := Huffman.newNode 98 9 in
  let n2 := Huffman.newNode 99 2 in
  let h := {| Huffman.size := 2; Huffman.capacity := 2;
              Huffman.array := [n5; n9] |} in
  Huffman.size h = Z.of_nat (length (Huffman.array h)) /\
  Z.of_nat (length (Huffman.array h)) < 2147483647 /\
  Huffman.insertMinHeap h n2 = None /\
  CInt.wrap (Huffman.uint (Huffman.uint (Huffman.size h + 1) - 1)) = Huffman.size h /\
  (forall v, Mem.update (Huffman.array h) (Huffman.size h) v = None) /\
  (forall fuel r,
     Huffman.insert_loop fuel (Huffman.array h) (Huffman.size h) n2 = Some r ->
     r = (Huffman.array h, Huffman.size h)) /\
  is_Some (Huffman.freq n2) /\
  is_Some (Huffman.freq_at (Huffman.array h) (Huffman.parent (Huffman.size h))).
Proof.
  intros n5 n9 n2 h.
  assert (Huffman.size h = Z.of_nat (length (Huffman.array h))) as H1 by reflexivity.
  assert (Z.of_nat (length (Huffman.array h)) < 2147483647) as H2 by (cbn; lia).
  assert (n2 <> Huffman.NULL) as H3 by discriminate.
  assert (Forall (fun p => p <> Huffman.NULL) (Huffman.array h)) as H4.
  { repeat (apply Forall_cons; split; [discriminate |]). apply Forall_nil_2. }
  split; [exact H1|]. split; [exact H2|].
  destruct (insertMinHeap_full_heap h n2 H1 H2)
    as (Hnone & Hi & Hwrite & Hloop & Hfreq & Hparent).
  split; [exact Hnone|]. split; [exact Hi|]. split; [exact Hwrite|].
  split; [exact Hloop|]. split; [exact (Hfreq H3)|].
  apply (Hparent H4). discriminate.
Defined.

(** X20.  For at least one character, [buildHuffmanTree] returns a tree
    whose leaves are the characters with their frequencies, in which
    every other node has two subtrees and the [unsigned] sum of their
    frequencies as its own; the frequency of the root is the sum of all
    frequencies modulo 2^32.  No access is invalid. *)
Theorem buildHuffmanTree_tree (data freq : list Z) (size : nat)
    (Hsize : (1 <= size)%nat)
    (Hbound : Z.of_nat size < 1073741824)
    (Hdata : (size <= length data)%nat)
    (Hfreq : (size <= length freq)%nat) :
  exists root,
    Huffman.buildHuffmanTree data freq (Z.of_nat size) = Some root /\
    HuffmanTree.huffman_tree root /\
    HuffmanTree.leaves root ≡ₚ HuffmanTree.input_leaves data freq size /\
    Huffman.freq root = Some (Huffman.uint (foldr Z.add 0 (take size freq))).
Proof.
  destruct (buildHuffmanTree_spec data freq size Hsize Hbound Hdata Hfreq)
    as (root & Hrun & Htree & Hleaves).
  exists root. split; [assumption|]. split; [assumption|]. split; [assumption|].
  rewrite (freq_key root (huffman_tree_not_null root Htree)). f_equal.
  rewrite <- (huffman_tree_key_uint root Htree).
  - rewrite (huffman_tree_weight root Htree).
    rewrite (foldr_add_permutation _ (HuffmanTree.input_leaves data freq size).*2)
      by (by rewrite Hleaves).
    by apply input_leaves_weight.
  - rewrite Hleaves. apply input_leaves_uint.
Qed.

Lemma buildHuffmanTree_tree_witness :
  (1 <= 2)%nat /\ Z.of_nat 2 < 1073741824 /\
  (2 <= length [97; 98])%nat /\ (2 <= length [5; 9])%nat /\
  exists root,
    Huffman.buildHuffmanTree [97; 98] [5; 9] (Z.of_nat 2) = Some root /\
    HuffmanTree.huffman_tree root /\
    HuffmanTree.leaves root ≡ₚ HuffmanTree.input_leaves [97; 98] [5; 9] 2 /\
    Huffman.freq root = Some (Huffman.uint (foldr Z.add 0 (take 2 [5; 9]))).
Proof.
  assert (1 <= 2)%nat as H1 by lia.
  assert (Z.of_nat 2 < 1073741824) as H2 by lia.
  assert (2 <= length [97; 98])%nat as H3 by (cbn; lia).
  assert (2 <= length [5; 9])%nat as H4 by (cbn; lia).
  split; [exact H1|]. split; [exact H2|]. split; [exact H3|]. split; [exact H4|].
  exact (buildHuffmanTree_tree [97; 98] [5; 9] 2 H1 H2 H3 H4).
Defined.


(** X22.  [printCodes] on a tree whose height fits the array prints one
    line for every leaf, from left to right: the character of the leaf
    with [arr[0..top)] followed by the way from the root to the leaf, 0
    for left and 1 for right.  It leaves [arr[0..top)] as it was and
    makes no invalid access. *)
Theorem printCodes_prints_codes (root : Huffman.MinHeapNode) (arr : list Z)
    (top : nat)
    (Hroot : root <> Huffman.NULL)
    (Hheight : (top + HuffmanTree.height root <= length arr + 1)%nat) :
  exists arr',
    Huffman.printCodes root arr (Z.of_nat top) =
      Some (prod_map id (app (take top arr)) <$> HuffmanTree.codes root, arr') /\
    length arr' = length arr /\ take top arr' = take top arr.
Proof. by apply printCodes_spec. Qed.

Lemma printCodes_prints_codes_witness :
  let root := Huffman.Node 36 14 (Huffman.newNode 97 5) (Huffman.newNode 98 9) in
  root <> Huffman.NULL /\
  (1 + HuffmanTree.height root <= length [7; 7; 7] + 1)%nat /\
  exists arr',
    Huffman.printCodes root [7; 7; 7] (Z.of_nat 1) =
      Some (prod_map id (app (take 1 [7; 7; 7])) <$> HuffmanTree.codes root, arr') /\
    length arr' = length [7; 7; 7] /\ take 1 arr' = take 1 [7; 7; 7].
Proof.
  intros root.
  assert (root <> Huffman.NULL) as H1 by discriminate.
  assert (1 + HuffmanTree.height root <= length [7; 7; 7] + 1)%nat as H2 by (cbn; lia).
  split; [exact H1|]. split; [exact H2|].
  exact (printCodes_prints_codes root [7; 7; 7] 1 H1 H2).
Defined.

(** X23.  For 1 to 101 characters, [HuffmanCodes] prints one line for every
    character, and no code it prints is a prefix of the code of another
    line; the array of [MAX_TREE_HT] entries is long enough and no access
    is invalid. *)
Theorem HuffmanCodes_prefix_free (arr0 data freq : list Z) (size : nat)
    (Harr : Z.of_nat (length arr0) = Huffman.MAX_TREE_HT)
    (Hsize : (1 <= size <= 101)%nat)
    (Hdata : (size <= length data)%nat)
    (Hfreq : (size <= length freq)%nat) :
  exists out,
    Huffman.HuffmanCodes arr0 data freq (Z.of_nat size) = Some out /\
    out.*1 ≡ₚ take size data /\
    HuffmanTree.prefix_free out.
Proof.
  unfold Huffman.MAX_TREE_HT in Harr.
  destruct (buildHuffmanTree_spec data freq size ltac:(lia) ltac:(lia) Hdata Hfreq)
    as (root & Hrun & Htree & Hleaves).
  pose proof (huffman_tree_height root Htree) as Hheight.
  assert (length (HuffmanTree.leaves root) = size) as Hcount.
  { rewrite Hleaves. unfold HuffmanTree.input_leaves.
    rewrite length_zip_with, !length_take. lia. }
  destruct (printCodes_spec root arr0 0 (huffman_tree_not_null root Htree) ltac:(lia))
    as (arr' & Hprint & _).
  unfold Huffman.HuffmanCodes. rewrite Hrun. cbn [mbind option_bind].
  change 0 with (Z.of_nat 0). rewrite Hprint. cbn [fmap option_fmap option_map fst take].
  change (take 0 arr0) with (@nil Z).
  assert (prod_map id (app []) <$> HuffmanTree.codes root = HuffmanTree.codes root) as ->.
  { rewrite <- (list_fmap_id (HuffmanTree.codes root)) at 2.
    apply list_fmap_ext. by intros _ [] _. }
  exists (HuffmanTree.codes root). split; [reflexivity|]. split.
  - rewrite codes_fst, Hleaves. by rewrite input_leaves_data.
  - apply codes_prefix_free.
Qed.

Lemma HuffmanCodes_prefix_free_witness :
  Z.of_nat (length (replicate 100 0)) = Huffman.MAX_TREE_HT /\
  (1 <= 3 <= 101)%nat /\
  (3 <= length [120; 121; 122])%nat /\ (3 <= length [1; 1; 2])%nat /\
  exists out,
    Huffman.HuffmanCodes (replicate 100 0) [120; 121; 122] [1; 1; 2] (Z.of_nat 3) =
      Some out /\
    out.*1 ≡ₚ take 3 [120; 121; 122] /\
    HuffmanTree.prefix_free out.
Proof.
  assert (Z.of_nat (length (replicate 100 0)) = Huffman.MAX_TREE_HT) as H1 by reflexivity.
  assert (1 <= 3 <= 101)%nat as H2 by lia.
  assert (3 <= length [120; 121; 122])%nat as H3 by (cbn; lia).
  assert (3 <= length [1; 1; 2])%nat as H4 by (cbn; lia).
  split; [exact H1|]. split; [exact H2|]. split; [exact H3|]. split; [exact H4|].
  exact (HuffmanCodes_prefix_free (replicate 100 0) [120; 121; 122] [1; 1; 2] 3 H1 H2 H3 H4).
Defined.

(** ** The distances of samples/dijkstra_safe.c are weights of walks *)

Section DijkstraSafeWalksProperties.
Import Mem DijkstraSafe DijkstraSafeSource DijkstraSafeWalks.

Variable junk : nat -> Z.
Variable graph : list (list Z).

Hypothesis graph_rows : Z.of_nat (length graph) = V.
Hypothesis graph_cols : Forall (fun row => Z.of_nat (length row) = V) graph.

Lemma load_index line name (a : list Z) i x log :
  index a i = Some x -> load junk line name a i log = (x, log).
Proof. intros H. unfold load. by rewrite H. Qed.

Lemma weight_in_bounds u v :
  0 <= u < V -> 0 <= v < V -> exists g, weight graph u v = Some g.
Proof.
  intros Hu Hv. unfold weight.
  destruct (index_in_bounds graph u ltac:(lia)) as [row Hrow]. rewrite Hrow. cbn.
  pose proof (index_Forall _ _ _ _ graph_cols Hrow) as Hlen. cbn in Hlen.
  apply index_in_bounds. lia.
Qed.

Lemma load2_weight line name u v g log :
  weight graph u v = Some g -> load2 junk line name graph u v log = (g, log).
Proof.
  unfold weight, load2. destruct (index graph u) as [row|]; [|discriminate].
  cbn. apply load_index.
Qed.

(** [relax] leaves [dist] as it is, or replaces [dist[v]] by the distance of
    [u], which is not [INT_MAX], plus the weight of the edge from [u] to
    [v], which is not 0. *)
Lemma safe_relax_walk sptSet u v dist log :
  Z.of_nat (length dist) = V -> Z.of_nat (length sptSet) = V ->
  0 <= u < V -> 0 <= v < V ->
  (relax junk graph sptSet u v dist log).1 = dist \/
  exists du g,
    index dist u = Some du /\ du <> CInt.INT_MAX /\
    weight graph u v = Some g /\ g <> 0 /\
    (relax junk graph sptSet u v dist log).1 = <[Z.to_nat v := CInt.add du g]> dist.
Proof.
  intros Hd Hs Hu Hv. unfold relax, bind.
  destruct (index_in_bounds sptSet v ltac:(lia)) as [s Hsv].
  destruct (index_in_bounds dist u ltac:(lia)) as [du Hdu].
  destruct (index_in_bounds dist v ltac:(lia)) as [dv Hdv].
  destruct (weight_in_bounds u v Hu Hv) as [g Hg].
  rewrite (load_index _ _ _ _ _ _ Hsv).
  destruct (Z.eqb_spec s 0) as [_|_]; [|by left].
  rewrite (load2_weight _ _ _ _ _ _ Hg).
  destruct (Z.eqb_spec g 0) as [_|Hg0]; [by left|]. cbn [negb].
  rewrite (load_index _ _ _ _ _ _ Hdu).
  destruct (Z.eqb_spec du CInt.INT_MAX) as [_|Hmax]; [by left|]. cbn [negb].
  rewrite (load_index _ _ _ _ _ _ Hdu), (load2_weight _ _ _ _ _ _ Hg),
    (load_index _ _ _ _ _ _ Hdv).
  destruct (CInt.add du g <? dv); [|by left].
  rewrite (load_index _ _ _ _ _ _ Hdu), (load2_weight _ _ _ _ _ _ Hg).
  rewrite store_in_bounds by lia. right. by exists du, g.
Qed.

Variable src : Z.
Hypothesis src_range : 0 <= src < V.

Lemma safe_relax_keeps_walks sptSet u v dist log :
  Z.of_nat (length dist) = V -> Z.of_nat (length sptSet) = V ->
  0 <= u < V -> 0 <= v < V ->
  distances_are_walks graph src dist ->
  distances_are_walks graph src (relax junk graph sptSet u v dist log).1.
Proof.
  intros Hd Hs Hu Hv Hwalks.
  destruct (safe_relax_walk sptSet u v dist log Hd Hs Hu Hv)
    as [-> | (du & g & Hdu & Hmax & Hg & Hg0 & ->)]; [assumption|].
  intros w dw Hw. unfold index in Hw.
  destruct (Z.ltb_spec w 0) as [|Hw0]; [discriminate|].
  destruct (Z.eq_dec w v) as [->|Hne].
  - rewrite list_lookup_insert_eq in Hw by lia. injection Hw as <-.
    right. destruct (Hwalks u du Hdu) as [|Hwalk]; [contradiction|].
    by eapply walk_edge.
  - rewrite list_lookup_insert_ne in Hw by lia.
    apply (Hwalks w dw). unfold index.
    by destruct (Z.ltb_spec w 0); [lia|].
Qed.

Lemma safe_visit_walks count st log :
  0 <= count < V - 1 -> source_settled src count st ->
  distances_are_walks graph src st.1 ->
  distances_are_walks graph src (visit junk graph count st log).1.1.
Proof.
  intros Hcount (Hd & Hs & Hmax & Hproc & Hsrc & Hfirst & Hlater) Hwalks.
  unfold visit, bind.
  destruct (unprocessed_exists st.2) as [w Hw]; [lia |].
  destruct (safe_minDistance_full junk graph st.1 st.2 log Hd Hs Hmax)
    as (u & du & -> & Hu & Hu0 & Hdu & Hmin).
  { exists (Z.of_nat w). pose proof (lookup_lt_Some _ _ _ Hw). split; [lia |].
    unfold index. destruct (Z.ltb_spec (Z.of_nat w) 0); [lia |].
    by rewrite Nat2Z.id. }
  rewrite store_in_bounds by lia.
  set (sptSet' := <[Z.to_nat u := 1]> st.2).
  assert (Hs' : Z.of_nat (length sptSet') = V) by (subst sptSet'; by rewrite length_insert).
  assert (HI : let r := for_loop (Z.to_nat V) (fun v => v <? V) 0
                          (relax junk graph sptSet' u) st.1 log in
               Z.of_nat (length r.1) = V /\ distances_are_walks graph src r.1).
  { apply (for_loop_lt_invariant
             (fun _ d _ => Z.of_nat (length d) = V /\ distances_are_walks graph src d) 0 V);
      [| unfold V; lia | reflexivity | by split].
    intros v d lg Hv [Hdl Hdw]. split.
    - destruct (safe_relax_walk sptSet' u v d lg Hdl Hs' Hu Hv)
        as [-> | (? & ? & _ & _ & _ & _ & ->)];
        [exact Hdl | by rewrite length_insert].
    - by apply safe_relax_keeps_walks. }
  destruct (for_loop _ _ _ _ st.1 log) as [dist' lg]. cbv zeta in HI.
  cbn [fst snd] in HI. unfold ret. cbn [fst snd]. apply HI.
Qed.

Lemma safe_dijkstra_walks :
  distances_are_walks graph src (dijkstra junk graph src []).1.
Proof.
  unfold dijkstra, bind. rewrite safe_init_loop. cbn [fst snd].
  rewrite store_in_bounds by (rewrite length_replicate; unfold V in *; lia).
  assert (HI : let r := for_loop (Z.to_nat (V - 1)) (fun count => count <? V - 1) 0
                  (visit junk graph)
                  (<[Z.to_nat src := 0]> (replicate (Z.to_nat V) CInt.INT_MAX),
                   replicate (Z.to_nat V) 0) [] in
               source_settled src (V - 1) r.1 /\
               distances_are_walks graph src r.1.1).
  { apply (for_loop_lt_invariant
             (fun count st _ => source_settled src count st /\
                                distances_are_walks graph src st.1) 0 (V - 1));
      [| unfold V; lia | reflexivity |].
    - intros count st lg Hc [Hst Hwalks]. split.
      + by apply (safe_visit_source junk graph graph_rows graph_cols src src_range).
      + by apply safe_visit_walks.
    - split.
      + unfold source_settled. cbn [fst snd].
        split; [rewrite length_insert, length_replicate; unfold V; lia |].
        split; [rewrite length_replicate; unfold V; lia |].
        split; [apply Forall_insert; [apply Forall_replicate; lia | unfold CInt.INT_MAX; lia] |].
        split; [vm_compute; lia |].
        split; [| split; [by intros _ | lia]].
        unfold index. destruct (Z.ltb_spec src 0); [lia |].
        apply list_lookup_insert_eq. rewrite length_replicate. unfold V in *. lia.
      + cbn [fst snd]. intros v d Hv. unfold index in Hv.
        destruct (Z.ltb_spec v 0); [discriminate|].
        destruct (Z.eq_dec v src) as [->|Hne].
        * rewrite list_lookup_insert_eq in Hv
            by (rewrite length_replicate; unfold V in *; lia).
          injection Hv as <-. right. apply walk_here.
        * rewrite list_lookup_insert_ne in Hv by lia.
          apply lookup_replicate_1 in Hv as [-> _]. by left. }
  destruct (for_loop _ _ _ (visit junk graph) _ _) as [st lg].
  cbv zeta in HI. cbn [fst snd] in HI. destruct HI as [_ Hwalks].
  destruct (printSolution junk st.1 lg) as [[] lp]. cbn. exact Hwalks.
Qed.

End DijkstraSafeWalksProperties.

(** X24.  For a V x V graph and a source [0 <= src < V], every distance
    [dijkstra] ends with is [INT_MAX] or the weight of a walk from the
    source to that vertex along edges of weight other than 0, the weights
    added up as [int]s: no distance is made up. *)
Theorem dijkstra_safe_distances_are_walks (junk : nat -> Z)
    (graph : list (list Z)) (src : Z)
    (Hrows : Z.of_nat (length graph) = DijkstraSafe.V)
    (Hcols : Forall (fun row => Z.of_nat (length row) = DijkstraSafe.V) graph)
    (Hsrc : 0 <= src < DijkstraSafe.V) :
  forall v d,
    Mem.index (DijkstraSafe.dijkstra junk graph src []).1 v = Some d ->
    d = CInt.INT_MAX \/ DijkstraSafeWalks.walk graph src v d.
Proof. exact (safe_dijkstra_walks junk graph Hrows Hcols src Hsrc). Qed.

Lemma dijkstra_safe_distances_are_walks_witness :
  Z.of_nat (length DijkstraSafe.main_graph) = DijkstraSafe.V /\
  Forall (fun row => Z.of_nat (length row) = DijkstraSafe.V) DijkstraSafe.main_graph /\
  0 <= 0 < DijkstraSafe.V /\
  forall v d,
    Mem.index (DijkstraSafe.dijkstra (fun _ => 0) DijkstraSafe.main_graph 0 []).1 v
      = Some d ->
    d = CInt.INT_MAX \/ DijkstraSafeWalks.walk DijkstraSafe.main_graph 0 v d.
Proof.
  assert (Z.of_nat (length DijkstraSafe.main_graph) = DijkstraSafe.V) as H1 by reflexivity.
  assert (Forall (fun row => Z.of_nat (length row) = DijkstraSafe.V) DijkstraSafe.main_graph)
    as H2 by (repeat constructor).
  assert (0 <= 0 < DijkstraSafe.V) as H3 by (unfold DijkstraSafe.V; lia).
  split; [exact H1|]. split; [exact H2|]. split; [exact H3|].
  exact (dijkstra_safe_distances_are_walks (fun _ => 0) DijkstraSafe.main_graph 0 H1 H2 H3).
Defined.

(** ** [dijkstra] of samples/dijkstra_safe.c finds the shortest distances *)

Section DijkstraSafeShortestProperties.
Import Mem DijkstraSafe DijkstraSafeSource DijkstraSafeWalks DijkstraSafeShortest.

Variable junk : nat -> Z.
Variable graph : list (list Z).
Variable W : Z.

Hypothesis graph_rows : Z.of_nat (length graph) = V.
Hypothesis graph_cols : Forall (fun row => Z.of_nat (length row) = V) graph.
Hypothesis graph_within : weights_within W graph.
Hypothesis W_small : V * W < CInt.INT_MAX.

Variable src : Z.
Hypothesis src_range : 0 <= src < V.

Lemma graph_weights u v g : weight graph u v = Some g -> 0 <= g <= W.
Proof.
  unfold weight. destruct (index graph u) as [row|] eqn:Hrow; [|discriminate].
  cbn. intros Hv.
  pose proof (index_Forall _ _ _ _ graph_within Hrow) as Hrow'. cbn in Hrow'.
  exact (index_Forall _ _ _ _ Hrow' Hv).
Qed.

Lemma weight_range u v g : weight graph u v = Some g -> 0 <= u < V /\ 0 <= v < V.
Proof.
  unfold weight. destruct (index graph u) as [row|] eqn:Hrow; [|discriminate].
  cbn. intros Hv.
  pose proof (index_Forall _ _ _ _ graph_cols Hrow) as Hlen. cbn in Hlen.
  apply index_Some_range in Hrow, Hv. lia.
Qed.

Lemma path_range v w : path graph src v w -> 0 <= v < V.
Proof.
  induction 1 as [|u v d g _ _ Hg _]; [assumption|].
  by destruct (weight_range u v g Hg).
Qed.

Lemma path_nonneg v w : path graph src v w -> 0 <= w.
Proof.
  induction 1 as [|u v d g _ IH Hg _]; [lia|].
  pose proof (graph_weights u v g Hg). lia.
Qed.

Lemma W_nonneg : 0 <= W.
Proof.
  destruct (weight_in_bounds graph graph_rows graph_cols 0 0) as [g Hg];
    [unfold V; lia..|].
  pose proof (graph_weights 0 0 g Hg). lia.
Qed.

Lemma finite_below c d :
  0 <= c <= V -> 0 <= d <= c * W -> d < CInt.INT_MAX.
Proof.
  intros Hc Hd. pose proof W_nonneg. unfold V, CInt.INT_MAX in *. nia.
Qed.

Lemma finite_step c d g :
  0 <= c < V -> 0 <= d <= c * W -> 0 <= g <= W ->
  0 <= d + g <= (c + 1) * W /\ d + g < CInt.INT_MAX.
Proof.
  intros Hc Hd Hg. unfold V, CInt.INT_MAX in *. nia.
Qed.

(** What [relax] does to [dist], exactly. *)
Lemma relax_exact sptSet u v dist log s du g dv :
  Z.of_nat (length dist) = V ->
  index sptSet v = Some s -> index dist u = Some du ->
  weight graph u v = Some g -> index dist v = Some dv ->
  relax junk graph sptSet u v dist log =
  (if (s =? 0) && negb (g =? 0) && negb (du =? CInt.INT_MAX) &&
      (CInt.add du g <? dv)
   then <[Z.to_nat v := CInt.add du g]> dist else dist, log).
Proof.
  intros Hd Hsv Hdu Hg Hdv. unfold relax, bind.
  pose proof (index_Some_range _ _ _ Hdv) as Hv.
  rewrite (load_index junk _ _ _ _ _ _ Hsv).
  destruct (s =? 0); [|reflexivity].
  rewrite (load2_weight junk graph _ _ _ _ _ _ Hg).
  destruct (g =? 0); [reflexivity|]. cbn [negb andb].
  rewrite (load_index junk _ _ _ _ _ _ Hdu).
  destruct (du =? CInt.INT_MAX); [reflexivity|]. cbn [negb andb].
  rewrite (load_index junk _ _ _ _ _ _ Hdu), (load2_weight junk graph _ _ _ _ _ _ Hg),
    (load_index junk _ _ _ _ _ _ Hdv).
  destruct (CInt.add du g <? dv); [|reflexivity].
  rewrite (load_index junk _ _ _ _ _ _ Hdu), (load2_weight junk graph _ _ _ _ _ _ Hg).
  by rewrite store_in_bounds by lia.
Qed.

Lemma index_insert_eq (l : list Z) (v x : Z) :
  0 <= v < Z.of_nat (length l) -> index (<[Z.to_nat v := x]> l) v = Some x.
Proof.
  intros Hv. unfold index. destruct (Z.ltb_spec v 0); [lia|].
  apply list_lookup_insert_eq. lia.
Qed.

Lemma index_insert_ne (l : list Z) (v w x : Z) :
  0 <= v -> w <> v -> index (<[Z.to_nat v := x]> l) w = index l w.
Proof.
  intros Hv Hne. unfold index. destruct (Z.ltb_spec w 0); [reflexivity|].
  apply list_lookup_insert_ne. lia.
Qed.

Lemma processed_all (l : list Z) :
  processed l = length l -> forall i, l !! i <> Some 0.
Proof.
  unfold processed. induction l as [|a l IH]; intros Hl i; [by destruct i|].
  rewrite filter_cons in Hl. pose proof (length_filter (fun x => x <> 0) l) as Hle.
  destruct (decide (a <> 0)) as [Ha|Ha]; cbn [length] in Hl.
  - destruct i as [|i]; cbn; [congruence|]. apply IH. lia.
  - lia.
Qed.

Lemma processed_but_one (l : list Z) (a b : nat) :
  S (processed l) = length l -> l !! a = Some 0 -> l !! b = Some 0 -> a = b.
Proof.
  unfold processed. revert a b. induction l as [|x l IH]; intros a b Hl Ha Hb;
    [discriminate|].
  rewrite filter_cons in Hl.
  destruct (decide (x <> 0)) as [Hx|Hx]; cbn [length] in Hl.
  - destruct a as [|a]; [cbn in Ha; congruence|].
    destruct b as [|b]; [cbn in Hb; congruence|].
    f_equal. apply IH; [lia|assumption..].
  - assert (processed l = length l) as Hall by (unfold processed; lia).
    destruct a as [|a]; [|by destruct (processed_all l Hall a)].
    destruct b as [|b]; [reflexivity|by destruct (processed_all l Hall b)].
Qed.

Lemma processed_one_more (l : list Z) (i : nat) :
  l !! i = Some 0 -> processed (<[i := 1]> l) = S (processed l).
Proof.
  unfold processed. revert i. induction l as [|x l IH]; intros i Hi; [discriminate|].
  destruct i as [|i]; cbn in Hi.
  - injection Hi as ->. cbn [insert list_insert]. rewrite !filter_cons.
    destruct (decide (1 <> 0)) as [_|?]; [|lia].
    by destruct (decide (0 <> 0)) as [?|_]; [lia|].
  - change (<[S i := 1]> (x :: l)) with (x :: <[i := 1]> l). rewrite !filter_cons.
    destruct (decide (x <> 0)); cbn [length]; rewrite (IH i Hi); reflexivity.
Qed.

(** A walk to an unprocessed vertex is at least as long as the least
    distance of an unprocessed vertex. *)
Lemma unprocessed_bound count st u du :
  0 <= count < V ->
  shortest_so_far W graph src count st ->
  index st.2 u = Some 0 -> index st.1 u = Some du ->
  (forall x dx, index st.2 x = Some 0 -> index st.1 x = Some dx -> du <= dx) ->
  forall x w, path graph src x w -> index st.2 x = Some 0 ->
    du <> CInt.INT_MAX /\ du <= w.
Proof.
  intros Hcount (Hd & Hs & Hproc & Hsrc & Hwalk & Hopt & Hrel) Hu Hdu Hmin.
  induction 1 as [|y x w g Hpath IH Hg Hg0]; intros Hx.
  - pose proof (Hmin src 0 Hx Hsrc). unfold CInt.INT_MAX. lia.
  - destruct (weight_range y x g Hg) as [Hy Hxr].
    pose proof (graph_weights y x g Hg) as Hgw.
    destruct (index_in_bounds st.2 y ltac:(lia)) as [s Hsy].
    destruct (Z.eq_dec s 0) as [->|Hs0].
    + destruct (IH Hsy). split; [assumption|lia].
    + destruct (Hopt y s w Hsy Hs0 Hpath) as (dy & Hdy & Hdymax & Hdyw).
      destruct (index_in_bounds st.1 x ltac:(lia)) as [dx Hdx].
      pose proof (Hrel y x s dy dx g Hsy Hs0 Hx Hdy Hdymax Hg Hg0 Hdx) as Hle.
      pose proof (Hmin x dx Hx Hdx) as Hmin'.
      destruct (Hwalk y dy Hdy) as [?|[Hdyb _]]; [contradiction|].
      destruct (finite_step count dy g Hcount Hdyb Hgw). lia.
Qed.

Lemma shortest_visit count st log :
  0 <= count < V - 1 -> shortest_so_far W graph src count st ->
  shortest_so_far W graph src (count + 1) (visit junk graph count st log).1.
Proof.
  intros Hcount Hinv.
  pose proof Hinv as (Hd & Hs & Hproc & Hsrc & Hwalk & Hopt & Hrel).
  assert (Hmax : Forall (fun d => d <= CInt.INT_MAX) st.1).
  { apply Forall_lookup. intros i d Hi.
    assert (index st.1 (Z.of_nat i) = Some d) as Hi'.
    { unfold index. destruct (Z.ltb_spec (Z.of_nat i) 0); [lia|]. by rewrite Nat2Z.id. }
    destruct (Hwalk _ _ Hi') as [->|[Hb _]]; [lia|].
    pose proof (finite_below count d ltac:(lia) Hb). lia. }
  unfold visit, bind.
  destruct (unprocessed_exists st.2) as [w Hw]; [unfold V in *; lia |].
  destruct (safe_minDistance_full junk graph st.1 st.2 log Hd Hs Hmax)
    as (u & du & -> & Hu & Hu0 & Hdu & Hmin).
  { exists (Z.of_nat w). pose proof (lookup_lt_Some _ _ _ Hw). split; [lia |].
    unfold index. destruct (Z.ltb_spec (Z.of_nat w) 0); [lia |].
    by rewrite Nat2Z.id. }
  pose proof (unprocessed_bound count st u du ltac:(lia) Hinv Hu0 Hdu Hmin) as Hbound.
  rewrite store_in_bounds by lia.
  set (sptSet' := <[Z.to_nat u := 1]> st.2).
  assert (Hs' : Z.of_nat (length sptSet') = V) by (subst sptSet'; by rewrite length_insert).
  assert (Hsu : index sptSet' u = Some 1) by (apply index_insert_eq; lia).
  assert (Hso : forall x, x <> u -> index sptSet' x = index st.2 x).
  { intros x Hx. apply index_insert_ne; [lia|assumption]. }
  assert (HI : let r := for_loop (Z.to_nat V) (fun v => v <? V) 0
                          (relax junk graph sptSet' u) st.1 log in
    Z.of_nat (length r.1) = V /\
    (forall x s, index sptSet' x = Some s -> s <> 0 -> index r.1 x = index st.1 x) /\
    (forall x d, index r.1 x = Some d ->
       d = CInt.INT_MAX \/ (0 <= d <= (count + 1) * W /\ path graph src x d)) /\
    (forall x d0 d, index st.1 x = Some d0 -> index r.1 x = Some d -> d <= d0) /\
    (forall x g d, 0 <= x < V -> index sptSet' x = Some 0 -> du <> CInt.INT_MAX ->
       weight graph u x = Some g -> g <> 0 -> index r.1 x = Some d -> d <= du + g)).
  { apply (for_loop_lt_invariant (fun i d _ =>
      Z.of_nat (length d) = V /\
      (forall x s, index sptSet' x = Some s -> s <> 0 -> index d x = index st.1 x) /\
      (forall x dx, index d x = Some dx ->
         dx = CInt.INT_MAX \/ (0 <= dx <= (count + 1) * W /\ path graph src x dx)) /\
      (forall x d0 dx, index st.1 x = Some d0 -> index d x = Some dx -> dx <= d0) /\
      (forall x g dx, 0 <= x < i -> index sptSet' x = Some 0 -> du <> CInt.INT_MAX ->
         weight graph u x = Some g -> g <> 0 -> index d x = Some dx -> dx <= du + g))
      0 V); [| unfold V; lia | reflexivity |].
    - intros v d lg Hv (Hdl & Hkeep & Hw' & Hdec & Hdone).
      destruct (index_in_bounds sptSet' v ltac:(lia)) as [s Hsv].
      destruct (index_in_bounds d v ltac:(lia)) as [dv Hdv].
      destruct (weight_in_bounds graph graph_rows graph_cols u v Hu Hv) as [g Hg].
      assert (index d u = Some du) as Hdu' by (by rewrite (Hkeep u 1 Hsu)).
      rewrite (relax_exact sptSet' u v d lg s du g dv Hdl Hsv Hdu' Hg Hdv).
      cbn [fst snd].
      pose proof (graph_weights u v g Hg) as Hgw.
      destruct (Z.eqb_spec s 0) as [->|Hs0]; cbn [andb].
      2:{ split; [assumption|]. split; [assumption|]. split; [assumption|].
          split; [assumption|].
          intros x g' dx Hx Hsx. destruct (Z.eq_dec x v) as [->|Hxv]; [congruence|].
          apply Hdone; [lia|assumption]. }
      destruct (Z.eqb_spec g 0) as [Hg0|Hg0]; cbn [negb andb].
      { split; [assumption|]. split; [assumption|]. split; [assumption|].
        split; [assumption|].
        intros x g' dx Hx Hsx Hdum Hg' Hg'0. destruct (Z.eq_dec x v) as [->|Hxv]; [congruence|].
        apply Hdone; [lia|assumption..]. }
      destruct (Z.eqb_spec du CInt.INT_MAX) as [Hdum|Hdum]; cbn [negb andb].
      { split; [assumption|]. split; [assumption|]. split; [assumption|].
        split; [assumption|].
        intros x g' dx Hx Hsx Hdum'. contradiction. }
      destruct (Hwalk u du Hdu) as [?|[Hdub Hpu]]; [contradiction|].
      destruct (finite_step count du g ltac:(lia) Hdub Hgw) as [Hstep Hfin].
      assert (CInt.add du g = du + g) as Hadd.
      { unfold CInt.add. apply wrap_small.
        unfold CInt.in_range, CInt.INT_MIN, CInt.INT_MAX in *. lia. }
      rewrite Hadd.
      destruct (Z.ltb_spec (du + g) dv) as [Hlt|Hge].
      + assert (v <> u) as Hvu by congruence.
        split; [by rewrite length_insert|]. split; [|split; [|split]].
        * intros x s Hsx Hs0. rewrite index_insert_ne; [|lia|congruence].
          by apply (Hkeep x s).
        * intros x dx Hdx. destruct (Z.eq_dec x v) as [->|Hxv].
          -- rewrite index_insert_eq in Hdx by lia. injection Hdx as <-.
             right. split; [lia|]. by eapply path_edge.
          -- rewrite index_insert_ne in Hdx by lia. by apply Hw'.
        * intros x d0 dx Hd0 Hdx. destruct (Z.eq_dec x v) as [->|Hxv].
          -- rewrite index_insert_eq in Hdx by lia. injection Hdx as <-.
             pose proof (Hdec v d0 dv Hd0 Hdv). lia.
          -- rewrite index_insert_ne in Hdx by lia. by apply (Hdec x).
        * intros x g' dx Hx Hsx _ Hg' Hg'0 Hdx. destruct (Z.eq_dec x v) as [->|Hxv].
          -- rewrite index_insert_eq in Hdx by lia. injection Hdx as <-.
             rewrite Hg in Hg'. injection Hg' as <-. lia.
          -- rewrite index_insert_ne in Hdx by lia.
             apply (Hdone x g' dx); [lia|assumption..].
      + split; [assumption|]. split; [assumption|]. split; [assumption|].
        split; [assumption|].
        intros x g' dx Hx Hsx _ Hg' Hg'0 Hdx. destruct (Z.eq_dec x v) as [->|Hxv].
        * rewrite Hg in Hg'. injection Hg' as <-.
          rewrite Hdv in Hdx. injection Hdx as <-. lia.
        * apply (Hdone x g' dx); [lia|assumption..].
    - split; [assumption|]. split; [reflexivity|]. split; [|split].
      + intros x d Hx. destruct (Hwalk x d Hx) as [?|[Hb Hp]]; [by left|right].
        split; [|assumption]. pose proof W_nonneg. nia.
      + intros x d0 dx Hd0 Hdx. rewrite Hd0 in Hdx. injection Hdx as <-. lia.
      + intros x g dx Hx. lia. }
  destruct (for_loop _ _ _ _ st.1 log) as [dist' lg]. cbv zeta in HI.
  cbn [fst snd] in HI. destruct HI as (Hd' & Hkeep & Hwalk' & Hdec & Hdone).
  unfold ret. cbn [fst snd]. unfold shortest_so_far. cbn [fst snd].
  split; [assumption|]. split; [assumption|]. split; [|split; [|split; [|split]]].
  - subst sptSet'. rewrite processed_one_more.
    + rewrite Hproc. lia.
    + unfold index in Hu0. by destruct (Z.ltb_spec u 0); [lia|].
  - destruct (index_in_bounds dist' src ltac:(lia)) as [d Hdsrc].
    pose proof (Hdec src 0 d Hsrc Hdsrc) as Hle.
    destruct (Hwalk' src d Hdsrc) as [->|[Hb _]]; [unfold CInt.INT_MAX in Hle; lia|].
    rewrite Hdsrc. f_equal. lia.
  - assumption.
  - intros x s w' Hsx Hs0 Hpath. rewrite (Hkeep x s Hsx Hs0).
    destruct (Z.eq_dec x u) as [->|Hxu].
    + exists du. destruct (Hbound u w' Hpath Hu0). by repeat split.
    + rewrite Hso in Hsx by assumption. by apply (Hopt x s).
  - intros x v s dx dv g Hsx Hs0 Hsv Hdx Hdxm Hg Hg0 Hdv.
    destruct (weight_range x v g Hg) as [Hxr Hvr].
    assert (v <> u) as Hvu by congruence.
    rewrite (Hkeep x s Hsx Hs0) in Hdx.
    destruct (Z.eq_dec x u) as [->|Hxu].
    + rewrite Hdu in Hdx. injection Hdx as <-.
      by apply (Hdone v g dv).
    + rewrite Hso in Hsx, Hsv by assumption.
      destruct (index_in_bounds st.1 v ltac:(lia)) as [dv0 Hdv0].
      pose proof (Hrel x v s dx dv0 g Hsx Hs0 Hsv Hdx Hdxm Hg Hg0 Hdv0).
      pose proof (Hdec v dv0 dv Hdv0 Hdv). lia.
Qed.

Lemma shortest_dijkstra v :
  0 <= v < V ->
  exists d, index (dijkstra junk graph src []).1 v = Some d /\
            shortest graph src v d.
Proof.
  intros Hv. unfold dijkstra, bind. rewrite safe_init_loop. cbn [fst snd].
  rewrite store_in_bounds by (rewrite length_replicate; unfold V in *; lia).
  assert (HI : let r := for_loop (Z.to_nat (V - 1)) (fun count => count <? V - 1) 0
                  (visit junk graph)
                  (<[Z.to_nat src := 0]> (replicate (Z.to_nat V) CInt.INT_MAX),
                   replicate (Z.to_nat V) 0) [] in
               shortest_so_far W graph src (V - 1) r.1).
  { apply (for_loop_lt_invariant
             (fun count st _ => shortest_so_far W graph src count st) 0 (V - 1));
      [| unfold V; lia | reflexivity |].
    - intros count st lg Hc Hst. by apply shortest_visit.
    - unfold shortest_so_far. cbn [fst snd].
      split; [rewrite length_insert, length_replicate; unfold V; lia |].
      split; [rewrite length_replicate; unfold V; lia |].
      split; [reflexivity|].
      split; [apply index_insert_eq; rewrite length_replicate; unfold V in *; lia|].
      split; [|split].
      + intros x d Hx. destruct (Z.eq_dec x src) as [->|Hne].
        * rewrite index_insert_eq in Hx by (rewrite length_replicate; unfold V in *; lia).
          injection Hx as <-. right. split; [lia|apply path_here].
        * rewrite index_insert_ne in Hx by lia. unfold index in Hx.
          destruct (x <? 0); [discriminate|].
          apply lookup_replicate_1 in Hx as [-> _]. by left.
      + intros u s w Hu Hs0. unfold index in Hu. destruct (u <? 0); [discriminate|].
        apply lookup_replicate_1 in Hu as [-> _]. congruence.
      + intros u x s du dv g Hu Hs0. unfold index in Hu. destruct (u <? 0); [discriminate|].
        apply lookup_replicate_1 in Hu as [-> _]. congruence. }
  destruct (for_loop _ _ _ (visit junk graph) _ _) as [st lg].
  cbv zeta in HI. cbn [fst snd] in HI.
  pose proof HI as (Hd & Hs & Hproc & Hsrc & Hwalk & Hopt & Hrel).
  destruct (printSolution junk st.1 lg) as [[] lp]. cbn [fst snd]. unfold ret. cbn [fst].
  destruct (index_in_bounds st.1 v ltac:(lia)) as [d Hdv].
  destruct (index_in_bounds st.2 v ltac:(lia)) as [s Hsv].
  exists d. split; [assumption|].
  assert (forall w, path graph src v w -> d <> CInt.INT_MAX /\ d <= w) as Hleast.
  { destruct (Z.eq_dec s 0) as [->|Hs0].
    - intros w Hpath.
      apply (unprocessed_bound (V - 1) st v d ltac:(unfold V; lia) HI Hsv Hdv) with (x := v);
        [|assumption..].
      intros x dx Hsx Hdx.
      assert (Z.to_nat x = Z.to_nat v) as Heq.
      { apply (processed_but_one st.2).
        - rewrite Hproc. unfold V in *. lia.
        - unfold index in Hsx. by destruct (x <? 0).
        - unfold index in Hsv. by destruct (v <? 0). }
      apply index_Some_range in Hsx.
      assert (x = v) as -> by lia. rewrite Hdv in Hdx. injection Hdx as <-. lia.
    - intros w Hpath. destruct (Hopt v s w Hsv Hs0 Hpath) as (d' & Hd' & ? & ?).
      rewrite Hdv in Hd'. by injection Hd' as <-. }
  destruct (Z.eq_dec d CInt.INT_MAX) as [->|Hfin].
  - left. split; [reflexivity|]. intros w Hpath. by destruct (Hleast w Hpath).
  - right. split; [assumption|]. split.
    + by destruct (Hwalk v d Hdv) as [?|[_ ?]].
    + intros w Hpath. by destruct (Hleast w Hpath).
Qed.

End DijkstraSafeShortestProperties.

(** X25.  For a V x V graph whose weights are between 0 and a bound [W]
    with [V * W < INT_MAX], and a source [0 <= src < V], [dijkstra] ends
    with the shortest distances: the distance of a vertex is [INT_MAX]
    when no walk along edges of weight other than 0 leads to it from the
    source, and otherwise it is the weight of such a walk and no such
    walk weighs less. *)
Theorem dijkstra_safe_shortest (junk : nat -> Z) (graph : list (list Z))
    (W src : Z)
    (Hrows : Z.of_nat (length graph) = DijkstraSafe.V)
    (Hcols : Forall (fun row => Z.of_nat (length row) = DijkstraSafe.V) graph)
    (Hweights : DijkstraSafeShortest.weights_within W graph)
    (HW : DijkstraSafe.V * W < CInt.INT_MAX)
    (Hsrc : 0 <= src < DijkstraSafe.V) :
  forall v, 0 <= v < DijkstraSafe.V ->
    exists d,
      Mem.index (DijkstraSafe.dijkstra junk graph src []).1 v = Some d /\
      DijkstraSafeShortest.shortest graph src v d.
Proof. exact (shortest_dijkstra junk graph W Hrows Hcols Hweights HW src Hsrc). Qed.

Lemma dijkstra_safe_shortest_witness :
  Z.of_nat (length DijkstraSafe.main_graph) = DijkstraSafe.V /\
  Forall (fun row => Z.of_nat (length row) = DijkstraSafe.V) DijkstraSafe.main_graph /\
  DijkstraSafeShortest.weights_within 100 DijkstraSafe.main_graph /\
  DijkstraSafe.V * 100 < CInt.INT_MAX /\
  0 <= 0 < DijkstraSafe.V /\
  forall v, 0 <= v < DijkstraSafe.V ->
    exists d,
      Mem.index (DijkstraSafe.dijkstra (fun _ => 0) DijkstraSafe.main_graph 0 []).1 v
        = Some d /\
      DijkstraSafeShortest.shortest DijkstraSafe.main_graph 0 v d.
Proof.
  assert (Z.of_nat (length DijkstraSafe.main_graph) = DijkstraSafe.V) as H1 by reflexivity.
  assert (Forall (fun row => Z.of_nat (length row) = DijkstraSafe.V) DijkstraSafe.main_graph)
    as H2 by (repeat constructor).
  assert (DijkstraSafeShortest.weights_within 100 DijkstraSafe.main_graph) as H3
    by (repeat constructor; lia).
  assert (DijkstraSafe.V * 100 < CInt.INT_MAX) as H4 by reflexivity.
  assert (0 <= 0 < DijkstraSafe.V) as H5 by (unfold DijkstraSafe.V; lia).
  split; [exact H1|]. split; [exact H2|]. split; [exact H3|]. split; [exact H4|].
  split; [exact H5|].
  exact (dijkstra_safe_shortest (fun _ => 0) DijkstraSafe.main_graph 100 0 H1 H2 H3 H4 H5).
Defined.

(** ** What [minDistance] of samples/dijkstra_unsafe.c returns *)

Section DijkstraUnsafeResult.
Import Mem.

Variable junk : nat -> Z.

(** A loop with [i <= hi] is the loop with [i < hi] and one more
    iteration. *)
Lemma for_loop_le_last {T} (lo hi : Z) (body body' : Z -> T -> M T) :
  (forall i s log, lo <= i < hi -> body i s log = body' i s log) ->
  forall fuel i s log,
    lo <= i <= hi -> fuel = Z.to_nat (hi - i) ->
    for_loop (S fuel) (fun k => k <=? hi) i body s log =
    (let r := for_loop fuel (fun k => k <? hi) i body' s log in body hi r.1 r.2).
Proof.
  intros Hsame. induction fuel as [|fuel IH]; intros i s log Hi Hfuel.
  - assert (i = hi) as -> by lia. cbn. rewrite Z.leb_refl. unfold bind.
    by destruct (body hi s log) as [s' log'].
  - change (for_loop (S (S fuel)) (fun k => k <=? hi) i body s log)
      with ((if i <=? hi
             then bind (body i s) (for_loop (S fuel) (fun k => k <=? hi) (i + 1) body)
             else ret s) log).
    change (for_loop (S fuel) (fun k => k <? hi) i body' s log)
      with ((if i <? hi
             then bind (body' i s) (for_loop fuel (fun k => k <? hi) (i + 1) body')
             else ret s) log).
    destruct (Z.leb_spec i hi); [|lia]. destruct (Z.ltb_spec i hi); [|lia].
    unfold bind. rewrite Hsame by lia.
    destruct (body' i s log) as [s' log']. apply IH; lia.
Qed.

Lemma unsafe_minDistance_step_value dist sptSet v st log :
  Z.of_nat (length dist) = DijkstraUnsafe.V ->
  Z.of_nat (length sptSet) = DijkstraUnsafe.V -> 0 <= v < DijkstraUnsafe.V ->
  DijkstraUnsafe.minDistance_step junk dist sptSet v st log =
  DijkstraSafe.minDistance_step junk dist sptSet v st log.
Proof.
  intros Hd Hs Hv. unfold DijkstraUnsafe.minDistance_step, DijkstraSafe.minDistance_step, bind.
  destruct (index_in_bounds sptSet v ltac:(lia)) as [s Hsv].
  destruct (index_in_bounds dist v ltac:(lia)) as [d Hdv].
  unfold load. rewrite Hsv. destruct (s =? 0); [|reflexivity].
  rewrite Hdv. by destruct (d <=? st.1).
Qed.

(** The loop of the safe [minDistance] records nothing, and the least
    distance it finds is [INT_MAX] or one of [dist]. *)
Lemma safe_minDistance_least dist sptSet log :
  Z.of_nat (length dist) = DijkstraSafe.V ->
  Z.of_nat (length sptSet) = DijkstraSafe.V ->
  let r := for_loop (Z.to_nat DijkstraSafe.V) (fun v => v <? DijkstraSafe.V) 0
             (DijkstraSafe.minDistance_step junk dist sptSet) (CInt.INT_MAX, -1) log in
  r.2 = log /\ (r.1.1 = CInt.INT_MAX \/ r.1.1 ∈ dist).
Proof.
  intros Hd Hs.
  apply (for_loop_lt_invariant
           (fun _ st l => l = log /\ (st.1 = CInt.INT_MAX \/ st.1 ∈ dist))
           0 DijkstraSafe.V);
    [| unfold DijkstraSafe.V; lia | reflexivity | split; [reflexivity|by left]].
  intros v st l Hv [-> Hst].
  destruct (safe_minDistance_step junk dist sptSet v st log Hd Hs Hv)
    as (s & d & Hsv & Hdv & ->).
  cbn [fst snd]. split; [reflexivity|].
  destruct ((s =? 0) && (d <=? st.1)); [|assumption].
  right. cbn. unfold index in Hdv. destruct (v <? 0); [discriminate|].
  by eapply list_elem_of_lookup_2.
Qed.

Lemma unsafe_minDistance_value dist sptSet log :
  Z.of_nat (length dist) = DijkstraUnsafe.V ->
  Z.of_nat (length sptSet) = DijkstraUnsafe.V ->
  exists m,
    (m = CInt.INT_MAX \/ m ∈ dist) /\
    (DijkstraUnsafe.minDistance junk dist sptSet log).1 =
    if (junk (length log) =? 0) && (junk (S (length log)) <=? m)
    then DijkstraUnsafe.V
    else (DijkstraSafe.minDistance junk dist sptSet log).1.
Proof.
  intros Hd Hs.
  unfold DijkstraUnsafe.minDistance, DijkstraSafe.minDistance, bind.
  change (Z.to_nat (DijkstraUnsafe.V + 1)) with (S (Z.to_nat DijkstraUnsafe.V)).
  rewrite (for_loop_le_last 0 DijkstraUnsafe.V
             (DijkstraUnsafe.minDistance_step junk dist sptSet)
             (DijkstraSafe.minDistance_step junk dist sptSet));
    [| | unfold DijkstraUnsafe.V; lia | reflexivity].
  2:{ intros i s l Hi. by apply unsafe_minDistance_step_value. }
  destruct (safe_minDistance_least dist sptSet log Hd Hs) as [Hlog Hleast].
  change DijkstraSafe.V with DijkstraUnsafe.V in *.
  destruct (for_loop _ _ _ _ _ log) as [st l]. cbn [fst snd] in *. subst l.
  exists st.1. split; [assumption|].
  unfold DijkstraUnsafe.minDistance_step, bind.
  rewrite load_past_end by lia.
  destruct (junk (length log) =? 0); [|reflexivity].
  rewrite load_past_end by lia. rewrite length_app. cbn [length].
  replace (length log + 1)%nat with (S (length log)) by lia.
  destruct (junk (S (length log)) <=? st.1); [|reflexivity].
  rewrite load_past_end by lia. reflexivity.
Qed.

End DijkstraUnsafeResult.

(** X26.  On [V]-element arrays, [minDistance] of dijkstra_unsafe.c returns
    what the one of dijkstra_safe.c returns when the word it reads past
    the end of [sptSet] is not 0.  When that word is 0 and the word it
    reads past the end of [dist] is at most [INT_MAX] and at most every
    distance, it returns [V], which is not a vertex. *)
Theorem unsafe_minDistance_result (junk : nat -> Z) (dist sptSet : list Z)
    (log : list Mem.oob)
    (Hdist : Z.of_nat (length dist) = DijkstraUnsafe.V)
    (HsptSet : Z.of_nat (length sptSet) = DijkstraUnsafe.V) :
  (junk (length log) <> 0 ->
   (DijkstraUnsafe.minDistance junk dist sptSet log).1 =
   (DijkstraSafe.minDistance junk dist sptSet log).1) /\
  (junk (length log) = 0 ->
   junk (S (length log)) <= CInt.INT_MAX ->
   (forall d, d ∈ dist -> junk (S (length log)) <= d) ->
   (DijkstraUnsafe.minDistance junk dist sptSet log).1 = DijkstraUnsafe.V).
Proof.
  destruct (unsafe_minDistance_value junk dist sptSet log Hdist HsptSet)
    as (m & Hm & ->).
  split.
  - intros Hnz. by rewrite (proj2 (Z.eqb_neq _ _) Hnz).
  - intros Hz Hmax Hle. rewrite (proj2 (Z.eqb_eq _ _) Hz). cbn [andb].
    destruct (Z.leb_spec (junk (S (length log))) m) as [_|Hgt]; [reflexivity|].
    destruct Hm as [->|Hin]; [lia|]. specialize (Hle m Hin). lia.
Qed.

Lemma unsafe_minDistance_result_witness :
  let dist := [0; 10; 7; 30; 2] in
  let sptSet := [1; 0; 0; 0; 0] in
  Z.of_nat (length dist) = DijkstraUnsafe.V /\
  Z.of_nat (length sptSet) = DijkstraUnsafe.V /\
  (0 <> 0 ->
   (DijkstraUnsafe.minDistance (fun _ => 0) dist sptSet []).1 =
   (DijkstraSafe.minDistance (fun _ => 0) dist sptSet []).1) /\
  (0 = 0 -> 0 <= CInt.INT_MAX -> (forall d, d ∈ dist -> 0 <= d) ->
   (DijkstraUnsafe.minDistance (fun _ => 0) dist sptSet []).1 = DijkstraUnsafe.V).
Proof.
  intros dist sptSet.
  assert (Z.of_nat (length dist) = DijkstraUnsafe.V) as H1 by reflexivity.
  assert (Z.of_nat (length sptSet) = DijkstraUnsafe.V) as H2 by reflexivity.
  split; [exact H1|]. split; [exact H2|].
  exact (unsafe_minDistance_result (fun _ => 0) dist sptSet [] H1 H2).
Defined.

(** ** [main] of notebooks/samples/typedefs.c *)

(** X27.  [main] returns -1 exactly when the allocation succeeds, and 0
    exactly when it fails.  It frees nothing: [free] is reached with the
    null pointer only, so when the allocation succeeds the new block is
    still allocated when [main] returns; the blocks that were there keep
    their status, no violation is added, and when the allocation fails
    nothing changes at all. *)
Theorem typedefs_main_never_frees (fails : bool) (w : Timer.world) :
  ((Typedefs.main fails w).1 = -1 <-> fails = false) /\
  ((Typedefs.main fails w).1 = 0 <-> fails = true) /\
  Timer.violations (Typedefs.main fails w).2 = Timer.violations w /\
  (forall p s, Timer.heap w !! p = Some s ->
     Timer.heap (Typedefs.main fails w).2 !! p = Some s) /\
  (fails = false ->
   Timer.heap w !! fresh (dom (Timer.heap w)) = None /\
   Timer.heap (Typedefs.main fails w).2 !! fresh (dom (Timer.heap w)) =
     Some (Timer.Live Typedefs.sizeof_Point)) /\
  (fails = true -> (Typedefs.main fails w).2 = w).
Proof.
  pose proof (is_fresh (dom (Timer.heap w))) as Hfresh.
  apply not_elem_of_dom in Hfresh.
  destruct fails; cbn.
  - split; [split; [lia|discriminate]|]. split; [by split|].
    split; [reflexivity|]. split; [by intros|]. split; [discriminate|reflexivity].
  - split; [by split|]. split; [split; [lia|discriminate]|].
    split; [by rewrite app_nil_r|]. split.
    + intros p s Hp. rewrite lookup_insert_ne; [assumption|congruence].
    + split; [|discriminate]. intros _. split; [assumption|].
      by rewrite lookup_insert_eq.
Qed.
